(** * SoundFont 2 decoder: a shallow embedding and its checked properties

    The repository holds two copies of the decoder:
    - the class [Parser] (JavaScript): it owns the generator table, the
      generator and modulator decoders, the nine record loops and the zone
      resolver ([createInstrument], [createPreset], [createBagModGen_]);
    - the function [parse] (TypeScript): the same topology checks written
      over the imported [parseRiff], [Stream] and [Structs], with the
      sentinel filters and [loadSample].

    JavaScript numbers are embedded as [Z]: every value handled here is an
    integer far below 2^53, where the double arithmetic of the source is
    exact.  The 32-bit bit operators are written out with their
    wrap-around.  [undefined] is [None]. *)

From Stdlib Require Import ZArith Lia List.
From Stdlib Require Import Strings.String Strings.Ascii Strings.Byte.
From stdpp Require Import gmap strings list fin_maps.

Local Open Scope Z_scope.

(** ** JavaScript primitives used by the decoder *)

Module JS.

(** ToInt32 and ToUint32 of an integer-valued number. *)
Definition ToInt32 (z : Z) : Z :=
  let m := z mod 2 ^ 32 in if m <? 2 ^ 31 then m else m - 2 ^ 32.

Definition ToUint32 (z : Z) : Z := z mod 2 ^ 32.

(** [a | b], [a << n], [a >> n], [a >>> 0]. *)
Definition bitor (a b : Z) : Z := ToInt32 (Z.lor (ToInt32 a) (ToInt32 b)).
Definition shl (a n : Z) : Z := ToInt32 (Z.shiftl (ToInt32 a) (n mod 32)).
Definition sar (a n : Z) : Z := Z.shiftr (ToInt32 a) (n mod 32).
Definition ushr0 (a : Z) : Z := ToUint32 a.

(** A possibly [undefined] operand of a bit operator counts as 0. *)
Definition num (x : option Z) : Z := default 0 x.

End JS.

(** A [Uint8Array]; the element type keeps every entry in 0..255. *)
Definition Uint8Array := list byte.

Definition byteZ (b : byte) : Z := Z.of_N (Byte.to_N b).

(** [data[ip]]: [undefined] outside the array. *)
Definition at_ (data : Uint8Array) (ip : Z) : option Z :=
  if ip <? 0 then None else byteZ <$> data !! Z.to_nat ip.

(** [data.subarray(b, e)]: negative indices count from the end, both ends
    are clamped to the array. *)
Definition clampIndex (len i : Z) : Z :=
  if i <? 0 then Z.max (len + i) 0 else Z.min i len.

Definition subarray (data : Uint8Array) (b e : Z) : Uint8Array :=
  let len := Z.of_nat (length data) in
  let b' := clampIndex len b in
  let e' := clampIndex len e in
  take (Z.to_nat (e' - b')) (drop (Z.to_nat b') data).

(** [String.fromCharCode.apply(null, bytes)]. *)
Definition fromCharCode (bytes : Uint8Array) : string :=
  string_of_list_byte bytes.

(** An [Int16Array]. *)
Definition Int16Array := list Z.

(** The 16-bit two's complement reading of a value in 0..65535. *)
Definition signed16 (z : Z) : Z := if z <? 2 ^ 15 then z else z - 2 ^ 16.

(** The view of a byte buffer as 16-bit signed integers, low byte first
    (the byte order of the platforms the source runs on). *)
Fixpoint int16View (bytes : list byte) : Int16Array :=
  match bytes with
  | lo :: hi :: rest => signed16 (byteZ lo + 256 * byteZ hi) :: int16View rest
  | _ => []
  end.

(** The inner [for] loop of [adjustSampleData]: every element of [sample]
    is written twice in a row into an array of twice the length. *)
Fixpoint duplicate (sample : Int16Array) : Int16Array :=
  match sample with
  | [] => []
  | x :: rest => x :: x :: duplicate rest
  end.

(** ** Outcomes: a value, a thrown error, or a loop that ran out of steps *)

Inductive outcome (A : Type) : Type :=
| Return (a : A)
| Throw (message : string)
| Diverge.
Arguments Return {A} a.
Arguments Throw {A} message.
Arguments Diverge {A}.

#[global] Instance outcome_ret : MRet outcome := fun _ a => Return a.

#[global] Instance outcome_bind : MBind outcome := fun _ _ k m =>
  match m with
  | Return a => k a
  | Throw e => Throw e
  | Diverge => Diverge
  end.

(** [new Int16Array(new Uint8Array(bytes).buffer)]: the bytes are copied,
    and the constructor throws a RangeError on an odd byte length. *)
Definition newInt16Array (bytes : Uint8Array) : outcome Int16Array :=
  if Z.odd (Z.of_nat (length bytes))
  then Throw "RangeError: byte length of Int16Array should be a multiple of 2"
  else Return (int16View bytes).

(** ** The records of the data model (field names as in the source) *)

(** A chunk descriptor [{type, size, offset}]; [offset] is where the payload
    starts. *)
Module Chunk.
Record t := {
  type : string;
  size : Z;
  offset : Z
}.
End Chunk.

Record PresetHeader := {
  presetName : string;
  preset : Z;
  bank : Z;
  presetBagIndex : Z;
  library : Z;
  genre : Z;
  morphology : Z
}.

Record Instrument := {
  instrumentName : string;
  instrumentBagIndex : Z
}.

Record SampleHeader := {
  sampleName : string;
  start : Z;
  end_ : Z;
  startLoop : Z;
  endLoop : Z;
  sampleRate : Z;
  originalPitch : option Z;
  pitchCorrection : Z;
  sampleLink : Z;
  sampleType : Z
}.

(** The value of a generator or modulator record: a raw tuple for an
    unassigned code, a byte pair, or a signed amount.  [lo] and [hi] are
    plain [data[ip++]] reads, so they may be [undefined]. *)
Inductive GenValue :=
| VRaw (code amount : Z) (lo hi : option Z)
| VRange (lo hi : option Z)
| VAmount (amount : Z).

(** [{type: key, value: ...}]; [type] is [None] when the source stores
    [undefined] there. *)
Record ModGenRecord := {
  type : option string;
  value : GenValue
}.

(** A bag is a plain object; it is kept as a property map because the zone
    resolver reads bag properties by name and a missing one is
    [undefined]. *)
Abbreviation Bag := (gmap string Z).

(** [array[i]] for a numeric [i]: [undefined] outside the array. *)
Definition lookupZ {A} (l : list A) (i : Z) : option A :=
  if i <? 0 then None else l !! Z.to_nat i.

(** An entry of a merged per-zone map: the ['unknown'] list or the value
    stored under a name. *)
Inductive ModGenEntry :=
| EList (values : list GenValue)
| EValue (v : GenValue).

(** The merged map of a zone, a plain object keyed by property name. *)
Abbreviation ModGen := (gmap string ModGenEntry).

(** One element of the [info] array of a resolved instrument or preset. *)
Record ZoneInfo := {
  generator : ModGen;
  generatorSequence : list ModGenRecord;
  modulator : ModGen;
  modulatorSequence : list ModGenRecord
}.

(** The values the variable [instrument] of [createPreset] can hold. *)
Inductive jsval :=
| JUndefined
| JNull
| JNum (z : Z).

Module InstrumentInfo.
Record t := {
  name : string;
  info : list ZoneInfo
}.
End InstrumentInfo.

Module PresetInfo.
Record t := {
  name : string;
  info : list ZoneInfo;
  header : PresetHeader;
  instrument : jsval
}.
End PresetInfo.

(** ** The class [Parser] *)

Module Parser.

(** The array literal of the constructor; an elision is a hole, which
    reads as [undefined]. *)
Definition GeneratorEnumeratorTable : list (option string) := [
  Some "startAddrsOffset";
  Some "endAddrsOffset";
  Some "startloopAddrsOffset";
  Some "endloopAddrsOffset";
  Some "startAddrsCoarseOffset";
  Some "modLfoToPitch";
  Some "vibLfoToPitch";
  Some "modEnvToPitch";
  Some "initialFilterFc";
  Some "initialFilterQ";
  Some "modLfoToFilterFc";
  Some "modEnvToFilterFc";
  Some "endAddrsCoarseOffset";
  Some "modLfoToVolume"; None;
  Some "chorusEffectsSend";
  Some "reverbEffectsSend";
  Some "pan"; None; None; None;
  Some "delayModLFO";
  Some "freqModLFO";
  Some "delayVibLFO";
  Some "freqVibLFO";
  Some "delayModEnv";
  Some "attackModEnv";
  Some "holdModEnv";
  Some "decayModEnv";
  Some "sustainModEnv";
  Some "releaseModEnv";
  Some "keynumToModEnvHold";
  Some "keynumToModEnvDecay";
  Some "delayVolEnv";
  Some "attackVolEnv";
  Some "holdVolEnv";
  Some "decayVolEnv";
  Some "sustainVolEnv";
  Some "releaseVolEnv";
  Some "keynumToVolEnvHold";
  Some "keynumToVolEnvDecay";
  Some "instrument"; None;
  Some "keyRange";
  Some "velRange";
  Some "startloopAddrsCoarseOffset";
  Some "keynum";
  Some "velocity";
  Some "initialAttenuation"; None;
  Some "endloopAddrsCoarseOffset";
  Some "coarseTune";
  Some "fineTune";
  Some "sampleID";
  Some "sampleModes"; None;
  Some "scaleTuning";
  Some "exclusiveClass";
  Some "overridingRootKey";
  Some "endOper"
]%string.

(** [this.GeneratorEnumeratorTable[code]]. *)
Definition tableAt (code : Z) : option string :=
  if code <? 0 then None
  else mjoin (GeneratorEnumeratorTable !! Z.to_nat code).

(** [data[ip++] | (data[ip++] << 8)]. *)
Definition readWord (data : Uint8Array) (ip : Z) : Z :=
  JS.bitor (JS.num (at_ data ip)) (JS.shl (JS.num (at_ data (ip + 1))) 8).

(** [data[ip] | (data[ip + 1] << 8) << 16 >> 16]: the shifts bind
    tighter than [|], so only the high byte is shifted. *)
Definition readAmount (data : Uint8Array) (ip : Z) : Z :=
  JS.bitor (JS.num (at_ data ip))
           (JS.sar (JS.shl (JS.shl (JS.num (at_ data (ip + 1))) 8) 16) 16).

(** The four names whose amount is a byte pair. *)
Definition isRangeKey (key : string) : bool :=
  bool_decide (key = "keynum"%string) || bool_decide (key = "keyRange"%string)
  || bool_decide (key = "velRange"%string) || bool_decide (key = "velocity"%string).

(** One pass of the body of the [while] loop of [parseGenerator], from
    [ip]: the record pushed and the new [ip]. *)
Definition generatorRecord (data : Uint8Array) (ip : Z) : ModGenRecord * Z :=
  let code := readWord data ip in
  let ip := ip + 2 in
  let key := tableAt code in
  match key with
  | None =>
      ({| type := key;
          value := VRaw code (readAmount data ip)
                        (at_ data ip) (at_ data (ip + 1)) |}, ip + 2)
  | Some k =>
      if isRangeKey k
      then ({| type := key;
               value := VRange (at_ data ip) (at_ data (ip + 1)) |}, ip + 2)
      else ({| type := key;
               value := VAmount (readAmount data ip) |}, ip + 2)
  end.

(** [parseGenerator]: the [while (ip < size)] loop; [fuel] bounds the
    number of passes. *)
Fixpoint parseGenerator_loop (fuel : nat) (data : Uint8Array) (ip size : Z)
    (output : list ModGenRecord) : outcome (list ModGenRecord) :=
  match fuel with
  | O => Diverge
  | S fuel =>
      if ip <? size
      then let '(r, ip') := generatorRecord data ip in
           parseGenerator_loop fuel data ip' size (output ++ [r])
      else Return output
  end.

Definition parseGenerator (fuel : nat) (data : Uint8Array) (chunk : Chunk.t)
    : outcome (list ModGenRecord) :=
  parseGenerator_loop fuel data (Chunk.offset chunk)
                      (Chunk.offset chunk + Chunk.size chunk) [].

(** One pass of the loop of [parseModulator]: two bytes skipped, the
    destination and its amount decoded as for a generator, four more
    bytes skipped. *)
Definition modulatorRecord (data : Uint8Array) (ip : Z) : ModGenRecord * Z :=
  let ip := ip + 2 in
  let code := readWord data ip in
  let ip := ip + 2 in
  let key := tableAt code in
  match key with
  | None =>
      ({| type := key;
          value := VRaw code (readAmount data ip)
                        (at_ data ip) (at_ data (ip + 1)) |}, ip + 2 + 2 + 2)
  | Some k =>
      if isRangeKey k
      then ({| type := key;
               value := VRange (at_ data ip) (at_ data (ip + 1)) |},
            ip + 2 + 2 + 2)
      else ({| type := key;
               value := VAmount (readAmount data ip) |}, ip + 2 + 2 + 2)
  end.

Fixpoint parseModulator_loop (fuel : nat) (data : Uint8Array) (ip size : Z)
    (output : list ModGenRecord) : outcome (list ModGenRecord) :=
  match fuel with
  | O => Diverge
  | S fuel =>
      if ip <? size
      then let '(r, ip') := modulatorRecord data ip in
           parseModulator_loop fuel data ip' size (output ++ [r])
      else Return output
  end.

Definition parseModulator (fuel : nat) (data : Uint8Array) (chunk : Chunk.t)
    : outcome (list ModGenRecord) :=
  parseModulator_loop fuel data (Chunk.offset chunk)
                      (Chunk.offset chunk + Chunk.size chunk) [].

(** [(b0 << 0 | b1 << 8 | b2 << 16 | b3 << 24) >>> 0] over four
    [data[ip++]], as [parseShdr] writes it; [parsePhdr] leaves out the
    shift by 0, which does not change a byte. *)
Definition readDword (data : Uint8Array) (ip : Z) : Z :=
  JS.ushr0
    (JS.bitor
       (JS.bitor
          (JS.bitor (JS.shl (JS.num (at_ data ip)) 0)
                    (JS.shl (JS.num (at_ data (ip + 1))) 8))
          (JS.shl (JS.num (at_ data (ip + 2))) 16))
       (JS.shl (JS.num (at_ data (ip + 3))) 24)).

(** The name field: [String.fromCharCode.apply(null,
    data.subarray(ip, ip += 20))]; padding bytes stay in the string. *)
Definition readName (data : Uint8Array) (ip : Z) : string :=
  fromCharCode (subarray data ip (ip + 20)).

(** The object pushed by one pass of [parsePhdr] (38 bytes). *)
Definition presetHeaderRecord (data : Uint8Array) (ip : Z) : PresetHeader * Z :=
  ({| presetName := readName data ip;
      preset := readWord data (ip + 20);
      bank := readWord data (ip + 22);
      presetBagIndex := readWord data (ip + 24);
      library := readDword data (ip + 26);
      genre := readDword data (ip + 30);
      morphology := readDword data (ip + 34) |}, ip + 38).

(** The object pushed by one pass of [parsePbag] (4 bytes). *)
Definition presetBagRecord (data : Uint8Array) (ip : Z) : Bag * Z :=
  ({[ "presetGeneratorIndex"%string := readWord data ip;
      "presetModulatorIndex"%string := readWord data (ip + 2) ]}, ip + 4).

(** The object pushed by one pass of [parseInst] (22 bytes). *)
Definition instrumentRecord (data : Uint8Array) (ip : Z) : Instrument * Z :=
  ({| instrumentName := readName data ip;
      instrumentBagIndex := readWord data (ip + 20) |}, ip + 22).

(** The object pushed by one pass of [parseIbag] (4 bytes). *)
Definition instrumentBagRecord (data : Uint8Array) (ip : Z) : Bag * Z :=
  ({[ "instrumentGeneratorIndex"%string := readWord data ip;
      "instrumentModulatorIndex"%string := readWord data (ip + 2) ]}, ip + 4).

(** The common shape of the record loops of [parsePhdr], [parsePbag],
    [parseInst] and [parseIbag]: [while (ip < size) push(record)]. *)
Fixpoint record_loop {T} (record : Uint8Array -> Z -> T * Z) (fuel : nat)
    (data : Uint8Array) (ip size : Z) (output : list T) : outcome (list T) :=
  match fuel with
  | O => Diverge
  | S fuel =>
      if ip <? size
      then let '(r, ip') := record data ip in
           record_loop record fuel data ip' size (output ++ [r])
      else Return output
  end.

(** The chunk type is checked after the locals are set up and before the
    loop. *)
Definition checked_loop {T} (expected : string)
    (record : Uint8Array -> Z -> T * Z) (fuel : nat) (data : Uint8Array)
    (chunk : Chunk.t) : outcome (list T) :=
  if bool_decide (Chunk.type chunk = expected)
  then record_loop record fuel data (Chunk.offset chunk)
                   (Chunk.offset chunk + Chunk.size chunk) []
  else Throw ("invalid chunk type:" ++ Chunk.type chunk).

Definition parsePhdr := checked_loop "phdr" presetHeaderRecord.
Definition parsePbag := checked_loop "pbag" presetBagRecord.
Definition parseInst := checked_loop "inst" instrumentRecord.
Definition parseIbag := checked_loop "ibag" instrumentBagRecord.

Definition parsePmod (fuel : nat) (data : Uint8Array) (chunk : Chunk.t) :=
  if bool_decide (Chunk.type chunk = "pmod"%string)
  then parseModulator fuel data chunk
  else Throw ("invalid chunk type:" ++ Chunk.type chunk).

Definition parsePgen (fuel : nat) (data : Uint8Array) (chunk : Chunk.t) :=
  if bool_decide (Chunk.type chunk = "pgen"%string)
  then parseGenerator fuel data chunk
  else Throw ("invalid chunk type:" ++ Chunk.type chunk).

Definition parseImod (fuel : nat) (data : Uint8Array) (chunk : Chunk.t) :=
  if bool_decide (Chunk.type chunk = "imod"%string)
  then parseModulator fuel data chunk
  else Throw ("invalid chunk type:" ++ Chunk.type chunk).

Definition parseIgen (fuel : nat) (data : Uint8Array) (chunk : Chunk.t) :=
  if bool_decide (Chunk.type chunk = "igen"%string)
  then parseGenerator fuel data chunk
  else Throw ("invalid chunk type:" ++ Chunk.type chunk).

(** [adjustSampleData(sample, sampleRate)]; [threshold] is
    [this.sampleRate].  The loop runs while the rate is below the
    threshold, whatever its sign. *)
Fixpoint adjustSampleData_loop (fuel : nat) (threshold : Z)
    (sample : Int16Array) (sampleRate multiply : Z)
    : outcome (Int16Array * Z) :=
  match fuel with
  | O => Diverge
  | S fuel =>
      if sampleRate <? threshold
      then adjustSampleData_loop fuel threshold (duplicate sample)
                                 (sampleRate * 2) (multiply * 2)
      else Return (sample, multiply)
  end.

Definition adjustSampleData (fuel : nat) (threshold : Z)
    (sample : Int16Array) (sampleRate : Z) : outcome (Int16Array * Z) :=
  adjustSampleData_loop fuel threshold sample sampleRate 1.

(** The fields read by one pass of [parseShdr], before any arithmetic on
    them (46 bytes). *)
Definition rawSampleHeader (data : Uint8Array) (ip : Z) : SampleHeader :=
  {| sampleName := readName data ip;
     start := readDword data (ip + 20);
     end_ := readDword data (ip + 24);
     startLoop := readDword data (ip + 28);
     endLoop := readDword data (ip + 32);
     sampleRate := readDword data (ip + 36);
     originalPitch := at_ data (ip + 40);
     pitchCorrection := JS.sar (JS.shl (JS.num (at_ data (ip + 41))) 24) 24;
     sampleLink := readWord data (ip + 42);
     sampleType := readWord data (ip + 44) |}.

(** One pass of the loop of [parseShdr]: the sample is cut out of the
    sample data, the loop points are moved by [start], and for a positive
    rate the sample, the rate and the loop points are scaled. *)
Definition sampleRecord (fuel : nat) (threshold samplingData_offset : Z)
    (data : Uint8Array) (ip : Z) : outcome (Int16Array * SampleHeader * Z) :=
  let raw := rawSampleHeader data ip in
  sample ← newInt16Array
             (subarray data (samplingData_offset + start raw * 2)
                            (samplingData_offset + end_ raw * 2));
  let startLoop := startLoop raw - start raw in
  let endLoop := endLoop raw - start raw in
  '(sample, sampleRate, startLoop, endLoop) ←
    (if 0 <? sampleRate raw
     then adjust ← adjustSampleData fuel threshold sample (sampleRate raw);
          Return (adjust.1, sampleRate raw * adjust.2,
                  startLoop * adjust.2, endLoop * adjust.2)
     else Return (sample, sampleRate raw, startLoop, endLoop));
  Return (sample,
          {| sampleName := sampleName raw;
             start := start raw;
             end_ := end_ raw;
             startLoop := startLoop;
             endLoop := endLoop;
             sampleRate := sampleRate;
             originalPitch := originalPitch raw;
             pitchCorrection := pitchCorrection raw;
             sampleLink := sampleLink raw;
             sampleType := sampleType raw |},
          ip + 46).

Fixpoint parseShdr_loop (fuel : nat) (threshold samplingData_offset : Z)
    (data : Uint8Array) (ip size : Z) (samples : list Int16Array)
    (sampleHeader : list SampleHeader)
    : outcome (list Int16Array * list SampleHeader) :=
  match fuel with
  | O => Diverge
  | S fuel' =>
      if ip <? size
      then '(sample, header, ip') ←
             sampleRecord fuel threshold samplingData_offset data ip;
           parseShdr_loop fuel' threshold samplingData_offset data ip' size
                          (samples ++ [sample]) (sampleHeader ++ [header])
      else Return (samples, sampleHeader)
  end.

(** [parseShdr]: the pair is ([this.sample], [this.sampleHeader]). *)
Definition parseShdr (fuel : nat) (threshold samplingData_offset : Z)
    (data : Uint8Array) (chunk : Chunk.t)
    : outcome (list Int16Array * list SampleHeader) :=
  if bool_decide (Chunk.type chunk = "shdr"%string)
  then parseShdr_loop fuel threshold samplingData_offset data
                      (Chunk.offset chunk)
                      (Chunk.offset chunk + Chunk.size chunk) [] []
  else Throw ("invalid chunk type:" ++ Chunk.type chunk).

(** The fields of a [Parser] the zone resolver reads. *)
Record state := {
  presetHeader : list PresetHeader;
  presetZone : list Bag;
  presetZoneModulator : list ModGenRecord;
  presetZoneGenerator : list ModGenRecord;
  instrument : list Instrument;
  instrumentZone : list Bag;
  instrumentZoneModulator : list ModGenRecord;
  instrumentZoneGenerator : list ModGenRecord
}.

(** The object literal every merged map starts from. *)
Definition modgenInit : ModGen :=
  {[ "unknown"%string := EList [];
     "keyRange"%string := EValue (VRange (Some 0) (Some 127)) ]}.

(** The property name [modgen[info.type]] is stored under: [undefined]
    is converted to the string ["undefined"]. *)
Definition propertyKey (ty : option string) : string :=
  match ty with
  | Some k => k
  | None => "undefined"
  end.

(** The body of the merge loop after [modgenInfo.push(info)]. *)
Definition mergeInfo (modgen : ModGen) (info : ModGenRecord) : outcome ModGen :=
  if bool_decide (type info = Some "unknown"%string)
  then match modgen !! "unknown"%string with
       | Some (EList l) =>
           Return (<["unknown"%string := EList (l ++ [value info])]> modgen)
       | _ => Throw "TypeError: modgen.unknown.push is not a function"
       end
  else Return (<[propertyKey (type info) := EValue (value info)]> modgen).

(** [for (i = indexStart, il = indexEnd; i < il; ++i)], [n] passes from
    [i]; reading a property of an [undefined] [info] throws. *)
Fixpoint createBagModGen_loop (n : nat) (i : Z)
    (zoneModGen : list ModGenRecord) (modgen : ModGen)
    (modgenInfo : list ModGenRecord)
    : outcome (ModGen * list ModGenRecord) :=
  match n with
  | O => Return (modgen, modgenInfo)
  | S n =>
      match lookupZ zoneModGen i with
      | None => Throw "TypeError: info is undefined"
      | Some info =>
          modgen' ← mergeInfo modgen info;
          createBagModGen_loop n (i + 1) zoneModGen modgen'
                               (modgenInfo ++ [info])
      end
  end.

(** The number of passes of [for (i = a; i < b; ++i)]: [a < b] is false
    as soon as one side is [undefined]. *)
Definition passes (a b : option Z) : nat :=
  match a, b with
  | Some a, Some b => Z.to_nat (b - a)
  | _, _ => O
  end.

(** [createBagModGen_(zone, indexStart, indexEnd, zoneModGen)]; the pair
    is ([modgen], [modgenInfo]). *)
Definition createBagModGen_ (zone : list Bag) (indexStart indexEnd : option Z)
    (zoneModGen : list ModGenRecord) : outcome (ModGen * list ModGenRecord) :=
  createBagModGen_loop (passes indexStart indexEnd) (JS.num indexStart)
                       zoneModGen modgenInit [].

(** The pattern shared by the four [create...Generator_] and
    [create...Modulator_] methods: [startProp] is read from
    [zone[index]], [endProp] from [zone[index + 1]] when that exists,
    else the length of the flat list is the end. *)
Definition createModGen (startProp endProp : string)
    (zoneModGen : list ModGenRecord) (zone : list Bag) (index : Z)
    : outcome (ModGen * list ModGenRecord) :=
  match lookupZ zone index with
  | None => Throw "TypeError: zone[index] is undefined"
  | Some bag =>
      let indexStart := bag !! startProp in
      let indexEnd :=
        match lookupZ zone (index + 1) with
        | Some next => next !! endProp
        | None => Some (Z.of_nat (length zoneModGen))
        end in
      createBagModGen_ zone indexStart indexEnd zoneModGen
  end.

Definition createInstrumentGenerator_ (this : state) :=
  createModGen "instrumentGeneratorIndex" "instrumentGeneratorIndex"
               (instrumentZoneGenerator this).

Definition createInstrumentModulator_ (this : state) :=
  createModGen "presetModulatorIndex" "instrumentModulatorIndex"
               (instrumentZoneModulator this).

Definition createPresetGenerator_ (this : state) :=
  createModGen "presetGeneratorIndex" "presetGeneratorIndex"
               (presetZoneGenerator this).

Definition createPresetModulator_ (this : state) :=
  createModGen "presetModulatorIndex" "presetModulatorIndex"
               (presetZoneModulator this).

(** The object pushed onto [zoneInfo] for bag [j] of an instrument. *)
Definition instrumentZoneInfo (this : state) (zone : list Bag) (j : Z)
    : outcome ZoneInfo :=
  instrumentGenerator ← createInstrumentGenerator_ this zone j;
  instrumentModulator ← createInstrumentModulator_ this zone j;
  Return {| generator := instrumentGenerator.1;
            generatorSequence := instrumentGenerator.2;
            modulator := instrumentModulator.1;
            modulatorSequence := instrumentModulator.2 |}.

(** [for (j = bagIndex, jl = bagIndexEnd; j < jl; ++j)], [n] passes. *)
Fixpoint instrumentBags (this : state) (zone : list Bag) (n : nat) (j : Z)
    (zoneInfo : list ZoneInfo) : outcome (list ZoneInfo) :=
  match n with
  | O => Return zoneInfo
  | S n =>
      z ← instrumentZoneInfo this zone j;
      instrumentBags this zone n (j + 1) (zoneInfo ++ [z])
  end.

(** The end of the bag range of header [i]: the next header's index when
    there is a next header, else [zone.length]. *)
Definition bagIndexEnd {H} (bagIndexOf : H -> Z) (headers : list H)
    (zone : list Bag) (i : Z) : Z :=
  match lookupZ headers (i + 1) with
  | Some next => bagIndexOf next
  | None => Z.of_nat (length zone)
  end.

Fixpoint createInstrument_loop (this : state) (n : nat) (i : Z)
    (output : list InstrumentInfo.t) : outcome (list InstrumentInfo.t) :=
  match n with
  | O => Return output
  | S n =>
      match lookupZ (instrument this) i with
      | None => Throw "TypeError: instrument[i] is undefined"
      | Some ins =>
          let bagIndex := instrumentBagIndex ins in
          let bagEnd := bagIndexEnd instrumentBagIndex (instrument this)
                                    (instrumentZone this) i in
          zoneInfo ← instrumentBags this (instrumentZone this)
                                    (Z.to_nat (bagEnd - bagIndex)) bagIndex [];
          createInstrument_loop this n (i + 1)
            (output ++ [ {| InstrumentInfo.name := instrumentName ins;
                            InstrumentInfo.info := zoneInfo |} ])
      end
  end.

Definition createInstrument (this : state) : outcome (list InstrumentInfo.t) :=
  createInstrument_loop this (length (instrument this)) 0 [].

(** [entry.amount] for the entry stored under ['instrument']. *)
Definition amountOf (e : ModGenEntry) : jsval :=
  match e with
  | EValue (VAmount a) => JNum a
  | EValue (VRaw _ a _ _) => JNum a
  | _ => JUndefined
  end.

(** The conditional that assigns [instrument] in [createPreset]. *)
Definition linkedInstrument (generator modulator : ModGen) : jsval :=
  match generator !! "instrument"%string with
  | Some e => amountOf e
  | None =>
      match modulator !! "instrument"%string with
      | Some e => amountOf e
      | None => JNull
      end
  end.

(** The bag loop of [createPreset]; [instrument] is a variable of the
    whole method, so it is threaded through every pass. *)
Fixpoint presetBags (this : state) (zone : list Bag) (n : nat) (j : Z)
    (zoneInfo : list ZoneInfo) (instrument : jsval)
    : outcome (list ZoneInfo * jsval) :=
  match n with
  | O => Return (zoneInfo, instrument)
  | S n =>
      presetGenerator ← createPresetGenerator_ this zone j;
      presetModulator ← createPresetModulator_ this zone j;
      presetBags this zone n (j + 1)
        (zoneInfo ++ [ {| generator := presetGenerator.1;
                          generatorSequence := presetGenerator.2;
                          modulator := presetModulator.1;
                          modulatorSequence := presetModulator.2 |} ])
        (linkedInstrument presetGenerator.1 presetModulator.1)
  end.

Fixpoint createPreset_loop (this : state) (n : nat) (i : Z)
    (output : list PresetInfo.t) (instrument : jsval)
    : outcome (list PresetInfo.t) :=
  match n with
  | O => Return output
  | S n =>
      match lookupZ (presetHeader this) i with
      | None => Throw "TypeError: preset[i] is undefined"
      | Some p =>
          let bagIndex := presetBagIndex p in
          let bagEnd := bagIndexEnd presetBagIndex (presetHeader this)
                                    (presetZone this) i in
          '(zoneInfo, instrument) ←
            presetBags this (presetZone this)
                       (Z.to_nat (bagEnd - bagIndex)) bagIndex [] instrument;
          createPreset_loop this n (i + 1)
            (output ++ [ {| PresetInfo.name := presetName p;
                            PresetInfo.info := zoneInfo;
                            PresetInfo.header := p;
                            PresetInfo.instrument := instrument |} ])
            instrument
      end
  end.

Definition createPreset (this : state) : outcome (list PresetInfo.t) :=
  createPreset_loop this (length (presetHeader this)) 0 [] JUndefined.

End Parser.

(** ** The function [parse] (TypeScript) *)

(** What a call that may throw hands back: the message of the error, or
    the value. *)
Definition lift {A} (r : string + A) : outcome A :=
  match r with
  | inl e => Throw e
  | inr a => Return a
  end.

(** A record decoder [stream => T]: from the stream position [ip] it
    throws, or yields the record and the position the stream was moved
    to. *)
Definition Factory (T : Type) : Type := Uint8Array -> Z -> string + (T * Z).

(** The modules [parse] imports and the repository does not show:
    [RiffParser] ([parseRiff] and its options), [Stream] ([readString]
    from a position), [readString], [Constants] ([InfoNameTable]) and
    [Structs] (one static [parse] per record type).  The three record
    types whose fields [parse] touches are the records above; the other
    four stay abstract. *)
Class Imports := {
  RiffParserOptions : Type;
  emptyOptions : RiffParserOptions;
  parseRiff : Uint8Array -> Z -> Z -> RiffParserOptions -> string + list Chunk.t;
  Stream_readString : Z -> Uint8Array -> Z -> string + (string * Z);
  readString : Uint8Array -> Z -> Z -> string;
  InfoNameTable : string -> option string;
  PresetBag : Type;
  InstrumentBag : Type;
  ModulatorList : Type;
  GeneratorList : Type;
  PresetHeader_parse : Factory PresetHeader;
  PresetBag_parse : Factory PresetBag;
  Instrument_parse : Factory Instrument;
  InstrumentBag_parse : Factory InstrumentBag;
  ModulatorList_parse : Factory ModulatorList;
  GeneratorList_parse : Factory GeneratorList;
  SampleHeader_parse : Factory SampleHeader
}.

Module Parse.
Section WithImports.
Context `{Imports}.

(** The object [parsePdtaList] returns. *)
Record Pdta := {
  pdta_presetHeader : list PresetHeader;
  pdta_presetZone : list PresetBag;
  pdta_presetZoneModulator : list ModulatorList;
  pdta_presetZoneGenerator : list GeneratorList;
  pdta_instrument : list Instrument;
  pdta_instrumentZone : list InstrumentBag;
  pdta_instrumentZoneModulator : list ModulatorList;
  pdta_instrumentZoneGenerator : list GeneratorList;
  pdta_sampleHeader : list SampleHeader
}.

Record ParseResult := {
  presetHeader : list PresetHeader;
  presetZone : list PresetBag;
  presetZoneModulator : list ModulatorList;
  presetZoneGenerator : list GeneratorList;
  instrument : list Instrument;
  instrumentZone : list InstrumentBag;
  instrumentZoneModulator : list ModulatorList;
  instrumentZoneGenerator : list GeneratorList;
  sampleHeader : list SampleHeader;
  sample : list Int16Array;
  samplingData : Chunk.t;
  info : gmap string string
}.

Definition getChunkList (chunk : Chunk.t) (data : Uint8Array)
    (expectedType expectedSignature : string) : outcome (list Chunk.t) :=
  if bool_decide (Chunk.type chunk ≠ expectedType)
  then Throw ("invalid chunk type:" ++ Chunk.type chunk)
  else
    '(signature, ip) ← lift (Stream_readString 4 data (Chunk.offset chunk));
    if bool_decide (signature ≠ expectedSignature)
    then Throw ("invalid signature:" ++ signature)
    else lift (parseRiff data ip (Chunk.size chunk - 4) emptyOptions).

(** [InfoNameTable[type] || type]. *)
Definition infoName (type : string) : string :=
  match InfoNameTable type with
  | Some name => if bool_decide (name = ""%string) then type else name
  | None => type
  end.

Definition parseInfoList (chunk : Chunk.t) (data : Uint8Array)
    : outcome (gmap string string) :=
  chunkList ← getChunkList chunk data "LIST" "INFO";
  Return (foldl (fun (info : gmap string string) (p : Chunk.t) =>
                   <[infoName (Chunk.type p) :=
                       readString data (Chunk.offset p)
                                  (Chunk.offset p + Chunk.size p)]> info)
                ∅ chunkList).

Definition parseSdtaList (chunk : Chunk.t) (data : Uint8Array)
    : outcome Chunk.t :=
  chunkList ← getChunkList chunk data "LIST" "sdta";
  match chunkList with
  | [c] => Return c
  | _ => Throw "TODO"
  end.

(** The loop of [parseChunk]: [while (stream.ip < size)
    result.push(factory(stream))]. *)
Fixpoint parseChunk_loop {T} (factory : Factory T) (fuel : nat)
    (data : Uint8Array) (ip size : Z) (result : list T) : outcome (list T) :=
  match fuel with
  | O => Diverge
  | S fuel =>
      if ip <? size
      then '(r, ip') ← lift (factory data ip);
           parseChunk_loop factory fuel data ip' size (result ++ [r])
      else Return result
  end.

Definition parseChunk {T} (fuel : nat) (chunk : Chunk.t) (data : Uint8Array)
    (type : string) (factory : Factory T) : outcome (list T) :=
  if bool_decide (Chunk.type chunk ≠ type)
  then Throw ("invalid chunk type:" ++ Chunk.type chunk)
  else parseChunk_loop factory fuel data (Chunk.offset chunk)
                       (Chunk.offset chunk + Chunk.size chunk) [].

Definition parsePhdr (fuel : nat) (chunk : Chunk.t) (data : Uint8Array) :=
  l ← parseChunk fuel chunk data "phdr" PresetHeader_parse;
  Return (filter (fun p => presetName p ≠ "EOP"%string) l).
Definition parsePbag (fuel : nat) (chunk : Chunk.t) (data : Uint8Array) :=
  parseChunk fuel chunk data "pbag" PresetBag_parse.
Definition parseInst (fuel : nat) (chunk : Chunk.t) (data : Uint8Array) :=
  l ← parseChunk fuel chunk data "inst" Instrument_parse;
  Return (filter (fun i => instrumentName i ≠ "EOI"%string) l).
Definition parseIbag (fuel : nat) (chunk : Chunk.t) (data : Uint8Array) :=
  parseChunk fuel chunk data "ibag" InstrumentBag_parse.
Definition parsePmod (fuel : nat) (chunk : Chunk.t) (data : Uint8Array) :=
  parseChunk fuel chunk data "pmod" ModulatorList_parse.
Definition parseImod (fuel : nat) (chunk : Chunk.t) (data : Uint8Array) :=
  parseChunk fuel chunk data "imod" ModulatorList_parse.
Definition parsePgen (fuel : nat) (chunk : Chunk.t) (data : Uint8Array) :=
  parseChunk fuel chunk data "pgen" GeneratorList_parse.
Definition parseIgen (fuel : nat) (chunk : Chunk.t) (data : Uint8Array) :=
  parseChunk fuel chunk data "igen" GeneratorList_parse.
Definition parseShdr (fuel : nat) (chunk : Chunk.t) (data : Uint8Array) :=
  l ← parseChunk fuel chunk data "shdr" SampleHeader_parse;
  Return (filter (fun s => sampleName s ≠ "EOS"%string) l).

Definition parsePdtaList (fuel : nat) (chunk : Chunk.t) (data : Uint8Array)
    : outcome Pdta :=
  chunkList ← getChunkList chunk data "LIST" "pdta";
  match chunkList with
  | [c0; c1; c2; c3; c4; c5; c6; c7; c8] =>
      presetHeader ← parsePhdr fuel c0 data;
      presetZone ← parsePbag fuel c1 data;
      presetZoneModulator ← parsePmod fuel c2 data;
      presetZoneGenerator ← parsePgen fuel c3 data;
      instrument ← parseInst fuel c4 data;
      instrumentZone ← parseIbag fuel c5 data;
      instrumentZoneModulator ← parseImod fuel c6 data;
      instrumentZoneGenerator ← parseIgen fuel c7 data;
      sampleHeader ← parseShdr fuel c8 data;
      Return {| pdta_presetHeader := presetHeader;
                pdta_presetZone := presetZone;
                pdta_presetZoneModulator := presetZoneModulator;
                pdta_presetZoneGenerator := presetZoneGenerator;
                pdta_instrument := instrument;
                pdta_instrumentZone := instrumentZone;
                pdta_instrumentZoneModulator := instrumentZoneModulator;
                pdta_instrumentZoneGenerator := instrumentZoneGenerator;
                pdta_sampleHeader := sampleHeader |}
  | _ => Throw "invalid pdta chunk"
  end.

(** The nested [parseRiffChunk]: the three parts of its object, in the
    order the literal evaluates them. *)
Definition parseRiffChunk (fuel : nat) (chunk : Chunk.t) (data : Uint8Array)
    : outcome (gmap string string * Chunk.t * Pdta) :=
  chunkList ← getChunkList chunk data "RIFF" "sfbk";
  match chunkList with
  | [c0; c1; c2] =>
      info ← parseInfoList c0 data;
      samplingData ← parseSdtaList c1 data;
      pdta ← parsePdtaList fuel c2 data;
      Return (info, samplingData, pdta)
  | _ => Throw "invalid sfbk structure"
  end.

(** [adjustSampleData(sample, sampleRate)], with its constant 22050. *)
Fixpoint adjustSampleData_loop (fuel : nat) (sample : Int16Array)
    (sampleRate multiply : Z) : outcome (Int16Array * Z) :=
  match fuel with
  | O => Diverge
  | S fuel =>
      if sampleRate <? 22050
      then adjustSampleData_loop fuel (duplicate sample)
                                 (sampleRate * 2) (multiply * 2)
      else Return (sample, multiply)
  end.

Definition adjustSampleData (fuel : nat) (sample : Int16Array)
    (sampleRate : Z) : outcome (Int16Array * Z) :=
  adjustSampleData_loop fuel sample sampleRate 1.

(** The callback of [sampleHeader.map] in [loadSample].  It writes to
    the header object it is given; the header after the call is the
    second component. *)
Definition loadOne (fuel : nat) (samplingDataOffset : Z) (data : Uint8Array)
    (header : SampleHeader) : outcome (Int16Array * SampleHeader) :=
  sample ← newInt16Array
             (subarray data (samplingDataOffset + start header * 2)
                            (samplingDataOffset + end_ header * 2));
  if 0 <? sampleRate header
  then adjust ← adjustSampleData fuel sample (sampleRate header);
       Return (adjust.1,
               {| sampleName := sampleName header;
                  start := start header;
                  end_ := end_ header;
                  startLoop := startLoop header * adjust.2;
                  endLoop := endLoop header * adjust.2;
                  sampleRate := sampleRate header * adjust.2;
                  originalPitch := originalPitch header;
                  pitchCorrection := pitchCorrection header;
                  sampleLink := sampleLink header;
                  sampleType := sampleType header |})
  else Return (sample, header).

(** [loadSample]: the samples, and the headers as the callback left
    them.  The header objects are the ones held by
    [result.sampleHeader], so the parse result shows the updated
    headers. *)
Fixpoint loadSample (fuel : nat) (sampleHeader : list SampleHeader)
    (samplingDataOffset : Z) (data : Uint8Array)
    : outcome (list Int16Array * list SampleHeader) :=
  match sampleHeader with
  | [] => Return ([], [])
  | header :: rest =>
      '(sample, header') ← loadOne fuel samplingDataOffset data header;
      '(samples, rest') ← loadSample fuel rest samplingDataOffset data;
      Return (sample :: samples, header' :: rest')
  end.

Definition parse (fuel : nat) (input : Uint8Array)
    (option : RiffParserOptions) : outcome ParseResult :=
  chunkList ← lift (parseRiff input 0 (Z.of_nat (length input)) option);
  match chunkList with
  | [chunk] =>
      '(info, samplingData, pdta) ← parseRiffChunk fuel chunk input;
      '(sample, sampleHeader) ←
        loadSample fuel (pdta_sampleHeader pdta) (Chunk.offset samplingData)
                   input;
      Return {| presetHeader := pdta_presetHeader pdta;
                presetZone := pdta_presetZone pdta;
                presetZoneModulator := pdta_presetZoneModulator pdta;
                presetZoneGenerator := pdta_presetZoneGenerator pdta;
                instrument := pdta_instrument pdta;
                instrumentZone := pdta_instrumentZone pdta;
                instrumentZoneModulator := pdta_instrumentZoneModulator pdta;
                instrumentZoneGenerator := pdta_instrumentZoneGenerator pdta;
                sampleHeader := sampleHeader;
                sample := sample;
                samplingData := samplingData;
                info := info |}
  | _ => Throw "wrong chunk length"
  end.

End WithImports.
End Parse.

(** ** Statements of the generator table, in the words of the specification *)

(** The codes the specification lists as unassigned. *)
Definition listed_gaps : list Z := [14; 18; 19; 20; 43; 49; 55].

(** The holes of the array literal of the source. *)
Definition table_gaps : list Z := [14; 18; 19; 20; 42; 49; 55].

(** The names whose value is a byte pair. *)
Definition pair_names : list string :=
  ["keyRange"; "velRange"; "keynum"; "velocity"]%string.

(** The amount of the record at [ip] as a signed 16-bit integer, low byte
    first. *)
Definition amount16 (data : Uint8Array) (ip : Z) : Z :=
  signed16 (JS.num (at_ data (ip + 2)) + 256 * JS.num (at_ data (ip + 3))).

(** The record at [ip] decodes to a name of the table, with the shape
    that goes with the name. *)
Definition decodes_known (data : Uint8Array) (ip : Z) : Prop :=
  let r := (Parser.generatorRecord data ip).1 in
  ∃ k : string,
    Parser.GeneratorEnumeratorTable !! Z.to_nat (Parser.readWord data ip)
      = Some (Some k)
    ∧ type r = Some k
    ∧ value r =
        if bool_decide (k ∈ pair_names)
        then VRange (at_ data (ip + 2)) (at_ data (ip + 3))
        else VAmount (amount16 data ip).

(** The record at [ip] keeps the raw tuple: the code, the amount read as
    signed, and the two amount bytes. *)
Definition decodes_raw (data : Uint8Array) (ip : Z) : Prop :=
  value (Parser.generatorRecord data ip).1
  = VRaw (Parser.readWord data ip) (amount16 data ip)
         (at_ data (ip + 2)) (at_ data (ip + 3)).

(** The decode is as the specification describes it, for a given list of
    unassigned codes. *)
Definition decode_by_gaps (gaps : list Z) : Prop :=
  ∀ (data : Uint8Array) (ip : Z),
    let code := Parser.readWord data ip in
    (0 ≤ code < 65536)
    ∧ (code < 60 → code ∉ gaps → decodes_known data ip)
    ∧ (code ∈ gaps ∨ 60 ≤ code → decodes_raw data ip).

(** Bytes for concrete buffers. *)
Definition u8 (z : Z) : byte :=
  default "000"%byte (Byte.of_N (Z.to_N (z mod 256))).

Definition bytesOf (l : list Z) : Uint8Array := u8 <$> l.

(** ** Concrete buffers *)

(** Little-endian fields and a 20-byte name field padded with NUL. *)
Definition le16 (z : Z) : Uint8Array := [u8 z; u8 (z / 256)].

Definition le32 (z : Z) : Uint8Array :=
  [u8 z; u8 (z / 256); u8 (z / 65536); u8 (z / 16777216)].

Definition nameField (s : string) : Uint8Array :=
  take 20 (list_byte_of_string s ++ replicate 20 "000"%byte).

(** The value an outcome returned, [d] when it returned none. *)
Definition returned {A} (d : A) (o : outcome A) : A :=
  match o with
  | Return a => a
  | _ => d
  end.

(** Whether an outcome is a returned value. *)
Definition isReturn {A} (o : outcome A) : bool :=
  match o with
  | Return _ => true
  | _ => false
  end.

(** Whether a run ran out of fuel. *)
Definition isDiverge {A} (o : outcome A) : bool :=
  match o with
  | Diverge => true
  | _ => false
  end.

(** The payloads of the four instrument chunks of a small bank: one
    instrument "Lead" with two zones and the terminal records. *)
Definition demo_inst : Uint8Array :=
  nameField "Lead" ++ le16 0 ++ nameField "EOI" ++ le16 2.

Definition demo_ibag : Uint8Array :=
  le16 0 ++ le16 0 ++ le16 1 ++ le16 1 ++ le16 2 ++ le16 2.

Definition demo_imod : Uint8Array :=
  (le16 2 ++ le16 48 ++ le16 100 ++ le16 0 ++ le16 0)
  ++ (le16 2 ++ le16 17 ++ le16 (-50) ++ le16 0 ++ le16 0)
  ++ (le16 0 ++ le16 0 ++ le16 0 ++ le16 0 ++ le16 0).

Definition demo_igen : Uint8Array :=
  (le16 43 ++ [u8 0; u8 127]) ++ (le16 53 ++ le16 0) ++ (le16 0 ++ le16 0).

(** The chunk that spans a whole buffer. *)
Definition wholeChunk (type : string) (data : Uint8Array) : Chunk.t :=
  {| Chunk.type := type; Chunk.size := Z.of_nat (length data); Chunk.offset := 0 |}.

(** A [Parser] after the four instrument chunks above were decoded. *)
Definition demoParser : Parser.state :=
  {| Parser.presetHeader := [];
     Parser.presetZone := [];
     Parser.presetZoneModulator := [];
     Parser.presetZoneGenerator := [];
     Parser.instrument :=
       returned [] (Parser.parseInst 8 demo_inst (wholeChunk "inst" demo_inst));
     Parser.instrumentZone :=
       returned [] (Parser.parseIbag 8 demo_ibag (wholeChunk "ibag" demo_ibag));
     Parser.instrumentZoneModulator :=
       returned [] (Parser.parseImod 8 demo_imod (wholeChunk "imod" demo_imod));
     Parser.instrumentZoneGenerator :=
       returned [] (Parser.parseIgen 8 demo_igen (wholeChunk "igen" demo_igen)) |}.

(** A buffer with eight samples at offset 0 and, from offset 16, the two
    records of a sample header chunk: "Tone" (frames 2..6, loop 3..5, rate
    11025) and the terminal "EOS". *)
Definition demo_samples : Uint8Array :=
  le16 10 ++ le16 20 ++ le16 30 ++ le16 40 ++ le16 (-50) ++ le16 60
  ++ le16 70 ++ le16 80.

Definition shdrRecord (name : string) (start end_ startLoop endLoop rate : Z)
    : Uint8Array :=
  nameField name ++ le32 start ++ le32 end_ ++ le32 startLoop ++ le32 endLoop
  ++ le32 rate ++ [u8 60; u8 0] ++ le16 0 ++ le16 1.

Definition demo_shdr : Uint8Array :=
  shdrRecord "Tone" 2 6 3 5 11025 ++ shdrRecord "EOS" 0 0 0 0 0.

Definition demo_sample_buffer : Uint8Array := demo_samples ++ demo_shdr.

Definition demo_shdr_chunk : Chunk.t :=
  {| Chunk.type := "shdr"; Chunk.size := 92; Chunk.offset := 16 |}.

(** What the header [h] of a parse result shows of the record read at
    [ip]: the loop points moved by [start], then scaled by the factor [m]
    that also scales the rate; the factor is 1 when the rate is not
    positive or is not below the threshold. *)
Definition rebased_then_scaled (threshold : Z) (data : Uint8Array) (ip : Z)
    (h : SampleHeader) : Prop :=
  let raw := Parser.rawSampleHeader data ip in
  ∃ m : Z,
    1 ≤ m
    ∧ (sampleRate raw ≤ 0 ∨ threshold ≤ sampleRate raw → m = 1)
    ∧ start h = start raw
    ∧ sampleRate h = sampleRate raw * m
    ∧ startLoop h = (startLoop raw - start raw) * m
    ∧ endLoop h = (endLoop raw - start raw) * m.

(** The header [loadSample] leaves behind for the factor [m]. *)
Definition scaledHeader (header : SampleHeader) (m : Z) : SampleHeader :=
  {| sampleName := sampleName header;
     start := start header;
     end_ := end_ header;
     startLoop := startLoop header * m;
     endLoop := endLoop header * m;
     sampleRate := sampleRate header * m;
     originalPitch := originalPitch header;
     pitchCorrection := pitchCorrection header;
     sampleLink := sampleLink header;
     sampleType := sampleType header |}.

(** The modulator part of a resolved zone is the seed. *)
Definition modulator_at_seed (z : ZoneInfo) : Prop :=
  modulator z = Parser.modgenInit ∧ modulatorSequence z = [].

(** ** Termination vocabulary *)

(** A fuel-indexed run settles: from some amount of fuel on it gives one
    and the same outcome, and that outcome is a value or a thrown error. *)
Definition converges {A} (run : nat → outcome A) : Prop :=
  ∃ (N : nat) (r : outcome A),
    r ≠ Diverge ∧ ∀ fuel, (N ≤ fuel)%nat → run fuel = r.

(** A record decoder that returns has moved the stream forward. *)
Definition advances {T} (factory : Factory T) : Prop :=
  ∀ data ip r ip', factory data ip = inr (r, ip') → ip < ip'.

(** ** A reference instance of the imports *)

Module Reference.

(** Modelled from the spec: the binary cursor of section 4.1, which is not
    in the repository.  A read of [width] bytes consumes exactly that
    width and fails out of bounds; it never returns partial data. *)
Definition readBytes (width : Z) (data : Uint8Array) (ip : Z)
    : string + (Uint8Array * Z) :=
  if (0 <=? ip) && (ip + width <=? Z.of_nat (length data))
  then inr (subarray data ip (ip + width), ip + width)
  else inl "out of bounds"%string.

(** Modelled from the spec: [readString] trims trailing NUL bytes. *)
Fixpoint trimNul (bytes : list byte) : list byte :=
  match bytes with
  | [] => []
  | b :: rest =>
      match trimNul rest with
      | [] => if Byte.eqb b "000"%byte then [] else [b]
      | rest' => b :: rest'
      end
  end.

Definition cursorReadString (n : Z) (data : Uint8Array) (ip : Z)
    : string + (string * Z) :=
  match readBytes n data ip with
  | inl e => inl e
  | inr (bytes, ip') => inr (fromCharCode (trimNul bytes), ip')
  end.

Definition readStringRange (data : Uint8Array) (b e : Z) : string :=
  fromCharCode (trimNul (subarray data b e)).

(** Modelled from the spec: the chunk walker of section 4.2, which is not
    in the repository.  It lists the sibling chunks of
    [start, start + length): a 4-character tag, a 32-bit size, the payload
    offset; the size padded to an even number of bytes gives the next
    chunk; a size that runs past the range is an error. *)
Fixpoint walk (fuel : nat) (data : Uint8Array) (ip end_ : Z)
    (chunkList : list Chunk.t) : string + list Chunk.t :=
  match fuel with
  | O => inl "out of bounds"%string
  | S fuel =>
      if ip <? end_
      then match readBytes 8 data ip with
           | inl e => inl e
           | inr (head, ip') =>
               let size := Parser.readDword head 4 in
               if ip' + size <=? end_
               then walk fuel data (ip' + size + size mod 2) end_
                         (chunkList
                          ++ [ {| Chunk.type := fromCharCode (take 4 head);
                                  Chunk.size := size;
                                  Chunk.offset := ip' |} ])
               else inl "out of bounds"%string
           end
      else inr chunkList
  end.

Definition riffWalker (data : Uint8Array) (index length : Z) (_ : unit)
    : string + list Chunk.t :=
  walk (S (List.length data)) data index (index + length) [].

(** Modelled from the spec: a decoder of fixed-width records (section
    4.3): the record is decoded from exactly [width] bytes. *)
Definition fixedRecord {T} (width : Z) (decode : Uint8Array → T) : Factory T :=
  fun data ip =>
    match readBytes width data ip with
    | inl e => inl e
    | inr (bytes, ip') => inr (decode bytes, ip')
    end.

Definition name20 (bytes : Uint8Array) : string :=
  fromCharCode (trimNul (take 20 bytes)).

(** Modelled from the spec: the record layouts of sections 3 and 4.3,
    whose decoders ([Structs]) are not in the repository; the fields are
    little-endian and in the order the data model lists them.  The loop
    points of a sample header are made relative to [start] here (section
    4.6: before any scaling). *)
Definition decodePresetHeader (bytes : Uint8Array) : PresetHeader :=
  {| presetName := name20 bytes;
     preset := Parser.readWord bytes 20;
     bank := Parser.readWord bytes 22;
     presetBagIndex := Parser.readWord bytes 24;
     library := Parser.readDword bytes 26;
     genre := Parser.readDword bytes 30;
     morphology := Parser.readDword bytes 34 |}.

Definition decodeInstrument (bytes : Uint8Array) : Instrument :=
  {| instrumentName := name20 bytes;
     instrumentBagIndex := Parser.readWord bytes 20 |}.

Definition decodeSampleHeader (bytes : Uint8Array) : SampleHeader :=
  let start := Parser.readDword bytes 20 in
  {| sampleName := name20 bytes;
     start := start;
     end_ := Parser.readDword bytes 24;
     startLoop := Parser.readDword bytes 28 - start;
     endLoop := Parser.readDword bytes 32 - start;
     sampleRate := Parser.readDword bytes 36;
     originalPitch := at_ bytes 40;
     pitchCorrection := JS.sar (JS.shl (JS.num (at_ bytes 41)) 24) 24;
     sampleLink := Parser.readWord bytes 42;
     sampleType := Parser.readWord bytes 44 |}.

(** A bag is its pair of indices; a generator record its code and signed
    amount; of a modulator record only the destination and the amount are
    kept. *)
Definition decodeBag (bytes : Uint8Array) : Z * Z :=
  (Parser.readWord bytes 0, Parser.readWord bytes 2).

Definition decodeGenerator (bytes : Uint8Array) : Z * Z :=
  (Parser.readWord bytes 0, Parser.readAmount bytes 2).

Definition decodeModulator (bytes : Uint8Array) : Z * Z :=
  (Parser.readWord bytes 2, Parser.readAmount bytes 4).

(** The instance; its table of INFO names is empty, so every tag passes
    through. *)
Definition imports : Imports :=
  {| RiffParserOptions := unit;
     emptyOptions := tt;
     parseRiff := riffWalker;
     Stream_readString := cursorReadString;
     readString := readStringRange;
     InfoNameTable := fun _ => None;
     PresetBag := Z * Z;
     InstrumentBag := Z * Z;
     ModulatorList := Z * Z;
     GeneratorList := Z * Z;
     PresetHeader_parse := fixedRecord 38 decodePresetHeader;
     PresetBag_parse := fixedRecord 4 decodeBag;
     Instrument_parse := fixedRecord 22 decodeInstrument;
     InstrumentBag_parse := fixedRecord 4 decodeBag;
     ModulatorList_parse := fixedRecord 10 decodeModulator;
     GeneratorList_parse := fixedRecord 4 decodeGenerator;
     SampleHeader_parse := fixedRecord 46 decodeSampleHeader |}.

End Reference.

(** ** A small bank as a file *)

Definition riffChunk (tag : string) (payload : Uint8Array) : Uint8Array :=
  list_byte_of_string tag ++ le32 (Z.of_nat (length payload)) ++ payload
  ++ (if Z.odd (Z.of_nat (length payload)) then ["000"%byte] else []).

Definition listChunk (tag form : string) (subchunks : list Uint8Array)
    : Uint8Array :=
  riffChunk tag (list_byte_of_string form ++ concat subchunks).

Definition phdrRecord (name : string) (preset bank bagIndex : Z) : Uint8Array :=
  nameField name ++ le16 preset ++ le16 bank ++ le16 bagIndex
  ++ le32 0 ++ le32 0 ++ le32 0.

Definition demo_phdr : Uint8Array :=
  phdrRecord "Piano" 0 0 0 ++ phdrRecord "EOP" 0 0 1.

Definition demo_pbag : Uint8Array := le16 0 ++ le16 0 ++ le16 1 ++ le16 0.

Definition demo_pmod : Uint8Array :=
  le16 0 ++ le16 0 ++ le16 0 ++ le16 0 ++ le16 0.

Definition demo_pgen : Uint8Array :=
  (le16 41 ++ le16 0) ++ (le16 0 ++ le16 0).

Definition demo_info : Uint8Array :=
  listChunk "LIST" "INFO" [riffChunk "INAM" (list_byte_of_string "Demo" ++ le16 0)].

Definition demo_sdta : Uint8Array :=
  listChunk "LIST" "sdta" [riffChunk "smpl" demo_samples].

Definition demo_pdta : Uint8Array :=
  listChunk "LIST" "pdta"
    [ riffChunk "phdr" demo_phdr; riffChunk "pbag" demo_pbag;
      riffChunk "pmod" demo_pmod; riffChunk "pgen" demo_pgen;
      riffChunk "inst" demo_inst; riffChunk "ibag" demo_ibag;
      riffChunk "imod" demo_imod; riffChunk "igen" demo_igen;
      riffChunk "shdr" demo_shdr ].

(** The whole bank, and the same file without its [pdta] list. *)
Definition demoFile : Uint8Array :=
  listChunk "RIFF" "sfbk" [demo_info; demo_sdta; demo_pdta].

Definition demoFile_without_pdta : Uint8Array :=
  listChunk "RIFF" "sfbk" [demo_info; demo_sdta].

(** ** Vocabulary of the further properties *)

(** The 8-bit two's complement reading of a value in 0..255. *)
Definition signed8 (z : Z) : Z := if z <? 2 ^ 7 then z else z - 2 ^ 8.

(** The byte at [ip], 0 outside the buffer: what a bit operator sees of
    [data[ip]]. *)
Definition byteAt (data : Uint8Array) (ip : Z) : Z := JS.num (at_ data ip).

(** The number of passes of [while (ip < size)] over records of [width]
    bytes from [ip]: the records that start below [size]. *)
Definition recordCount (width ip size : Z) : nat :=
  Z.to_nat ((size - ip + (width - 1)) / width).

(** [array.slice(s, e)] for indices inside the array: the elements from
    [s] up to, not including, [e]. *)
Definition slice {A} (l : list A) (s e : Z) : list A :=
  take (Z.to_nat (e - s)) (drop (Z.to_nat s) l).

(** The values of the records whose type is the string "unknown", in
    order. *)
Definition unknownValues (records : list ModGenRecord) : list GenValue :=
  value <$> filter (fun r => type r = Some "unknown"%string) records.

(** The last record stored under the property [key]: the last one whose
    type is not "unknown" and converts to [key]. *)
Definition lastStored (key : string) (records : list ModGenRecord)
    : option ModGenRecord :=
  last (filter (fun r => type r ≠ Some "unknown"%string
                         ∧ Parser.propertyKey (type r) = key) records).

(** The body of the merge loop run over a list of records. *)
Fixpoint mergeList (modgen : ModGen) (records : list ModGenRecord)
    : outcome ModGen :=
  match records with
  | [] => Return modgen
  | info :: rest => modgen' ← Parser.mergeInfo modgen info; mergeList modgen' rest
  end.

(** The end of the index range of bag [j]: the property of the next bag
    when there is a next bag, else the length of the flat list. *)
Definition rangeEnd (endProp : string) (zoneModGen : list ModGenRecord)
    (zone : list Bag) (j : Z) : option Z :=
  match lookupZ zone (j + 1) with
  | Some next => next !! endProp
  | None => Some (Z.of_nat (length zoneModGen))
  end.

(** What [createPreset] stores as the instrument of a preset whose zones
    are [zones], when the variable held [prev] before: the link of the
    last zone, or [prev] when the preset has no zone. *)
Definition presetInstrument (prev : jsval) (zones : list ZoneInfo) : jsval :=
  match last zones with
  | Some z => Parser.linkedInstrument (generator z) (modulator z)
  | None => prev
  end.

(** The entries of [createPreset] from header [i] on, [prev] being the
    value of the variable [instrument] before them. *)
Fixpoint presetChain (this : Parser.state) (prev : jsval) (i : nat)
    (entries : list PresetInfo.t) : Prop :=
  match entries with
  | [] => True
  | o :: rest =>
      Parser.presetHeader this !! i = Some (PresetInfo.header o)
      ∧ PresetInfo.name o = presetName (PresetInfo.header o)
      ∧ PresetInfo.instrument o = presetInstrument prev (PresetInfo.info o)
      ∧ presetChain this (PresetInfo.instrument o) (S i) rest
  end.

(** The instrument of the entry before entry [k], [undefined] before the
    first. *)
Definition instrumentBefore (out : list PresetInfo.t) (k : nat) : jsval :=
  match k with
  | O => JUndefined
  | S k' => default JUndefined (PresetInfo.instrument <$> out !! k')
  end.

(** [k] rounds of the doubling step of [adjustSampleData]. *)
Definition stretch (k : nat) (sample : Int16Array) : Int16Array :=
  Nat.iter k duplicate sample.

(** Frame [i] of the sample data that starts at byte [off]: two bytes, low
    byte first, read as a signed 16-bit number. *)
Definition frameAt (data : Uint8Array) (off i : Z) : Z :=
  signed16 (byteAt data (off + 2 * i) + 256 * byteAt data (off + 2 * i + 1)).

(** Three preset headers, the second without zones, and a [Parser] after
    the four preset chunks were decoded. *)
Definition demo_phdr3 : Uint8Array :=
  phdrRecord "Piano" 0 0 0 ++ phdrRecord "Empty" 1 0 1 ++ phdrRecord "EOP" 0 0 1.

Definition demoPresetParser : Parser.state :=
  {| Parser.presetHeader :=
       returned [] (Parser.parsePhdr 8 demo_phdr3 (wholeChunk "phdr" demo_phdr3));
     Parser.presetZone :=
       returned [] (Parser.parsePbag 8 demo_pbag (wholeChunk "pbag" demo_pbag));
     Parser.presetZoneModulator :=
       returned [] (Parser.parsePmod 8 demo_pmod (wholeChunk "pmod" demo_pmod));
     Parser.presetZoneGenerator :=
       returned [] (Parser.parsePgen 8 demo_pgen (wholeChunk "pgen" demo_pgen));
     Parser.instrument := [];
     Parser.instrumentZone := [];
     Parser.instrumentZoneModulator := [];
     Parser.instrumentZoneGenerator := [] |}.

(** A header with its loop points made relative to [start], as [parseShdr]
    of the class does before scaling. *)
Definition rebased (raw : SampleHeader) : SampleHeader :=
  {| sampleName := sampleName raw;
     start := start raw;
     end_ := end_ raw;
     startLoop := startLoop raw - start raw;
     endLoop := endLoop raw - start raw;
     sampleRate := sampleRate raw;
     originalPitch := originalPitch raw;
     pitchCorrection := pitchCorrection raw;
     sampleLink := sampleLink raw;
     sampleType := sampleType raw |}.

(** The bank with a [pdta] list of eight chunks (no [shdr]), and the bank
    with the first two chunks of [pdta] in the wrong order. *)
Definition demoFile_pdta_of_8 : Uint8Array :=
  listChunk "RIFF" "sfbk"
    [ demo_info; demo_sdta;
      listChunk "LIST" "pdta"
        [ riffChunk "phdr" demo_phdr; riffChunk "pbag" demo_pbag;
          riffChunk "pmod" demo_pmod; riffChunk "pgen" demo_pgen;
          riffChunk "inst" demo_inst; riffChunk "ibag" demo_ibag;
          riffChunk "imod" demo_imod; riffChunk "igen" demo_igen ] ].

Definition demoFile_pbag_first : Uint8Array :=
  listChunk "RIFF" "sfbk"
    [ demo_info; demo_sdta;
      listChunk "LIST" "pdta"
        [ riffChunk "pbag" demo_pbag; riffChunk "phdr" demo_phdr;
          riffChunk "pmod" demo_pmod; riffChunk "pgen" demo_pgen;
          riffChunk "inst" demo_inst; riffChunk "ibag" demo_ibag;
          riffChunk "imod" demo_imod; riffChunk "igen" demo_igen;
          riffChunk "shdr" demo_shdr ] ].

(** An INFO list that holds the tag [INAM] twice. *)
Definition demo_info_twice : Uint8Array :=
  listChunk "LIST" "INFO"
    [ riffChunk "INAM" (list_byte_of_string "Old" ++ [x00]);
      riffChunk "ICRD" (list_byte_of_string "2020");
      riffChunk "INAM" (list_byte_of_string "New" ++ [x00]) ].

(** * Properties *)

(** ** Outcomes *)

Lemma bind_Return {A B} (m : outcome A) (k : A → outcome B) (b : B) :
  m ≫= k = Return b → ∃ a, m = Return a ∧ k a = Return b.
Proof. destruct m as [a| |]; [eauto | discriminate | discriminate]. Qed.

Lemma returned_eq {A} (d : A) (o : outcome A) :
  isReturn o = true → o = Return (returned d o).
Proof. destruct o; simpl; congruence. Qed.

Lemma bind_Return_eq {A B} (m : outcome A) (k : A → outcome B) (a : A) :
  m = Return a → m ≫= k = k a.
Proof. intros ->. reflexivity. Qed.

(** ** Bytes and the bit operators *)

Lemma byteZ_range (b : byte) : 0 ≤ byteZ b < 256.
Proof.
  unfold byteZ. pose proof (Byte.to_N_bounded b). lia.
Qed.

Lemma at_range (data : Uint8Array) (ip : Z) : 0 ≤ JS.num (at_ data ip) < 256.
Proof.
  unfold at_. destruct (ip <? 0); simpl; [lia|].
  destruct (data !! Z.to_nat ip) as [b|]; simpl; [apply byteZ_range | lia].
Qed.

(** A property of the integers below [n] checked on each of them. *)
Lemma all_below (n : Z) (P : Z → bool) :
  forallb P (seqZ 0 n) = true → ∀ z, 0 ≤ z < n → P z = true.
Proof.
  intros Hall z Hz. rewrite forallb_forall in Hall. apply Hall.
  apply list_elem_of_In, elem_of_seqZ. lia.
Qed.

Lemma ToInt32_small (z : Z) : - 2 ^ 31 ≤ z < 2 ^ 31 → JS.ToInt32 z = z.
Proof.
  intros Hz. unfold JS.ToInt32.
  destruct (Z_lt_le_dec z 0) as [Hneg|Hpos].
  - replace (z mod 2 ^ 32) with (z + 2 ^ 32)
      by (apply Z.mod_unique with (q := -1); lia).
    destruct (z + 2 ^ 32 <? 2 ^ 31) eqn:E; lia.
  - rewrite Z.mod_small by lia.
    destruct (z <? 2 ^ 31) eqn:E; lia.
Qed.

(** [lo | x] adds when [x] has no bit below bit 8. *)
Lemma lor_low_byte (lo x : Z) : 0 ≤ lo < 256 → Z.lor lo (256 * x) = lo + 256 * x.
Proof.
  intros Hlo.
  assert (Hdisj : Z.land (Z.shiftl x 8) lo = 0).
  { apply Z.bits_inj'. intros n Hn. rewrite Z.land_spec, Z.bits_0.
    destruct (Z.lt_ge_cases n 8).
    - rewrite Z.shiftl_spec_low by lia. reflexivity.
    - rewrite (Z.bits_above_log2 lo n); [apply andb_false_r | lia |].
      destruct (Z.eq_dec lo 0) as [->|Hne]; [simpl; lia|].
      apply Z.log2_lt_pow2; [lia|].
      apply Z.lt_le_trans with (2 ^ 8); [simpl; lia|].
      apply Z.pow_le_mono_r; lia. }
  replace (256 * x) with (Z.shiftl x 8) by (rewrite Z.shiftl_mul_pow2; lia).
  rewrite Z.lor_comm, Z.add_comm. symmetry.
  rewrite <- Z.lxor_lor by exact Hdisj.
  apply Z.add_nocarry_lxor, Hdisj.
Qed.

Lemma bitor_low_byte (lo x : Z) :
  0 ≤ lo < 256 → - 2 ^ 23 ≤ x < 2 ^ 23 - 1 →
  JS.bitor lo (256 * x) = lo + 256 * x.
Proof.
  intros Hlo Hx. unfold JS.bitor.
  rewrite (ToInt32_small lo), (ToInt32_small (256 * x)) by lia.
  rewrite lor_low_byte by lia. apply ToInt32_small. lia.
Qed.

Lemma shl8_byte (hi : Z) : 0 ≤ hi < 256 → JS.shl hi 8 = 256 * hi.
Proof.
  intros Hhi.
  pose proof (all_below 256 (fun hi => JS.shl hi 8 =? 256 * hi)
                         ltac:(vm_compute; reflexivity) hi Hhi) as Heq.
  cbv beta in Heq. lia.
Qed.

Lemma sign_extend_high_byte (hi : Z) :
  0 ≤ hi < 256 →
  JS.sar (JS.shl (JS.shl hi 8) 16) 16
  = 256 * (if hi <? 128 then hi else hi - 256).
Proof.
  intros Hhi.
  pose proof (all_below 256
    (fun hi => JS.sar (JS.shl (JS.shl hi 8) 16) 16
               =? 256 * (if hi <? 128 then hi else hi - 256))
    ltac:(vm_compute; reflexivity) hi Hhi) as Heq.
  cbv beta in Heq. lia.
Qed.

Lemma word_of_bytes (lo hi : Z) :
  0 ≤ lo < 256 → 0 ≤ hi < 256 → JS.bitor lo (JS.shl hi 8) = lo + 256 * hi.
Proof.
  intros Hlo Hhi. rewrite shl8_byte by lia. apply bitor_low_byte; lia.
Qed.

Lemma amount_of_bytes (lo hi : Z) :
  0 ≤ lo < 256 → 0 ≤ hi < 256 →
  JS.bitor lo (JS.sar (JS.shl (JS.shl hi 8) 16) 16) = signed16 (lo + 256 * hi).
Proof.
  intros Hlo Hhi. rewrite sign_extend_high_byte by lia.
  rewrite bitor_low_byte by (destruct (hi <? 128); lia).
  unfold signed16.
  destruct (hi <? 128) eqn:E1; destruct (lo + 256 * hi <? 2 ^ 15) eqn:E2; lia.
Qed.

Lemma readWord_value (data : Uint8Array) (ip : Z) :
  Parser.readWord data ip
  = JS.num (at_ data ip) + 256 * JS.num (at_ data (ip + 1)).
Proof. apply word_of_bytes; apply at_range. Qed.

Lemma readWord_range (data : Uint8Array) (ip : Z) :
  0 ≤ Parser.readWord data ip < 65536.
Proof.
  rewrite readWord_value.
  pose proof (at_range data ip). pose proof (at_range data (ip + 1)). lia.
Qed.

Lemma readAmount_value (data : Uint8Array) (ip : Z) :
  Parser.readAmount data ip
  = signed16 (JS.num (at_ data ip) + 256 * JS.num (at_ data (ip + 1))).
Proof. apply amount_of_bytes; apply at_range. Qed.

(** ** The generator table and the decode of one record *)

Lemma tableAt_lookup (code : Z) :
  0 ≤ code →
  Parser.tableAt code = mjoin (Parser.GeneratorEnumeratorTable !! Z.to_nat code).
Proof.
  intros Hc. unfold Parser.tableAt.
  destruct (code <? 0) eqn:E; [lia | reflexivity].
Qed.

Lemma table_assigned (code : Z) :
  0 ≤ code < 60 → code ∉ table_gaps →
  ∃ k, Parser.GeneratorEnumeratorTable !! Z.to_nat code = Some (Some k).
Proof.
  intros Hc Hgap.
  assert (Hall : forallb
    (fun c => bool_decide (c ∈ table_gaps)
              || match Parser.GeneratorEnumeratorTable !! Z.to_nat c with
                 | Some (Some _) => true
                 | _ => false
                 end) (seqZ 0 60) = true) by (vm_compute; reflexivity).
  pose proof (all_below 60 _ Hall code Hc) as Hk.
  cbv beta in Hk. apply orb_true_iff in Hk as [Hk|Hk].
  - apply bool_decide_eq_true in Hk. contradiction.
  - destruct (Parser.GeneratorEnumeratorTable !! Z.to_nat code) as [[k|]|];
      [eauto | discriminate | discriminate].
Qed.

Lemma table_hole (code : Z) :
  code ∈ table_gaps → Parser.tableAt code = None.
Proof.
  unfold table_gaps. rewrite !elem_of_cons, elem_of_nil.
  intros [->|[->|[->|[->|[->|[->|[->|[]]]]]]]]; reflexivity.
Qed.

Lemma table_end (code : Z) : 60 ≤ code → Parser.tableAt code = None.
Proof.
  intros Hc. rewrite tableAt_lookup by lia.
  rewrite (lookup_ge_None_2 Parser.GeneratorEnumeratorTable); [reflexivity|].
  change (length Parser.GeneratorEnumeratorTable) with 60%nat. lia.
Qed.

Lemma isRangeKey_pair_names (k : string) :
  Parser.isRangeKey k = bool_decide (k ∈ pair_names).
Proof.
  destruct (bool_decide (k ∈ pair_names)) eqn:E.
  - apply bool_decide_eq_true in E. unfold pair_names in E.
    rewrite !elem_of_cons, elem_of_nil in E.
    destruct E as [->|[->|[->|[->|[]]]]]; reflexivity.
  - apply bool_decide_eq_false in E. unfold Parser.isRangeKey.
    rewrite !orb_false_iff, !bool_decide_eq_false.
    unfold pair_names in E. rewrite !elem_of_cons, elem_of_nil in E.
    tauto.
Qed.

Lemma generatorRecord_named (data : Uint8Array) (ip : Z) (k : string) :
  Parser.tableAt (Parser.readWord data ip) = Some k →
  (Parser.generatorRecord data ip).1
  = {| type := Some k;
       value := if bool_decide (k ∈ pair_names)
                then VRange (at_ data (ip + 2)) (at_ data (ip + 3))
                else VAmount (amount16 data ip) |}.
Proof.
  intros Hk. unfold Parser.generatorRecord. rewrite Hk.
  rewrite isRangeKey_pair_names.
  replace (ip + 2 + 1) with (ip + 3) by lia.
  destruct (bool_decide (k ∈ pair_names)); simpl; [reflexivity|].
  rewrite readAmount_value. unfold amount16.
  replace (ip + 2 + 1) with (ip + 3) by lia. reflexivity.
Qed.

Lemma generatorRecord_unnamed (data : Uint8Array) (ip : Z) :
  Parser.tableAt (Parser.readWord data ip) = None →
  (Parser.generatorRecord data ip).1
  = {| type := None;
       value := VRaw (Parser.readWord data ip) (amount16 data ip)
                     (at_ data (ip + 2)) (at_ data (ip + 3)) |}.
Proof.
  intros Hk. unfold Parser.generatorRecord. rewrite Hk. simpl.
  rewrite readAmount_value. unfold amount16.
  replace (ip + 2 + 1) with (ip + 3) by lia. reflexivity.
Qed.

(** C1 (as amended).  Over every two-byte code the decode of a generator
    record is defined; a code in 0..59 other than 14, 18, 19, 20, 42, 49
    and 55 decodes to its name of the table with the shape of that name (a
    byte pair for keyRange, velRange, keynum and velocity, a signed 16-bit
    amount otherwise); each of those seven codes and every code from 60 on
    keeps the raw tuple of code, signed amount and the two amount bytes. *)
Theorem generator_decode_total : decode_by_gaps table_gaps.
Proof.
  intros data ip code. subst code.
  pose proof (readWord_range data ip) as Hr.
  split; [exact Hr|]. split.
  - intros Hlt Hgap.
    destruct (table_assigned (Parser.readWord data ip)) as [k Hk]; [lia|done|].
    exists k. split; [exact Hk|].
    assert (Ht : Parser.tableAt (Parser.readWord data ip) = Some k)
      by (rewrite tableAt_lookup by lia; rewrite Hk; reflexivity).
    rewrite (generatorRecord_named data ip k Ht). split; reflexivity.
  - intros Hcase. unfold decodes_raw.
    rewrite generatorRecord_unnamed; [reflexivity|].
    destruct Hcase as [Hgap|Hge]; [apply table_hole, Hgap | apply table_end, Hge].
Qed.

(** C1, counterexample.  With the gaps as the specification lists them,
    code 43 should keep the raw tuple; the table has keyRange at 43, and
    the record decodes to the byte pair. *)
Lemma generator_decode_listed_gap_43 :
  let data := bytesOf [43; 0; 1; 2] in
  Parser.readWord data 0 = 43
  ∧ 43 ∈ listed_gaps
  ∧ (Parser.generatorRecord data 0).1
    = {| type := Some "keyRange"%string; value := VRange (Some 1) (Some 2) |}
  ∧ ¬ decodes_raw data 0
  ∧ ¬ decode_by_gaps listed_gaps.
Proof.
  assert (Hraw : ¬ decodes_raw (bytesOf [43; 0; 1; 2]) 0)
    by (unfold decodes_raw; vm_compute; discriminate).
  split; [reflexivity|]. split; [unfold listed_gaps; set_solver|].
  split; [reflexivity|]. split; [exact Hraw|].
  intros Hall. destruct (Hall (bytesOf [43; 0; 1; 2]) 0) as (_ & _ & Hgap).
  apply Hraw, Hgap. left. unfold listed_gaps. set_solver.
Qed.

(** C6.  The record with code 61 and amount bytes 0x01, 0x02 carries the
    raw tuple (61, 513, 1, 2), and its [type] is [undefined], not the
    string "unknown". *)
Theorem generator_code_61_record :
  Parser.parseGenerator 2 (bytesOf [61; 0; 1; 2])
    {| Chunk.type := "pgen"; Chunk.size := 4; Chunk.offset := 0 |}
  = Return [ {| type := None; value := VRaw 61 513 (Some 1) (Some 2) |} ]
  ∧ type {| type := None; value := VRaw 61 513 (Some 1) (Some 2) |}
    ≠ Some "unknown"%string.
Proof. split; [vm_compute; reflexivity | discriminate]. Qed.

(** ** The merge of a zone's records *)

Lemma mergeInfo_unknown_label (modgen : ModGen) (info : ModGenRecord)
    (l : list GenValue) :
  type info = Some "unknown"%string →
  modgen !! "unknown"%string = Some (EList l) →
  Parser.mergeInfo modgen info
  = Return (<["unknown"%string := EList (l ++ [value info])]> modgen).
Proof.
  intros Ht Hl. unfold Parser.mergeInfo.
  rewrite bool_decide_eq_true_2 by exact Ht. rewrite Hl. reflexivity.
Qed.

Lemma mergeInfo_other (modgen : ModGen) (info : ModGenRecord) :
  type info ≠ Some "unknown"%string →
  Parser.mergeInfo modgen info
  = Return (<[Parser.propertyKey (type info) := EValue (value info)]> modgen).
Proof.
  intros Ht. unfold Parser.mergeInfo.
  rewrite bool_decide_eq_false_2 by exact Ht. reflexivity.
Qed.

(** No entry of the table is the string "unknown". *)
Lemma tableAt_not_unknown (code : Z) :
  Parser.tableAt code ≠ Some "unknown"%string.
Proof.
  unfold Parser.tableAt. destruct (code <? 0); [discriminate|].
  destruct (Parser.GeneratorEnumeratorTable !! Z.to_nat code) as [e|] eqn:E;
    [|discriminate].
  apply list_elem_of_lookup_2 in E. simpl.
  assert (Hall : Forall (fun e => e ≠ Some "unknown"%string)
                        Parser.GeneratorEnumeratorTable).
  { apply (bool_decide_unpack _). vm_compute. exact I. }
  rewrite Forall_forall in Hall. apply Hall, E.
Qed.

Lemma generatorRecord_type (data : Uint8Array) (ip : Z) :
  type (Parser.generatorRecord data ip).1
  = Parser.tableAt (Parser.readWord data ip).
Proof.
  unfold Parser.generatorRecord.
  destruct (Parser.tableAt (Parser.readWord data ip)) as [k|]; [|reflexivity].
  destruct (Parser.isRangeKey k); reflexivity.
Qed.

Lemma modulatorRecord_type (data : Uint8Array) (ip : Z) :
  type (Parser.modulatorRecord data ip).1
  = Parser.tableAt (Parser.readWord data (ip + 2)).
Proof.
  unfold Parser.modulatorRecord.
  destruct (Parser.tableAt (Parser.readWord data (ip + 2))) as [k|];
    [|reflexivity].
  destruct (Parser.isRangeKey k); reflexivity.
Qed.

Lemma parseGenerator_loop_Forall (P : ModGenRecord → Prop) :
  (∀ data ip, P (Parser.generatorRecord data ip).1) →
  ∀ fuel data ip size output records,
    Forall P output →
    Parser.parseGenerator_loop fuel data ip size output = Return records →
    Forall P records.
Proof.
  intros HP fuel. induction fuel as [|fuel IH]; intros data ip size output
    records Hout Hrun; simpl in Hrun; [discriminate|].
  destruct (ip <? size).
  - destruct (Parser.generatorRecord data ip) as [r ip'] eqn:E.
    eapply IH; [|exact Hrun]. apply Forall_app. split; [exact Hout|].
    apply Forall_singleton. specialize (HP data ip). rewrite E in HP. exact HP.
  - injection Hrun as <-. exact Hout.
Qed.

Lemma parseModulator_loop_Forall (P : ModGenRecord → Prop) :
  (∀ data ip, P (Parser.modulatorRecord data ip).1) →
  ∀ fuel data ip size output records,
    Forall P output →
    Parser.parseModulator_loop fuel data ip size output = Return records →
    Forall P records.
Proof.
  intros HP fuel. induction fuel as [|fuel IH]; intros data ip size output
    records Hout Hrun; simpl in Hrun; [discriminate|].
  destruct (ip <? size).
  - destruct (Parser.modulatorRecord data ip) as [r ip'] eqn:E.
    eapply IH; [|exact Hrun]. apply Forall_app. split; [exact Hout|].
    apply Forall_singleton. specialize (HP data ip). rewrite E in HP. exact HP.
  - injection Hrun as <-. exact Hout.
Qed.

(** The records [parseGenerator] and [parseModulator] produce never carry
    the type "unknown". *)
Lemma parsed_generators_unlabelled fuel data chunk records :
  Parser.parseGenerator fuel data chunk = Return records →
  Forall (fun r => type r ≠ Some "unknown"%string) records.
Proof.
  intros Hrun. unfold Parser.parseGenerator in Hrun.
  refine (parseGenerator_loop_Forall _ _ _ _ _ _ _ _ (Forall_nil_2 _) Hrun).
  intros d ip. rewrite generatorRecord_type. apply tableAt_not_unknown.
Qed.

Lemma parsed_modulators_unlabelled fuel data chunk records :
  Parser.parseModulator fuel data chunk = Return records →
  Forall (fun r => type r ≠ Some "unknown"%string) records.
Proof.
  intros Hrun. unfold Parser.parseModulator in Hrun.
  refine (parseModulator_loop_Forall _ _ _ _ _ _ _ _ (Forall_nil_2 _) Hrun).
  intros d ip. rewrite modulatorRecord_type. apply tableAt_not_unknown.
Qed.

Lemma propertyKey_not_unknown (ty : option string) :
  ty ≠ Some "unknown"%string → Parser.propertyKey ty ≠ "unknown"%string.
Proof. destruct ty as [k|]; simpl; [congruence | discriminate]. Qed.

Lemma createBagModGen_loop_unknown_kept (n : nat) :
  ∀ i zoneModGen modgen modgenInfo m seq l,
    Forall (fun r => type r ≠ Some "unknown"%string) zoneModGen →
    modgen !! "unknown"%string = Some (EList l) →
    Parser.createBagModGen_loop n i zoneModGen modgen modgenInfo
    = Return (m, seq) →
    m !! "unknown"%string = Some (EList l).
Proof.
  induction n as [|n IH]; intros i zoneModGen modgen modgenInfo m seq l
    Hall Hl Hrun; simpl in Hrun.
  - injection Hrun as <- <-. exact Hl.
  - destruct (lookupZ zoneModGen i) as [info|] eqn:E; [|discriminate].
    assert (Hty : type info ≠ Some "unknown"%string).
    { unfold lookupZ in E. destruct (i <? 0); [discriminate|].
      rewrite Forall_forall in Hall. apply Hall.
      eapply list_elem_of_lookup_2, E. }
    rewrite (mergeInfo_other _ _ Hty) in Hrun. simpl in Hrun.
    eapply IH; [exact Hall| |exact Hrun].
    rewrite lookup_insert_ne; [exact Hl|].
    apply propertyKey_not_unknown, Hty.
Qed.

(** X23.  Whatever the range, a zone that [createBagModGen_] resolves
    over the records [parseGenerator] returned has an empty ['unknown']
    list: no parsed record carries the type "unknown". *)
Lemma parsed_zone_unknown_list_empty fuel data chunk records zone a b m seq :
  Parser.parseGenerator fuel data chunk = Return records →
  Parser.createBagModGen_ zone a b records = Return (m, seq) →
  m !! "unknown"%string = Some (EList []).
Proof.
  intros Hparse Hrun. unfold Parser.createBagModGen_ in Hrun.
  eapply createBagModGen_loop_unknown_kept; [| |exact Hrun].
  - eapply parsed_generators_unlabelled, Hparse.
  - reflexivity.
Qed.

Lemma createBagModGen_loop_step (n : nat) (i : Z)
    (zoneModGen : list ModGenRecord) (modgen : ModGen)
    (modgenInfo : list ModGenRecord) (info : ModGenRecord) :
  lookupZ zoneModGen i = Some info →
  type info ≠ Some "unknown"%string →
  Parser.createBagModGen_loop (S n) i zoneModGen modgen modgenInfo
  = Parser.createBagModGen_loop n (i + 1) zoneModGen
      (<[Parser.propertyKey (type info) := EValue (value info)]> modgen)
      (modgenInfo ++ [info]).
Proof.
  intros Hi Hty. simpl. rewrite Hi, (mergeInfo_other _ _ Hty). reflexivity.
Qed.

(** C4.  Two generator records with the unassigned codes 61 and 62 in one
    zone: the merged map is the seed map (empty ['unknown'] list, default
    key range) with only the second record, under the key "undefined". *)
Theorem two_unassigned_codes_in_one_zone :
  let data := bytesOf [61; 0; 1; 2; 62; 0; 3; 4] in
  let r61 := {| type := None; value := VRaw 61 513 (Some 1) (Some 2) |} in
  let r62 := {| type := None; value := VRaw 62 1027 (Some 3) (Some 4) |} in
  Parser.parseGenerator 3 data
    {| Chunk.type := "igen"; Chunk.size := 8; Chunk.offset := 0 |}
  = Return [r61; r62]
  ∧ Parser.createBagModGen_ [] (Some 0) (Some 2) [r61; r62]
    = Return (<["undefined"%string := EValue (value r62)]>
                ({[ "unknown"%string := EList [];
                    "keyRange"%string := EValue (VRange (Some 0) (Some 127)) ]}),
              [r61; r62]).
Proof.
  intros data r61 r62. split; [vm_compute; reflexivity|].
  unfold Parser.createBagModGen_.
  change (Parser.passes (Some 0) (Some 2)) with 2%nat.
  rewrite (createBagModGen_loop_step _ _ _ _ _ r61) by (reflexivity || discriminate).
  rewrite (createBagModGen_loop_step _ _ _ _ _ r62) by (reflexivity || discriminate).
  cbn [Parser.createBagModGen_loop Parser.propertyKey type].
  rewrite insert_insert_eq. reflexivity.
Qed.

(** C5 (as amended).  Over an empty index range the resolved map is the
    object the merge starts from: an empty ['unknown'] list and the key
    range 0..127, and the record sequence is empty. *)
Theorem empty_range_resolves_to_seed (zone : list Bag) (s e : Z)
    (zoneModGen : list ModGenRecord) :
  e ≤ s →
  Parser.createBagModGen_ zone (Some s) (Some e) zoneModGen
  = Return ({[ "unknown"%string := EList [];
               "keyRange"%string := EValue (VRange (Some 0) (Some 127)) ]},
            []).
Proof.
  intros Hle. unfold Parser.createBagModGen_, Parser.passes.
  replace (Z.to_nat (e - s)) with O by lia. reflexivity.
Qed.

Lemma empty_range_resolves_to_seed_witness :
  0 ≤ 0
  ∧ Parser.createBagModGen_ [] (Some 0) (Some 0) []
    = Return ({[ "unknown"%string := EList [];
                 "keyRange"%string := EValue (VRange (Some 0) (Some 127)) ]},
              []).
Proof.
  split; [lia | apply (empty_range_resolves_to_seed [] 0 0 []); lia].
Defined.

(** C5, counterexample.  The map resolved over the empty range 0..0 is not
    the one-entry map that holds the key range alone. *)
Lemma empty_range_map_is_not_keyRange_alone :
  Parser.createBagModGen_ [] (Some 0) (Some 0) []
  ≠ Return ({[ "keyRange"%string := EValue (VRange (Some 0) (Some 127)) ]}, []).
Proof.
  change (Parser.createBagModGen_ [] (Some 0) (Some 0) [])
    with (Return (A := ModGen * list ModGenRecord) (Parser.modgenInit, [])).
  intros Heq.
  assert (Hm : Parser.modgenInit
               = {[ "keyRange"%string := EValue (VRange (Some 0) (Some 127)) ]})
    by congruence.
  apply (f_equal (fun m : ModGen => m !! "unknown"%string)) in Hm.
  unfold Parser.modgenInit in Hm.
  rewrite lookup_insert_eq, lookup_singleton_ne in Hm by discriminate.
  discriminate Hm.
Qed.

(** ** Instrument zones and their modulators *)

Lemma instrumentBagRecord_properties (data : Uint8Array) (ip : Z) :
  (Parser.instrumentBagRecord data ip).1 !! "presetModulatorIndex"%string = None.
Proof.
  unfold Parser.instrumentBagRecord. simpl.
  rewrite lookup_insert_ne, lookup_singleton_ne by discriminate. reflexivity.
Qed.

Lemma record_loop_Forall {T} (record : Uint8Array → Z → T * Z) (P : T → Prop) :
  (∀ data ip, P (record data ip).1) →
  ∀ fuel data ip size output l,
    Forall P output →
    Parser.record_loop record fuel data ip size output = Return l →
    Forall P l.
Proof.
  intros HP fuel. induction fuel as [|fuel IH]; intros data ip size output l
    Hout Hrun; simpl in Hrun; [discriminate|].
  destruct (ip <? size).
  - destruct (record data ip) as [r ip'] eqn:E.
    eapply IH; [|exact Hrun]. apply Forall_app. split; [exact Hout|].
    apply Forall_singleton. specialize (HP data ip). rewrite E in HP. exact HP.
  - injection Hrun as <-. exact Hout.
Qed.

(** No bag pushed by [parseIbag] has a property [presetModulatorIndex]. *)
Lemma parseIbag_bags fuel data chunk (bags : list Bag) :
  Parser.parseIbag fuel data chunk = Return bags →
  Forall (fun bag : Bag => bag !! "presetModulatorIndex"%string = None) bags.
Proof.
  unfold Parser.parseIbag, Parser.checked_loop. intros Hrun.
  destruct (bool_decide (Chunk.type chunk = "ibag"%string)); [|discriminate].
  refine (record_loop_Forall _ _ _ _ _ _ _ _ _ (Forall_nil_2 _) Hrun).
  apply instrumentBagRecord_properties.
Qed.

(** When no bag has the property the range start is read from, the start
    is [undefined] and the merge loop makes no pass. *)
Lemma createModGen_start_undefined (startProp endProp : string)
    (zoneModGen : list ModGenRecord) (zone : list Bag) (index : Z)
    (r : ModGen * list ModGenRecord) :
  Forall (fun bag : Bag => bag !! startProp = None) zone →
  Parser.createModGen startProp endProp zoneModGen zone index = Return r →
  r = (Parser.modgenInit, []).
Proof.
  intros Hzone Hrun. unfold Parser.createModGen in Hrun.
  destruct (lookupZ zone index) as [bag|] eqn:E; [|discriminate].
  assert (Hbag : bag !! startProp = None).
  { unfold lookupZ in E. destruct (index <? 0); [discriminate|].
    rewrite Forall_forall in Hzone. eapply Hzone, list_elem_of_lookup_2, E. }
  rewrite Hbag in Hrun. unfold Parser.createBagModGen_ in Hrun.
  simpl in Hrun. congruence.
Qed.

Lemma instrumentBags_modulators (this : Parser.state) (zone : list Bag) :
  Forall (fun bag : Bag => bag !! "presetModulatorIndex"%string = None) zone →
  ∀ n j zoneInfo out,
    Forall modulator_at_seed zoneInfo →
    Parser.instrumentBags this zone n j zoneInfo = Return out →
    Forall modulator_at_seed out.
Proof.
  intros Hzone n. induction n as [|n IH]; intros j zoneInfo out Hacc Hrun;
    simpl in Hrun.
  - injection Hrun as <-. exact Hacc.
  - unfold Parser.instrumentZoneInfo in Hrun.
    destruct (Parser.createInstrumentGenerator_ this zone j) as [g| |];
      simpl in Hrun; try discriminate.
    destruct (Parser.createInstrumentModulator_ this zone j) as [m| |] eqn:Em;
      simpl in Hrun; try discriminate.
    apply createModGen_start_undefined in Em; [|exact Hzone]. subst m.
    eapply IH; [|exact Hrun]. apply Forall_app. split; [exact Hacc|].
    apply Forall_singleton. split; reflexivity.
Qed.

Lemma createInstrument_loop_modulators (this : Parser.state) :
  Forall (fun bag : Bag => bag !! "presetModulatorIndex"%string = None)
         (Parser.instrumentZone this) →
  ∀ n i output out,
    Forall (fun ins => Forall modulator_at_seed (InstrumentInfo.info ins)) output →
    Parser.createInstrument_loop this n i output = Return out →
    Forall (fun ins => Forall modulator_at_seed (InstrumentInfo.info ins)) out.
Proof.
  intros Hzone n. induction n as [|n IH]; intros i output out Hacc Hrun;
    simpl in Hrun.
  - injection Hrun as <-. exact Hacc.
  - destruct (lookupZ (Parser.instrument this) i) as [ins|]; [|discriminate].
    match type of Hrun with
    | context [Parser.instrumentBags ?t ?z ?k ?j ?acc] =>
        destruct (Parser.instrumentBags t z k j acc) as [zoneInfo| |] eqn:Ez
    end; simpl in Hrun; try discriminate.
    eapply IH; [|exact Hrun]. apply Forall_app. split; [exact Hacc|].
    apply Forall_singleton. simpl.
    eapply instrumentBags_modulators; [exact Hzone|apply Forall_nil_2|exact Ez].
Qed.

(** C10.  When the instrument bags are those [parseIbag] decoded, every
    zone of every instrument [createInstrument] returns has the seed map
    as its modulator map and an empty modulator sequence, whatever the
    modulator records are. *)
Theorem instrument_modulators_never_merged (fuel : nat) (data : Uint8Array)
    (chunk : Chunk.t) (this : Parser.state) (out : list InstrumentInfo.t) :
  Parser.parseIbag fuel data chunk = Return (Parser.instrumentZone this) →
  Parser.createInstrument this = Return out →
  ∀ ins z, ins ∈ out → z ∈ InstrumentInfo.info ins →
    modulator z = {[ "unknown"%string := EList [];
                     "keyRange"%string := EValue (VRange (Some 0) (Some 127)) ]}
    ∧ modulatorSequence z = [].
Proof.
  intros Hbags Hrun ins z Hins Hz.
  apply parseIbag_bags in Hbags.
  unfold Parser.createInstrument in Hrun.
  apply (createInstrument_loop_modulators this Hbags) in Hrun;
    [|apply Forall_nil_2].
  rewrite Forall_forall in Hrun. specialize (Hrun ins Hins).
  rewrite Forall_forall in Hrun. exact (Hrun z Hz).
Qed.

Lemma instrument_modulators_never_merged_witness :
  let out := returned [] (Parser.createInstrument demoParser) in
  Parser.parseIbag 8 demo_ibag (wholeChunk "ibag" demo_ibag)
  = Return (Parser.instrumentZone demoParser)
  ∧ Parser.createInstrument demoParser = Return out
  ∧ length (Parser.instrumentZoneModulator demoParser) = 3%nat
  ∧ (InstrumentInfo.info <$> out) !! 0%nat
    ≫= (fun zones => Some (length zones)) = Some 2%nat
  ∧ ∀ ins z, ins ∈ out → z ∈ InstrumentInfo.info ins →
      modulator z = {[ "unknown"%string := EList [];
                       "keyRange"%string := EValue (VRange (Some 0) (Some 127)) ]}
      ∧ modulatorSequence z = [].
Proof.
  intros out.
  assert (Hbags : Parser.parseIbag 8 demo_ibag (wholeChunk "ibag" demo_ibag)
                  = Return (Parser.instrumentZone demoParser))
    by reflexivity.
  assert (Hout : Parser.createInstrument demoParser = Return out)
    by reflexivity.
  split; [exact Hbags|]. split; [exact Hout|].
  split; [vm_compute; reflexivity|]. split; [vm_compute; reflexivity|].
  exact (instrument_modulators_never_merged 8 demo_ibag
           (wholeChunk "ibag" demo_ibag) demoParser out Hbags Hout).
Defined.

(** ** Sample headers: loop points and resampling *)

Lemma adjustSampleData_loop_factor (fuel : nat) :
  ∀ threshold sample rate multiply sample' m,
    Parser.adjustSampleData_loop fuel threshold sample rate multiply
    = Return (sample', m) →
    1 ≤ multiply → 1 ≤ m.
Proof.
  induction fuel as [|fuel IH]; intros threshold sample rate multiply sample' m
    Hrun Hm; simpl in Hrun; [discriminate|].
  destruct (rate <? threshold).
  - eapply IH; [exact Hrun | lia].
  - injection Hrun as <- <-. exact Hm.
Qed.

Lemma adjustSampleData_at_threshold (fuel : nat) (threshold : Z)
    (sample sample' : Int16Array) (rate m : Z) :
  threshold ≤ rate →
  Parser.adjustSampleData fuel threshold sample rate = Return (sample', m) →
  m = 1.
Proof.
  intros Hge. unfold Parser.adjustSampleData.
  destruct fuel as [|fuel]; simpl; [discriminate|].
  destruct (rate <? threshold) eqn:E; [lia|]. congruence.
Qed.

Lemma sampleRecord_rebased fuel threshold off data ip sample h ip' :
  Parser.sampleRecord fuel threshold off data ip = Return (sample, h, ip') →
  rebased_then_scaled threshold data ip h ∧ ip' = ip + 46.
Proof.
  unfold Parser.sampleRecord, rebased_then_scaled.
  remember (Parser.rawSampleHeader data ip) as raw eqn:Hraw.
  cbv zeta. intros Hrun.
  apply bind_Return in Hrun as (s0 & _ & Hrun).
  apply bind_Return in Hrun as ([[[s1 rate] sl] el] & Hscale & Hrun).
  cbv beta iota in Hrun.
  assert (Hh : h = {| sampleName := sampleName raw; start := start raw;
                      end_ := end_ raw; startLoop := sl; endLoop := el;
                      sampleRate := rate; originalPitch := originalPitch raw;
                      pitchCorrection := pitchCorrection raw;
                      sampleLink := sampleLink raw;
                      sampleType := sampleType raw |}) by congruence.
  assert (Hip : ip' = ip + 46) by congruence.
  clear Hrun. subst h. split; [|exact Hip].
  cbn [start sampleRate startLoop endLoop].
  destruct (0 <? sampleRate raw) eqn:Epos.
  - apply bind_Return in Hscale as ([s2 m] & Ha & Hscale).
    cbn [fst snd] in Hscale.
    assert (rate = sampleRate raw * m) by congruence.
    assert (sl = (startLoop raw - start raw) * m) by congruence.
    assert (el = (endLoop raw - start raw) * m) by congruence.
    exists m. split; [|split].
    + apply adjustSampleData_loop_factor in Ha; [exact Ha | lia].
    + intros [Hle|Hge]; [lia|].
      eapply adjustSampleData_at_threshold; [exact Hge | exact Ha].
    + repeat split; assumption || reflexivity.
  - assert (rate = sampleRate raw) by congruence.
    assert (sl = startLoop raw - start raw) by congruence.
    assert (el = endLoop raw - start raw) by congruence.
    exists 1. repeat split; lia.
Qed.

Lemma parseShdr_loop_rebased (n : nat) :
  ∀ threshold off data ip0 ip size samples headers samples' headers',
    ip = ip0 + 46 * Z.of_nat (length headers) →
    (∀ (i : nat) h, headers !! i = Some h →
       rebased_then_scaled threshold data (ip0 + 46 * Z.of_nat i) h) →
    Parser.parseShdr_loop n threshold off data ip size samples headers
    = Return (samples', headers') →
    ∀ (i : nat) h, headers' !! i = Some h →
      rebased_then_scaled threshold data (ip0 + 46 * Z.of_nat i) h.
Proof.
  induction n as [|n IH]; intros threshold off data ip0 ip size samples headers
    samples' headers' Hip Hacc Hrun; [discriminate|].
  cbn [Parser.parseShdr_loop] in Hrun.
  destruct (ip <? size).
  - apply bind_Return in Hrun as ([[s h] ip'] & Hr & Hrun).
    cbv beta iota in Hrun.
    apply sampleRecord_rebased in Hr as [Hh Hip'].
    eapply (IH _ _ _ ip0); [| |exact Hrun].
    + rewrite length_app. simpl. lia.
    + intros i h' Hi. apply lookup_app_Some in Hi as [Hi|[Hlen Hi]].
      * apply Hacc, Hi.
      * apply list_lookup_singleton_Some in Hi as [Hi <-].
        replace (ip0 + 46 * Z.of_nat i) with ip by lia. exact Hh.
  - injection Hrun as <- <-. exact Hacc.
Qed.

(** C3.  The i-th header [parseShdr] exposes comes from the i-th 46-byte
    record of the chunk: its loop points had [start] subtracted first and
    were then multiplied by the resampling factor, the factor the rate is
    multiplied by (1 when the rate is 0 or not below the threshold). *)
Theorem loop_points_rebased_before_scaling (fuel : nat)
    (threshold samplingData_offset : Z) (data : Uint8Array) (chunk : Chunk.t)
    (samples : list Int16Array) (headers : list SampleHeader) :
  Parser.parseShdr fuel threshold samplingData_offset data chunk
  = Return (samples, headers) →
  ∀ (i : nat) (h : SampleHeader), headers !! i = Some h →
    let raw := Parser.rawSampleHeader data
                 (Chunk.offset chunk + 46 * Z.of_nat i) in
    ∃ m : Z,
      1 ≤ m
      ∧ (sampleRate raw ≤ 0 ∨ threshold ≤ sampleRate raw → m = 1)
      ∧ start h = start raw
      ∧ sampleRate h = sampleRate raw * m
      ∧ startLoop h = (startLoop raw - start raw) * m
      ∧ endLoop h = (endLoop raw - start raw) * m.
Proof.
  unfold Parser.parseShdr. intros Hrun.
  destruct (bool_decide (Chunk.type chunk = "shdr"%string)); [|discriminate].
  refine (parseShdr_loop_rebased fuel threshold samplingData_offset data
            (Chunk.offset chunk) (Chunk.offset chunk) _ [] [] samples headers
            _ _ Hrun).
  - simpl. lia.
  - intros i h Hi. discriminate Hi.
Qed.

Lemma loop_points_rebased_before_scaling_witness :
  let r := returned ([], [])
             (Parser.parseShdr 8 22050 0 demo_sample_buffer demo_shdr_chunk) in
  Parser.parseShdr 8 22050 0 demo_sample_buffer demo_shdr_chunk = Return r
  ∧ r.1 = [[30; 30; 40; 40; -50; -50; 60; 60]; []]
  ∧ (startLoop <$> r.2) = [2; 0]
  ∧ (endLoop <$> r.2) = [6; 0]
  ∧ (sampleRate <$> r.2) = [22050; 0]
  ∧ ∀ (i : nat) (h : SampleHeader), r.2 !! i = Some h →
      let raw := Parser.rawSampleHeader demo_sample_buffer
                   (Chunk.offset demo_shdr_chunk + 46 * Z.of_nat i) in
      ∃ m : Z,
        1 ≤ m
        ∧ (sampleRate raw ≤ 0 ∨ 22050 ≤ sampleRate raw → m = 1)
        ∧ start h = start raw
        ∧ sampleRate h = sampleRate raw * m
        ∧ startLoop h = (startLoop raw - start raw) * m
        ∧ endLoop h = (endLoop raw - start raw) * m.
Proof.
  intros r.
  assert (Hrun : Parser.parseShdr 8 22050 0 demo_sample_buffer demo_shdr_chunk
                 = Return r) by (vm_compute; reflexivity).
  split; [exact Hrun|]. do 4 (split; [vm_compute; reflexivity|]).
  exact (loop_points_rebased_before_scaling 8 22050 0 demo_sample_buffer
           demo_shdr_chunk r.1 r.2
           (eq_trans Hrun (f_equal Return (surjective_pairing r)))).
Defined.

Lemma duplicate_length (sample : Int16Array) :
  length (duplicate sample) = (2 * length sample)%nat.
Proof. induction sample as [|x rest IH]; simpl; [reflexivity | lia]. Qed.

Lemma duplicate_lookup (sample : Int16Array) (i : nat) (x : Z) :
  sample !! i = Some x →
  duplicate sample !! (2 * i)%nat = Some x
  ∧ duplicate sample !! (2 * i + 1)%nat = Some x.
Proof.
  revert i. induction sample as [|y rest IH]; intros i Hi; [discriminate|].
  destruct i as [|i]; simpl in Hi.
  - injection Hi as ->. split; reflexivity.
  - replace (2 * S i)%nat with (S (S (2 * i))) by lia.
    replace (S (S (2 * i)) + 1)%nat with (S (S (2 * i + 1))) by lia.
    simpl. apply IH, Hi.
Qed.

Lemma scaledHeader_1 (header : SampleHeader) : scaledHeader header 1 = header.
Proof.
  destruct header. unfold scaledHeader. simpl. rewrite !Z.mul_1_r. reflexivity.
Qed.

Lemma loadOne_scaled (fuel : nat) (off : Z) (data : Uint8Array)
    (header : SampleHeader) (sample sample' : Int16Array) (m : Z) :
  newInt16Array (subarray data (off + start header * 2) (off + end_ header * 2))
  = Return sample →
  0 < sampleRate header →
  Parse.adjustSampleData fuel sample (sampleRate header) = Return (sample', m) →
  Parse.loadOne fuel off data header = Return (sample', scaledHeader header m).
Proof.
  intros Hcut Hpos Hadj. unfold Parse.loadOne.
  rewrite (bind_Return_eq _ _ _ Hcut).
  destruct (0 <? sampleRate header) eqn:E; [|lia].
  rewrite (bind_Return_eq _ _ _ Hadj). reflexivity.
Qed.

(** C7.  For a header with rate 11025 the sample comes back with every
    element twice in a row (so twice as long), the rate is 22050 and both
    loop points are doubled; for a header whose rate is 22050 or more the
    sample and the header come back as they were.  The class [Parser]
    computes the same sample and factor when its threshold is 22050. *)
Theorem resample_below_and_at_threshold (fuel : nat) (off : Z)
    (data : Uint8Array) (header : SampleHeader) (sample : Int16Array) :
  newInt16Array (subarray data (off + start header * 2) (off + end_ header * 2))
  = Return sample →
  (sampleRate header = 11025 →
     Parse.loadOne (S (S fuel)) off data header
     = Return (duplicate sample,
               {| sampleName := sampleName header;
                  start := start header;
                  end_ := end_ header;
                  startLoop := startLoop header * 2;
                  endLoop := endLoop header * 2;
                  sampleRate := 22050;
                  originalPitch := originalPitch header;
                  pitchCorrection := pitchCorrection header;
                  sampleLink := sampleLink header;
                  sampleType := sampleType header |})
     ∧ length (duplicate sample) = (2 * length sample)%nat
     ∧ (∀ (i : nat) (x : Z), sample !! i = Some x →
          duplicate sample !! (2 * i)%nat = Some x
          ∧ duplicate sample !! (2 * i + 1)%nat = Some x)
     ∧ Parser.adjustSampleData (S (S fuel)) 22050 sample 11025
       = Return (duplicate sample, 2))
  ∧ (22050 ≤ sampleRate header →
     Parse.loadOne (S fuel) off data header = Return (sample, header)
     ∧ Parse.adjustSampleData (S fuel) sample (sampleRate header)
       = Return (sample, 1)
     ∧ Parser.adjustSampleData (S fuel) 22050 sample (sampleRate header)
       = Return (sample, 1)).
Proof.
  intros Hcut. split.
  - intros Hrate. split; [|split; [|split]].
    + rewrite (loadOne_scaled _ _ _ _ _ (duplicate sample) 2 Hcut);
        [| lia | rewrite Hrate; reflexivity].
      unfold scaledHeader. rewrite Hrate. reflexivity.
    + apply duplicate_length.
    + apply duplicate_lookup.
    + reflexivity.
  - intros Hrate.
    assert (Hts : Parse.adjustSampleData (S fuel) sample (sampleRate header)
                  = Return (sample, 1)).
    { unfold Parse.adjustSampleData. simpl.
      destruct (sampleRate header <? 22050) eqn:E; [lia | reflexivity]. }
    split; [|split].
    + rewrite (loadOne_scaled _ _ _ _ _ sample 1 Hcut); [| lia | exact Hts].
      rewrite scaledHeader_1. reflexivity.
    + exact Hts.
    + unfold Parser.adjustSampleData. simpl.
      destruct (sampleRate header <? 22050) eqn:E; [lia | reflexivity].
Qed.


Lemma resample_below_and_at_threshold_witness :
  let low := {| sampleName := "Tone"; start := 2; end_ := 6; startLoop := 1;
                endLoop := 3; sampleRate := 11025; originalPitch := Some 60;
                pitchCorrection := 0; sampleLink := 0; sampleType := 1 |} in
  let high := {| sampleName := "Tone"; start := 2; end_ := 6; startLoop := 1;
                 endLoop := 3; sampleRate := 22050; originalPitch := Some 60;
                 pitchCorrection := 0; sampleLink := 0; sampleType := 1 |} in
  newInt16Array (subarray demo_samples (0 + 2 * 2) (0 + 6 * 2))
  = Return [30; 40; -50; 60]
  ∧ Parse.loadOne 2 0 demo_samples low
    = Return ([30; 30; 40; 40; -50; -50; 60; 60],
              {| sampleName := "Tone"; start := 2; end_ := 6; startLoop := 2;
                 endLoop := 6; sampleRate := 22050; originalPitch := Some 60;
                 pitchCorrection := 0; sampleLink := 0; sampleType := 1 |})
  ∧ Parse.loadOne 1 0 demo_samples high = Return ([30; 40; -50; 60], high).
Proof.
  intros low high.
  assert (Hcut : newInt16Array (subarray demo_samples (0 + 2 * 2) (0 + 6 * 2))
                 = Return [30; 40; -50; 60]) by (vm_compute; reflexivity).
  split; [exact Hcut|]. split.
  - exact (proj1 (proj1 (resample_below_and_at_threshold
                           0 0 demo_samples low [30; 40; -50; 60] Hcut)
                        eq_refl)).
  - refine (proj1 (proj2 (resample_below_and_at_threshold
                            0 0 demo_samples high [30; 40; -50; 60] Hcut) _)).
    simpl. lia.
Defined.

(** ** The function [parse]: sentinels, structure, termination *)

Section ParseProperties.
Context `{Imports}.

Lemma parsePhdr_filtered fuel chunk data l :
  Parse.parsePhdr fuel chunk data = Return l →
  Forall (fun p => presetName p ≠ "EOP"%string) l.
Proof.
  unfold Parse.parsePhdr. intros Hrun.
  apply bind_Return in Hrun as (l0 & _ & Hrun). injection Hrun as <-.
  apply Forall_forall. intros p Hp. apply list_elem_of_filter in Hp. tauto.
Qed.

Lemma parseInst_filtered fuel chunk data l :
  Parse.parseInst fuel chunk data = Return l →
  Forall (fun i => instrumentName i ≠ "EOI"%string) l.
Proof.
  unfold Parse.parseInst. intros Hrun.
  apply bind_Return in Hrun as (l0 & _ & Hrun). injection Hrun as <-.
  apply Forall_forall. intros p Hp. apply list_elem_of_filter in Hp. tauto.
Qed.

Lemma parseShdr_filtered fuel chunk data l :
  Parse.parseShdr fuel chunk data = Return l →
  Forall (fun s => sampleName s ≠ "EOS"%string) l.
Proof.
  unfold Parse.parseShdr. intros Hrun.
  apply bind_Return in Hrun as (l0 & _ & Hrun). injection Hrun as <-.
  apply Forall_forall. intros p Hp. apply list_elem_of_filter in Hp. tauto.
Qed.

Lemma parsePdtaList_filtered fuel chunk data pdta :
  Parse.parsePdtaList fuel chunk data = Return pdta →
  Forall (fun p => presetName p ≠ "EOP"%string) (Parse.pdta_presetHeader pdta)
  ∧ Forall (fun i => instrumentName i ≠ "EOI"%string) (Parse.pdta_instrument pdta)
  ∧ Forall (fun s => sampleName s ≠ "EOS"%string) (Parse.pdta_sampleHeader pdta).
Proof.
  unfold Parse.parsePdtaList. intros Hrun.
  apply bind_Return in Hrun as (chunkList & _ & Hrun).
  destruct chunkList as [|c0 [|c1 [|c2 [|c3 [|c4 [|c5 [|c6 [|c7 [|c8 [|c9 rest]]]]]]]]]];
    try discriminate Hrun.
  apply bind_Return in Hrun as (ph & Hph & Hrun).
  apply bind_Return in Hrun as (pz & _ & Hrun).
  apply bind_Return in Hrun as (pm & _ & Hrun).
  apply bind_Return in Hrun as (pg & _ & Hrun).
  apply bind_Return in Hrun as (ih & Hih & Hrun).
  apply bind_Return in Hrun as (iz & _ & Hrun).
  apply bind_Return in Hrun as (im & _ & Hrun).
  apply bind_Return in Hrun as (ig & _ & Hrun).
  apply bind_Return in Hrun as (sh & Hsh & Hrun).
  injection Hrun as <-. simpl.
  split; [|split];
    [ eapply parsePhdr_filtered, Hph
    | eapply parseInst_filtered, Hih
    | eapply parseShdr_filtered, Hsh ].
Qed.

Lemma loadOne_name fuel off data header sample header' :
  Parse.loadOne fuel off data header = Return (sample, header') →
  sampleName header' = sampleName header.
Proof.
  unfold Parse.loadOne. intros Hrun.
  apply bind_Return in Hrun as (s0 & _ & Hrun).
  destruct (0 <? sampleRate header).
  - apply bind_Return in Hrun as (adjust & _ & Hrun).
    injection Hrun as <- <-. reflexivity.
  - injection Hrun as <- <-. reflexivity.
Qed.

Lemma loadSample_names (P : string → Prop) fuel off data :
  ∀ headers samples headers',
    Parse.loadSample fuel headers off data = Return (samples, headers') →
    Forall (fun s => P (sampleName s)) headers →
    Forall (fun s => P (sampleName s)) headers'.
Proof.
  induction headers as [|h rest IH]; intros samples headers' Hrun Hall;
    simpl in Hrun.
  - injection Hrun as <- <-. apply Forall_nil_2.
  - apply bind_Return in Hrun as ([s h'] & Hone & Hrun). cbv beta iota in Hrun.
    apply bind_Return in Hrun as ([ss hs'] & Hrest & Hrun). cbv beta iota in Hrun.
    injection Hrun as <- <-.
    apply Forall_cons in Hall as [Hh Hall]. apply Forall_cons. split.
    + rewrite (loadOne_name _ _ _ _ _ _ Hone). exact Hh.
    + eapply IH; [exact Hrest | exact Hall].
Qed.

(** C2.  In every parse result no preset header is named "EOP", no
    instrument is named "EOI" and no sample header is named "EOS": the
    record loops decode the terminal records and the filters drop them. *)
Theorem sentinels_not_returned (fuel : nat) (input : Uint8Array)
    (option : RiffParserOptions) (r : Parse.ParseResult) :
  Parse.parse fuel input option = Return r →
  (∀ p, p ∈ Parse.presetHeader r → presetName p ≠ "EOP"%string)
  ∧ (∀ i, i ∈ Parse.instrument r → instrumentName i ≠ "EOI"%string)
  ∧ (∀ s, s ∈ Parse.sampleHeader r → sampleName s ≠ "EOS"%string).
Proof.
  unfold Parse.parse. intros Hrun.
  apply bind_Return in Hrun as (chunkList & _ & Hrun).
  destruct chunkList as [|chunk [|c1 rest]]; try discriminate Hrun.
  apply bind_Return in Hrun as ([[info samplingData] pdta] & Hriff & Hrun).
  cbv beta iota in Hrun.
  apply bind_Return in Hrun as ([samples headers] & Hload & Hrun).
  cbv beta iota in Hrun. injection Hrun as <-. simpl.
  unfold Parse.parseRiffChunk in Hriff.
  apply bind_Return in Hriff as (chunks & _ & Hriff).
  destruct chunks as [|c0 [|c1 [|c2 [|c3 rest]]]]; try discriminate Hriff.
  apply bind_Return in Hriff as (info' & _ & Hriff).
  apply bind_Return in Hriff as (sd & _ & Hriff).
  apply bind_Return in Hriff as (pdta' & Hpdta & Hriff).
  injection Hriff as <- <- <-.
  apply parsePdtaList_filtered in Hpdta as (Hp & Hi & Hs).
  apply (loadSample_names (fun n => n ≠ "EOS"%string)) in Hload; [|exact Hs].
  rewrite Forall_forall in Hp. rewrite Forall_forall in Hi.
  rewrite Forall_forall in Hload. auto.
Qed.

(** C8.  When the walk of the [sfbk] payload gives a number of chunks
    other than three, [parse] throws "invalid sfbk structure" and returns
    no result, whatever the rest of the file holds. *)
Theorem wrong_sfbk_chunk_count_fails (fuel : nat) (input : Uint8Array)
    (option : RiffParserOptions) (chunk : Chunk.t) (chunkList : list Chunk.t) :
  parseRiff input 0 (Z.of_nat (length input)) option = inr [chunk] →
  Parse.getChunkList chunk input "RIFF" "sfbk" = Return chunkList →
  length chunkList ≠ 3%nat →
  Parse.parse fuel input option = Throw "invalid sfbk structure".
Proof.
  intros Hriff Hlist Hlen. unfold Parse.parse. rewrite Hriff.
  change (lift (inr [chunk])) with (Return [chunk]).
  rewrite (bind_Return_eq _ _ [chunk] eq_refl).
  unfold Parse.parseRiffChunk. rewrite Hlist.
  destruct chunkList as [|c0 [|c1 [|c2 [|c3 rest]]]]; try reflexivity.
  contradiction Hlen. reflexivity.
Qed.

End ParseProperties.

Lemma sentinels_not_returned_witness :
  let r := returned
             {| Parse.presetHeader := []; Parse.presetZone := [];
                Parse.presetZoneModulator := []; Parse.presetZoneGenerator := [];
                Parse.instrument := []; Parse.instrumentZone := [];
                Parse.instrumentZoneModulator := [];
                Parse.instrumentZoneGenerator := []; Parse.sampleHeader := [];
                Parse.sample := [];
                Parse.samplingData := wholeChunk "" [];
                Parse.info := ∅ |}
             (@Parse.parse Reference.imports 8 demoFile tt) in
  @Parse.parse Reference.imports 8 demoFile tt = Return r
  ∧ length (Parse.presetZone r) = 2%nat
  ∧ (presetName <$> Parse.presetHeader r) = ["Piano"%string]
  ∧ (instrumentName <$> Parse.instrument r) = ["Lead"%string]
  ∧ (sampleName <$> Parse.sampleHeader r) = ["Tone"%string]
  ∧ (∀ p, p ∈ Parse.presetHeader r → presetName p ≠ "EOP"%string)
  ∧ (∀ i, i ∈ Parse.instrument r → instrumentName i ≠ "EOI"%string)
  ∧ (∀ s, s ∈ Parse.sampleHeader r → sampleName s ≠ "EOS"%string).
Proof.
  intros r.
  assert (Hrun : @Parse.parse Reference.imports 8 demoFile tt = Return r)
    by (apply returned_eq; vm_compute; reflexivity).
  split; [exact Hrun|]. repeat (split; [vm_compute; reflexivity|]).
  exact (@sentinels_not_returned Reference.imports 8 demoFile tt r Hrun).
Defined.

Lemma wrong_sfbk_chunk_count_fails_witness :
  let chunk := {| Chunk.type := "RIFF"; Chunk.size := 66; Chunk.offset := 8 |} in
  let chunkList :=
    [ {| Chunk.type := "LIST"; Chunk.size := 18; Chunk.offset := 20 |};
      {| Chunk.type := "LIST"; Chunk.size := 28; Chunk.offset := 46 |} ] in
  Reference.riffWalker demoFile_without_pdta 0
    (Z.of_nat (length demoFile_without_pdta)) tt = inr [chunk]
  ∧ @Parse.getChunkList Reference.imports chunk demoFile_without_pdta
      "RIFF" "sfbk" = Return chunkList
  ∧ length chunkList ≠ 3%nat
  ∧ @Parse.parse Reference.imports 8 demoFile_without_pdta tt
    = Throw "invalid sfbk structure".
Proof.
  intros chunk chunkList.
  assert (Hriff : Reference.riffWalker demoFile_without_pdta 0
            (Z.of_nat (length demoFile_without_pdta)) tt = inr [chunk])
    by (vm_compute; reflexivity).
  assert (Hlist : @Parse.getChunkList Reference.imports chunk
            demoFile_without_pdta "RIFF" "sfbk" = Return chunkList)
    by (vm_compute; reflexivity).
  assert (Hlen : length chunkList ≠ 3%nat) by (simpl; lia).
  split; [exact Hriff|]. split; [exact Hlist|]. split; [exact Hlen|].
  exact (@wrong_sfbk_chunk_count_fails Reference.imports 8
           demoFile_without_pdta tt chunk chunkList Hriff Hlist Hlen).
Defined.

(** ** Termination *)

Lemma converges_const {A} (r : outcome A) :
  r ≠ Diverge → converges (fun _ => r).
Proof. intros Hr. exists O, r. split; [exact Hr | reflexivity]. Qed.

Lemma converges_bind {A B} (f : nat → outcome A) (k : nat → A → outcome B) :
  converges f →
  (∀ a, converges (fun fuel => k fuel a)) →
  converges (fun fuel => f fuel ≫= k fuel).
Proof.
  intros (N & r & Hr & Hf) Hk. destruct r as [a|e|].
  - destruct (Hk a) as (N' & r' & Hr' & Hk').
    exists (max N N'), r'. split; [exact Hr'|].
    intros fuel Hfuel. rewrite Hf by lia. simpl. apply Hk'. lia.
  - exists N, (Throw e). split; [discriminate|].
    intros fuel Hfuel. rewrite Hf by lia. reflexivity.
  - contradiction Hr. reflexivity.
Qed.

Section Termination.
Context `{Imports}.

(** The record loop of [parseChunk] settles when the decoder moves the
    stream forward: at most [size - ip] passes are made. *)
Lemma parseChunk_loop_converges {T} (factory : Factory T) (data : Uint8Array)
    (size : Z) :
  advances factory →
  ∀ (n : nat) (ip : Z) (result : list T),
    (Z.to_nat (size - ip) ≤ n)%nat →
    converges (fun fuel => Parse.parseChunk_loop factory fuel data ip size result).
Proof.
  intros Hadv n. induction n as [|n IH]; intros ip result Hn.
  - exists 1%nat, (Return result). split; [discriminate|].
    intros [|fuel] Hfuel; [lia|]. simpl.
    destruct (ip <? size) eqn:E; [lia | reflexivity].
  - destruct (ip <? size) eqn:E.
    + destruct (factory data ip) as [e|[r ip']] eqn:Ef.
      * exists 1%nat, (Throw e). split; [discriminate|].
        intros [|fuel] Hfuel; [lia|]. simpl. rewrite E, Ef. reflexivity.
      * pose proof (Hadv _ _ _ _ Ef) as Hlt.
        destruct (IH ip' (result ++ [r])) as (N & o & Ho & Hrun); [lia|].
        exists (S N), o. split; [exact Ho|].
        intros [|fuel] Hfuel; [lia|]. simpl. rewrite E, Ef. simpl.
        apply Hrun. lia.
    + exists 1%nat, (Return result). split; [discriminate|].
      intros [|fuel] Hfuel; [lia|]. simpl. rewrite E. reflexivity.
Qed.

Lemma parseChunk_converges {T} (factory : Factory T) (chunk : Chunk.t)
    (data : Uint8Array) (type : string) :
  advances factory →
  converges (fun fuel => Parse.parseChunk fuel chunk data type factory).
Proof.
  intros Hadv. unfold Parse.parseChunk.
  destruct (bool_decide (Chunk.type chunk ≠ type)).
  - apply converges_const. discriminate.
  - eapply parseChunk_loop_converges; [exact Hadv | reflexivity].
Qed.

Lemma filtered_converges {T} (P : T → Prop) `{∀ x, Decision (P x)}
    (run : nat → outcome (list T)) :
  converges run →
  converges (fun fuel => l ← run fuel; Return (filter P l)).
Proof.
  intros Hrun. apply (converges_bind run (fun _ l => Return (filter P l)));
    [exact Hrun|].
  intros l. apply converges_const. discriminate.
Qed.

(** The doubling loop settles for a positive rate: the rate grows at
    every pass, so at most [22050 - rate] passes are made. *)
Lemma adjustSampleData_loop_converges (n : nat) :
  ∀ (sample : Int16Array) (rate multiply : Z),
    0 < rate → (Z.to_nat (22050 - rate) ≤ n)%nat →
    converges (fun fuel => Parse.adjustSampleData_loop fuel sample rate multiply).
Proof.
  induction n as [|n IH]; intros sample rate multiply Hpos Hn.
  - exists 1%nat, (Return (sample, multiply)). split; [discriminate|].
    intros [|fuel] Hfuel; [lia|]. simpl.
    destruct (rate <? 22050) eqn:E; [lia | reflexivity].
  - destruct (rate <? 22050) eqn:E.
    + destruct (IH (duplicate sample) (rate * 2) (multiply * 2))
        as (N & o & Ho & Hrun); [lia | lia |].
      exists (S N), o. split; [exact Ho|].
      intros [|fuel] Hfuel; [lia|]. simpl. rewrite E. apply Hrun. lia.
    + exists 1%nat, (Return (sample, multiply)). split; [discriminate|].
      intros [|fuel] Hfuel; [lia|]. simpl. rewrite E. reflexivity.
Qed.

(** Without the guard the loop would not settle: for the rate 0 it runs
    out of any amount of fuel. *)
Lemma adjustSampleData_loop_rate_0 (fuel : nat) :
  ∀ (sample : Int16Array) (multiply : Z),
    Parse.adjustSampleData_loop fuel sample 0 multiply = Diverge.
Proof.
  induction fuel as [|fuel IH]; intros sample multiply; [reflexivity|].
  simpl. apply IH.
Qed.

Lemma loadOne_converges (off : Z) (data : Uint8Array) (header : SampleHeader) :
  converges (fun fuel => Parse.loadOne fuel off data header).
Proof.
  unfold Parse.loadOne.
  apply (converges_bind (fun _ => newInt16Array _)
           (fun fuel sample =>
              if 0 <? sampleRate header
              then adjust ← Parse.adjustSampleData fuel sample (sampleRate header);
                   Return (adjust.1, _)
              else Return (sample, header))).
  - apply converges_const. unfold newInt16Array.
    destruct (Z.odd _); discriminate.
  - intros sample. destruct (0 <? sampleRate header) eqn:E.
    + apply (converges_bind
               (fun fuel => Parse.adjustSampleData fuel sample (sampleRate header))
               (fun _ adjust => Return (adjust.1, _))).
      * eapply adjustSampleData_loop_converges; [lia | reflexivity].
      * intros adjust. apply converges_const. discriminate.
    + apply converges_const. discriminate.
Qed.

Lemma loadSample_converges (off : Z) (data : Uint8Array) :
  ∀ headers, converges (fun fuel => Parse.loadSample fuel headers off data).
Proof.
  induction headers as [|h rest IH]; simpl.
  - apply converges_const. discriminate.
  - apply (converges_bind (fun fuel => Parse.loadOne fuel off data h)
             (fun fuel x =>
                let '(sample, header') := x in
                '(samples, rest') ← Parse.loadSample fuel rest off data;
                Return (sample :: samples, header' :: rest'))).
    + apply loadOne_converges.
    + intros [s h'].
      apply (converges_bind (fun fuel => Parse.loadSample fuel rest off data)
               (fun _ x => let '(samples, rest') := x in
                           Return (s :: samples, h' :: rest'))).
      * exact IH.
      * intros [ss hs]. apply converges_const. discriminate.
Qed.

Lemma getChunkList_settled chunk data expectedType expectedSignature :
  Parse.getChunkList chunk data expectedType expectedSignature ≠ Diverge.
Proof.
  unfold Parse.getChunkList.
  destruct (bool_decide (Chunk.type chunk ≠ expectedType)); [discriminate|].
  destruct (Stream_readString 4 data (Chunk.offset chunk)) as [e|[sig ip]];
    simpl; [discriminate|].
  destruct (bool_decide (sig ≠ expectedSignature)); [discriminate|].
  destruct (parseRiff data ip (Chunk.size chunk - 4) emptyOptions);
    discriminate.
Qed.

Lemma bind_settled {A B} (m : outcome A) (k : A → outcome B) :
  m ≠ Diverge → (∀ a, k a ≠ Diverge) → m ≫= k ≠ Diverge.
Proof.
  intros Hm Hk. destruct m as [a| |]; simpl;
    [apply Hk | discriminate | contradiction Hm; reflexivity].
Qed.

Section WithAdvancingDecoders.
Hypothesis PresetHeader_advances : advances PresetHeader_parse.
Hypothesis PresetBag_advances : advances PresetBag_parse.
Hypothesis Instrument_advances : advances Instrument_parse.
Hypothesis InstrumentBag_advances : advances InstrumentBag_parse.
Hypothesis ModulatorList_advances : advances ModulatorList_parse.
Hypothesis GeneratorList_advances : advances GeneratorList_parse.
Hypothesis SampleHeader_advances : advances SampleHeader_parse.

Lemma parsePdtaList_converges (chunk : Chunk.t) (data : Uint8Array) :
  converges (fun fuel => Parse.parsePdtaList fuel chunk data).
Proof.
  unfold Parse.parsePdtaList.
  destruct (Parse.getChunkList chunk data "LIST" "pdta") as [chunkList|e|] eqn:E.
  2: { cbn [mbind outcome_bind]. apply converges_const. discriminate. }
  2: { exfalso. exact (getChunkList_settled _ _ _ _ E). }
  cbn [mbind outcome_bind].
  destruct chunkList as [|c0 [|c1 [|c2 [|c3 [|c4 [|c5 [|c6 [|c7 [|c8 [|c9 rest]]]]]]]]]];
    try (apply converges_const; discriminate).
  apply (converges_bind (fun fuel => Parse.parsePhdr fuel c0 data)).
  { apply filtered_converges, parseChunk_converges, PresetHeader_advances. }
  intros presetHeader.
  apply (converges_bind (fun fuel => Parse.parsePbag fuel c1 data)).
  { apply parseChunk_converges, PresetBag_advances. }
  intros presetZone.
  apply (converges_bind (fun fuel => Parse.parsePmod fuel c2 data)).
  { apply parseChunk_converges, ModulatorList_advances. }
  intros presetZoneModulator.
  apply (converges_bind (fun fuel => Parse.parsePgen fuel c3 data)).
  { apply parseChunk_converges, GeneratorList_advances. }
  intros presetZoneGenerator.
  apply (converges_bind (fun fuel => Parse.parseInst fuel c4 data)).
  { apply filtered_converges, parseChunk_converges, Instrument_advances. }
  intros instrument.
  apply (converges_bind (fun fuel => Parse.parseIbag fuel c5 data)).
  { apply parseChunk_converges, InstrumentBag_advances. }
  intros instrumentZone.
  apply (converges_bind (fun fuel => Parse.parseImod fuel c6 data)).
  { apply parseChunk_converges, ModulatorList_advances. }
  intros instrumentZoneModulator.
  apply (converges_bind (fun fuel => Parse.parseIgen fuel c7 data)).
  { apply parseChunk_converges, GeneratorList_advances. }
  intros instrumentZoneGenerator.
  apply (converges_bind (fun fuel => Parse.parseShdr fuel c8 data)).
  { apply filtered_converges, parseChunk_converges, SampleHeader_advances. }
  intros sampleHeader. apply converges_const. discriminate.
Qed.

Lemma parseRiffChunk_converges (chunk : Chunk.t) (data : Uint8Array) :
  converges (fun fuel => Parse.parseRiffChunk fuel chunk data).
Proof.
  unfold Parse.parseRiffChunk.
  destruct (Parse.getChunkList chunk data "RIFF" "sfbk") as [chunkList|e|] eqn:E.
  2: { cbn [mbind outcome_bind]. apply converges_const. discriminate. }
  2: { exfalso. exact (getChunkList_settled _ _ _ _ E). }
  cbn [mbind outcome_bind].
  destruct chunkList as [|c0 [|c1 [|c2 [|c3 rest]]]];
    try (apply converges_const; discriminate).
  destruct (Parse.parseInfoList c0 data) as [info|e|] eqn:Ei.
  2: { cbn [mbind outcome_bind]. apply converges_const. discriminate. }
  2: { exfalso. revert Ei. unfold Parse.parseInfoList.
       apply bind_settled; [apply getChunkList_settled | discriminate]. }
  cbn [mbind outcome_bind].
  destruct (Parse.parseSdtaList c1 data) as [samplingData|e|] eqn:Es.
  2: { cbn [mbind outcome_bind]. apply converges_const. discriminate. }
  2: { exfalso. revert Es. unfold Parse.parseSdtaList.
       apply bind_settled; [apply getChunkList_settled|].
       intros [|c [|c' l]]; discriminate. }
  cbn [mbind outcome_bind].
  apply (converges_bind (fun fuel => Parse.parsePdtaList fuel c2 data)
           (fun _ pdta => Return (info, samplingData, pdta))).
  { apply parsePdtaList_converges. }
  intros pdta. apply converges_const. discriminate.
Qed.

(** C9.  When each record decoder moves the stream forward, [parse]
    settles on every input: from some amount of fuel on, the record loops
    (bounded by the end of their chunk) and the doubling loop (entered
    only for a positive rate) have all finished, and the outcome is a
    result or a thrown error. *)
Theorem decode_terminates (input : Uint8Array) (option : RiffParserOptions) :
  converges (fun fuel => Parse.parse fuel input option).
Proof.
  unfold Parse.parse.
  destruct (parseRiff input 0 (Z.of_nat (length input)) option)
    as [e|chunkList]; cbn [lift mbind outcome_bind].
  { apply converges_const. discriminate. }
  destruct chunkList as [|chunk [|c1 rest]];
    try (apply converges_const; discriminate).
  apply (converges_bind (fun fuel => Parse.parseRiffChunk fuel chunk input)).
  { apply parseRiffChunk_converges. }
  intros [[info samplingData] pdta].
  apply (converges_bind
           (fun fuel => Parse.loadSample fuel (Parse.pdta_sampleHeader pdta)
                                         (Chunk.offset samplingData) input)).
  { apply loadSample_converges. }
  intros [sample sampleHeader]. apply converges_const. discriminate.
Qed.

End WithAdvancingDecoders.
End Termination.

Lemma fixedRecord_advances {T} (width : Z) (decode : Uint8Array → T) :
  0 < width → advances (Reference.fixedRecord width decode).
Proof.
  intros Hw data ip r ip'. unfold Reference.fixedRecord, Reference.readBytes.
  destruct ((0 <=? ip) && (ip + width <=? Z.of_nat (length data)));
    [|discriminate].
  intros Heq. injection Heq as _ <-. lia.
Qed.

Lemma decode_terminates_witness :
  advances (@PresetHeader_parse Reference.imports)
  ∧ advances (@PresetBag_parse Reference.imports)
  ∧ advances (@Instrument_parse Reference.imports)
  ∧ advances (@InstrumentBag_parse Reference.imports)
  ∧ advances (@ModulatorList_parse Reference.imports)
  ∧ advances (@GeneratorList_parse Reference.imports)
  ∧ advances (@SampleHeader_parse Reference.imports)
  ∧ isDiverge (@Parse.parse Reference.imports 2 demoFile tt) = true
  ∧ isReturn (@Parse.parse Reference.imports 4 demoFile tt) = true
  ∧ converges (fun fuel => @Parse.parse Reference.imports fuel demoFile tt).
Proof.
  assert (Hph : advances (@PresetHeader_parse Reference.imports))
    by (apply fixedRecord_advances; lia).
  assert (Hpb : advances (@PresetBag_parse Reference.imports))
    by (apply fixedRecord_advances; lia).
  assert (Hin : advances (@Instrument_parse Reference.imports))
    by (apply fixedRecord_advances; lia).
  assert (Hib : advances (@InstrumentBag_parse Reference.imports))
    by (apply fixedRecord_advances; lia).
  assert (Hmo : advances (@ModulatorList_parse Reference.imports))
    by (apply fixedRecord_advances; lia).
  assert (Hge : advances (@GeneratorList_parse Reference.imports))
    by (apply fixedRecord_advances; lia).
  assert (Hsh : advances (@SampleHeader_parse Reference.imports))
    by (apply fixedRecord_advances; lia).
  split; [exact Hph|]. split; [exact Hpb|]. split; [exact Hin|].
  split; [exact Hib|]. split; [exact Hmo|]. split; [exact Hge|].
  split; [exact Hsh|].
  split; [vm_compute; reflexivity|]. split; [vm_compute; reflexivity|].
  exact (@decode_terminates Reference.imports Hph Hpb Hin Hib Hmo Hge Hsh
           demoFile tt).
Defined.

(** ** Termination of the loops of the class [Parser] *)

(** A record loop whose body moves [ip] by a fixed positive width settles:
    it makes at most [size - ip] passes. *)
Lemma record_loop_converges {T} (record : Uint8Array → Z → T * Z) (w : Z)
    (data : Uint8Array) (size : Z) :
  0 < w → (∀ d ip, (record d ip).2 = ip + w) →
  ∀ (n : nat) (ip : Z) (output : list T),
    (Z.to_nat (size - ip) ≤ n)%nat →
    converges (fun fuel => Parser.record_loop record fuel data ip size output).
Proof.
  intros Hw Hstep n. induction n as [|n IH]; intros ip output Hn.
  - exists 1%nat, (Return output). split; [discriminate|].
    intros [|fuel] Hfuel; [lia|]. simpl.
    destruct (ip <? size) eqn:E; [lia | reflexivity].
  - destruct (ip <? size) eqn:E.
    + pose proof (Hstep data ip) as Hip.
      destruct (record data ip) as [r ip'] eqn:Er. simpl in Hip. subst ip'.
      destruct (IH (ip + w) (output ++ [r])) as (N & o & Ho & Hrun); [lia|].
      exists (S N), o. split; [exact Ho|].
      intros [|fuel] Hfuel; [lia|]. simpl. rewrite E, Er. apply Hrun. lia.
    + exists 1%nat, (Return output). split; [discriminate|].
      intros [|fuel] Hfuel; [lia|]. simpl. rewrite E. reflexivity.
Qed.

Lemma checked_loop_converges {T} (expected : string)
    (record : Uint8Array → Z → T * Z) (w : Z) (data : Uint8Array)
    (chunk : Chunk.t) :
  0 < w → (∀ d ip, (record d ip).2 = ip + w) →
  converges (fun fuel => Parser.checked_loop expected record fuel data chunk).
Proof.
  intros Hw Hstep. unfold Parser.checked_loop.
  destruct (bool_decide (Chunk.type chunk = expected)).
  - eapply record_loop_converges; [exact Hw | exact Hstep | reflexivity].
  - apply converges_const. discriminate.
Qed.

Lemma generatorRecord_step (data : Uint8Array) (ip : Z) :
  (Parser.generatorRecord data ip).2 = ip + 4.
Proof.
  unfold Parser.generatorRecord.
  destruct (Parser.tableAt _) as [k|]; [destruct (Parser.isRangeKey k)|];
    simpl; lia.
Qed.

Lemma modulatorRecord_step (data : Uint8Array) (ip : Z) :
  (Parser.modulatorRecord data ip).2 = ip + 10.
Proof.
  unfold Parser.modulatorRecord.
  destruct (Parser.tableAt _) as [k|]; [destruct (Parser.isRangeKey k)|];
    simpl; lia.
Qed.

Lemma parseGenerator_converges (data : Uint8Array) (chunk : Chunk.t) :
  converges (fun fuel => Parser.parseGenerator fuel data chunk).
Proof.
  unfold Parser.parseGenerator.
  generalize (@nil ModGenRecord) as output.
  generalize (Chunk.offset chunk) at 1 as ip.
  generalize (Chunk.offset chunk + Chunk.size chunk) as size.
  intros size ip. remember (Z.to_nat (size - ip)) as n eqn:Hn.
  assert (Hle : (Z.to_nat (size - ip) ≤ n)%nat) by lia. clear Hn.
  revert ip Hle. induction n as [|n IH]; intros ip Hle output.
  - exists 1%nat, (Return output). split; [discriminate|].
    intros [|fuel] Hfuel; [lia|]. simpl.
    destruct (ip <? size) eqn:E; [lia | reflexivity].
  - destruct (ip <? size) eqn:E.
    + pose proof (generatorRecord_step data ip) as Hip.
      destruct (Parser.generatorRecord data ip) as [r ip'] eqn:Er.
      simpl in Hip. subst ip'.
      destruct (IH (ip + 4) ltac:(lia) (output ++ [r])) as (N & o & Ho & Hrun).
      exists (S N), o. split; [exact Ho|].
      intros [|fuel] Hfuel; [lia|]. simpl. rewrite E, Er. apply Hrun. lia.
    + exists 1%nat, (Return output). split; [discriminate|].
      intros [|fuel] Hfuel; [lia|]. simpl. rewrite E. reflexivity.
Qed.

Lemma parseModulator_converges (data : Uint8Array) (chunk : Chunk.t) :
  converges (fun fuel => Parser.parseModulator fuel data chunk).
Proof.
  unfold Parser.parseModulator.
  generalize (@nil ModGenRecord) as output.
  generalize (Chunk.offset chunk) at 1 as ip.
  generalize (Chunk.offset chunk + Chunk.size chunk) as size.
  intros size ip. remember (Z.to_nat (size - ip)) as n eqn:Hn.
  assert (Hle : (Z.to_nat (size - ip) ≤ n)%nat) by lia. clear Hn.
  revert ip Hle. induction n as [|n IH]; intros ip Hle output.
  - exists 1%nat, (Return output). split; [discriminate|].
    intros [|fuel] Hfuel; [lia|]. simpl.
    destruct (ip <? size) eqn:E; [lia | reflexivity].
  - destruct (ip <? size) eqn:E.
    + pose proof (modulatorRecord_step data ip) as Hip.
      destruct (Parser.modulatorRecord data ip) as [r ip'] eqn:Er.
      simpl in Hip. subst ip'.
      destruct (IH (ip + 10) ltac:(lia) (output ++ [r])) as (N & o & Ho & Hrun).
      exists (S N), o. split; [exact Ho|].
      intros [|fuel] Hfuel; [lia|]. simpl. rewrite E, Er. apply Hrun. lia.
    + exists 1%nat, (Return output). split; [discriminate|].
      intros [|fuel] Hfuel; [lia|]. simpl. rewrite E. reflexivity.
Qed.

(** The doubling loop of the class settles for a positive rate, for any
    threshold. *)
Lemma Parser_adjustSampleData_loop_converges (threshold : Z) (n : nat) :
  ∀ (sample : Int16Array) (rate multiply : Z),
    0 < rate → (Z.to_nat (threshold - rate) ≤ n)%nat →
    converges (fun fuel =>
      Parser.adjustSampleData_loop fuel threshold sample rate multiply).
Proof.
  induction n as [|n IH]; intros sample rate multiply Hpos Hn.
  - exists 1%nat, (Return (sample, multiply)). split; [discriminate|].
    intros [|fuel] Hfuel; [lia|]. simpl.
    destruct (rate <? threshold) eqn:E; [lia | reflexivity].
  - destruct (rate <? threshold) eqn:E.
    + destruct (IH (duplicate sample) (rate * 2) (multiply * 2))
        as (N & o & Ho & Hrun); [lia | lia |].
      exists (S N), o. split; [exact Ho|].
      intros [|fuel] Hfuel; [lia|]. simpl. rewrite E. apply Hrun. lia.
    + exists 1%nat, (Return (sample, multiply)). split; [discriminate|].
      intros [|fuel] Hfuel; [lia|]. simpl. rewrite E. reflexivity.
Qed.

Lemma sampleRecord_converges (threshold off : Z) (data : Uint8Array) (ip : Z) :
  converges (fun fuel => Parser.sampleRecord fuel threshold off data ip).
Proof.
  unfold Parser.sampleRecord. cbv zeta.
  remember (Parser.rawSampleHeader data ip) as raw eqn:Hraw.
  apply (converges_bind (fun _ => newInt16Array _)).
  { apply converges_const. unfold newInt16Array. destruct (Z.odd _); discriminate. }
  intros sample.
  apply (converges_bind
           (fun fuel =>
              if 0 <? sampleRate raw
              then adjust ← Parser.adjustSampleData fuel threshold sample
                              (sampleRate raw);
                   Return (adjust.1, sampleRate raw * adjust.2,
                           (startLoop raw - start raw) * adjust.2,
                           (endLoop raw - start raw) * adjust.2)
              else Return (sample, sampleRate raw, startLoop raw - start raw,
                           endLoop raw - start raw))).
  - destruct (0 <? sampleRate raw) eqn:E.
    + apply (converges_bind
               (fun fuel => Parser.adjustSampleData fuel threshold sample
                              (sampleRate raw))
               (fun _ adjust =>
                  Return (adjust.1, sampleRate raw * adjust.2,
                          (startLoop raw - start raw) * adjust.2,
                          (endLoop raw - start raw) * adjust.2))).
      * eapply Parser_adjustSampleData_loop_converges; [lia | reflexivity].
      * intros adjust. apply converges_const. discriminate.
    + apply converges_const. discriminate.
  - intros [[[s rate] sl] el]. apply converges_const. discriminate.
Qed.

Lemma parseShdr_loop_converges (threshold off : Z) (data : Uint8Array)
    (size : Z) (n : nat) :
  ∀ (ip : Z) (samples : list Int16Array) (headers : list SampleHeader),
    (Z.to_nat (size - ip) ≤ n)%nat →
    converges (fun fuel =>
      Parser.parseShdr_loop fuel threshold off data ip size samples headers).
Proof.
  induction n as [|n IH]; intros ip samples headers Hn.
  - exists 1%nat, (Return (samples, headers)). split; [discriminate|].
    intros [|fuel] Hfuel; [lia|]. cbn [Parser.parseShdr_loop].
    destruct (ip <? size) eqn:E; [lia | reflexivity].
  - destruct (ip <? size) eqn:E.
    + destruct (sampleRecord_converges threshold off data ip)
        as (N1 & r & Hr & Hrec).
      destruct r as [[[s h] ip']|e|].
      * assert (Hip : ip' = ip + 46).
        { specialize (Hrec N1 (le_n _)).
          apply sampleRecord_rebased in Hrec. tauto. }
        subst ip'.
        destruct (IH (ip + 46) (samples ++ [s]) (headers ++ [h]))
          as (N2 & o & Ho & Hrun); [lia|].
        exists (S (max N1 N2)), o. split; [exact Ho|].
        intros [|fuel] Hfuel; [lia|]. cbn [Parser.parseShdr_loop].
        rewrite E, Hrec by lia. cbn [mbind outcome_bind]. apply Hrun. lia.
      * exists (S N1), (Throw e). split; [discriminate|].
        intros [|fuel] Hfuel; [lia|]. cbn [Parser.parseShdr_loop].
        rewrite E, Hrec by lia. reflexivity.
      * contradiction Hr. reflexivity.
    + exists 1%nat, (Return (samples, headers)). split; [discriminate|].
      intros [|fuel] Hfuel; [lia|]. cbn [Parser.parseShdr_loop].
      rewrite E. reflexivity.
Qed.

(** X24.  Every record loop of the class settles on every buffer and
    chunk, for every threshold and sample offset: from some amount of fuel
    on, each of the nine chunk parsers gives one outcome, a result or a
    thrown error. *)
Lemma Parser_loops_converge (threshold off : Z) (data : Uint8Array)
    (chunk : Chunk.t) :
  converges (fun fuel => Parser.parsePhdr fuel data chunk)
  ∧ converges (fun fuel => Parser.parsePbag fuel data chunk)
  ∧ converges (fun fuel => Parser.parsePmod fuel data chunk)
  ∧ converges (fun fuel => Parser.parsePgen fuel data chunk)
  ∧ converges (fun fuel => Parser.parseInst fuel data chunk)
  ∧ converges (fun fuel => Parser.parseIbag fuel data chunk)
  ∧ converges (fun fuel => Parser.parseImod fuel data chunk)
  ∧ converges (fun fuel => Parser.parseIgen fuel data chunk)
  ∧ converges (fun fuel => Parser.parseShdr fuel threshold off data chunk).
Proof.
  repeat match goal with |- _ ∧ _ => split end.
  - apply (checked_loop_converges _ _ 38); [lia | reflexivity].
  - apply (checked_loop_converges _ _ 4); [lia | reflexivity].
  - unfold Parser.parsePmod. destruct (bool_decide _);
      [apply parseModulator_converges | apply converges_const; discriminate].
  - unfold Parser.parsePgen. destruct (bool_decide _);
      [apply parseGenerator_converges | apply converges_const; discriminate].
  - apply (checked_loop_converges _ _ 22); [lia | reflexivity].
  - apply (checked_loop_converges _ _ 4); [lia | reflexivity].
  - unfold Parser.parseImod. destruct (bool_decide _);
      [apply parseModulator_converges | apply converges_const; discriminate].
  - unfold Parser.parseIgen. destruct (bool_decide _);
      [apply parseGenerator_converges | apply converges_const; discriminate].
  - unfold Parser.parseShdr. destruct (bool_decide _);
      [| apply converges_const; discriminate].
    eapply parseShdr_loop_converges. reflexivity.
Qed.

(** The class keeps the terminal record of [phdr]: both records of the
    chunk are in [this.presetHeader], their names with the padding. *)
Lemma Parser_parsePhdr_keeps_terminal_record :
  (String.length ∘ presetName)
  <$> returned [] (Parser.parsePhdr 4 demo_phdr (wholeChunk "phdr" demo_phdr))
  = [20%nat; 20%nat]
  ∧ (fun p => substring 0 3 (presetName p))
    <$> returned [] (Parser.parsePhdr 4 demo_phdr (wholeChunk "phdr" demo_phdr))
    = ["Pia"; "EOP"]%string.
Proof. split; vm_compute; reflexivity. Qed.

(** * Further properties of the code *)

(** ** Field readers of the class [Parser] *)

Lemma lor_low_bits (k a x : Z) :
  0 ≤ k → 0 ≤ a < 2 ^ k → Z.lor a (2 ^ k * x) = a + 2 ^ k * x.
Proof.
  intros Hk Ha.
  assert (Hdisj : Z.land (Z.shiftl x k) a = 0).
  { apply Z.bits_inj'. intros n Hn. rewrite Z.land_spec, Z.bits_0.
    destruct (Z.lt_ge_cases n k).
    - rewrite Z.shiftl_spec_low by lia. reflexivity.
    - destruct (Z.eq_dec a 0) as [->|Hne];
        [rewrite Z.bits_0; apply andb_false_r|].
      rewrite (Z.bits_above_log2 a n); [apply andb_false_r | lia |].
      apply Z.log2_lt_pow2; [lia|].
      apply Z.lt_le_trans with (2 ^ k); [lia|].
      apply Z.pow_le_mono_r; lia. }
  replace (2 ^ k * x) with (Z.shiftl x k) by (rewrite Z.shiftl_mul_pow2; lia).
  rewrite Z.lor_comm, Z.add_comm. symmetry.
  rewrite <- Z.lxor_lor by exact Hdisj.
  apply Z.add_nocarry_lxor, Hdisj.
Qed.

Lemma bitor_low_bits (k a x : Z) :
  0 ≤ k ≤ 31 → 0 ≤ a < 2 ^ k →
  - 2 ^ 31 ≤ 2 ^ k * x → a + 2 ^ k * x < 2 ^ 31 →
  JS.bitor a (2 ^ k * x) = a + 2 ^ k * x.
Proof.
  intros Hk Ha Hlo Hhi. unfold JS.bitor.
  assert (0 < 2 ^ k) by (apply Z.pow_pos_nonneg; lia).
  assert (2 ^ k ≤ 2 ^ 31) by (apply Z.pow_le_mono_r; lia).
  rewrite (ToInt32_small a), (ToInt32_small (2 ^ k * x)) by lia.
  rewrite lor_low_bits by lia. apply ToInt32_small. lia.
Qed.

Lemma shl_byte_facts (b : Z) :
  0 ≤ b < 256 →
  JS.shl b 0 = b ∧ JS.shl b 16 = 2 ^ 16 * b ∧ JS.shl b 24 = 2 ^ 24 * signed8 b
  ∧ JS.sar (JS.shl b 24) 24 = signed8 b.
Proof.
  intros Hb.
  pose proof (all_below 256
    (fun b => (JS.shl b 0 =? b) && (JS.shl b 16 =? 2 ^ 16 * b)
              && (JS.shl b 24 =? 2 ^ 24 * signed8 b)
              && (JS.sar (JS.shl b 24) 24 =? signed8 b))
    ltac:(vm_compute; reflexivity) b Hb) as Hall.
  cbv beta in Hall. rewrite !andb_true_iff in Hall.
  destruct Hall as [[[H0 H16] H24] H8]. repeat split; lia.
Qed.

Lemma signed8_range (b : Z) : 0 ≤ b < 256 → -128 ≤ signed8 b ≤ 127.
Proof. intros Hb. unfold signed8. destruct (b <? 2 ^ 7) eqn:E; lia. Qed.

Lemma signed16_range (z : Z) : 0 ≤ z < 65536 → -32768 ≤ signed16 z ≤ 32767.
Proof. intros Hz. unfold signed16. destruct (z <? 2 ^ 15) eqn:E; lia. Qed.

(** X1.  The amount expression [lo | (hi << 8) << 16 >> 16] is the signed
    16-bit little-endian value of the two bytes at [ip]: it lies between
    -32768 and 32767, and a byte beyond the end of the buffer counts as
    0. *)
Theorem readAmount_signed_little_endian (data : Uint8Array) (ip : Z) :
  Parser.readAmount data ip
  = signed16 (byteAt data ip + 256 * byteAt data (ip + 1))
  ∧ -32768 ≤ Parser.readAmount data ip ≤ 32767
  ∧ (0 ≤ Parser.readAmount data ip ↔ byteAt data (ip + 1) < 128).
Proof.
  unfold byteAt. rewrite readAmount_value.
  pose proof (at_range data ip) as H0. pose proof (at_range data (ip + 1)) as H1.
  split; [reflexivity|]. split; [apply signed16_range; lia|].
  unfold signed16.
  destruct (_ <? 2 ^ 15) eqn:E; lia.
Qed.

(** X2.  The four-byte fields ([start], [end], the loop points, the rate,
    [library], [genre], [morphology]) are read as unsigned 32-bit
    little-endian numbers: the [>>> 0] undoes the sign the 32-bit [|]
    gives a value whose top byte is 128 or more. *)
Theorem readDword_unsigned_little_endian (data : Uint8Array) (ip : Z) :
  Parser.readDword data ip
  = byteAt data ip + 2 ^ 8 * byteAt data (ip + 1)
    + 2 ^ 16 * byteAt data (ip + 2) + 2 ^ 24 * byteAt data (ip + 3)
  ∧ 0 ≤ Parser.readDword data ip < 2 ^ 32.
Proof.
  unfold byteAt, Parser.readDword.
  pose proof (at_range data ip) as H0. pose proof (at_range data (ip + 1)) as H1.
  pose proof (at_range data (ip + 2)) as H2.
  pose proof (at_range data (ip + 3)) as H3.
  set (b0 := JS.num (at_ data ip)) in *.
  set (b1 := JS.num (at_ data (ip + 1))) in *.
  set (b2 := JS.num (at_ data (ip + 2))) in *.
  set (b3 := JS.num (at_ data (ip + 3))) in *.
  destruct (shl_byte_facts b0 H0) as (E0 & _).
  destruct (shl_byte_facts b2 H2) as (_ & E2 & _).
  destruct (shl_byte_facts b3 H3) as (_ & _ & E3 & _).
  pose proof (signed8_range b3 H3) as Hs.
  rewrite E0, E2, E3, (shl8_byte b1 H1).
  change 256 with (2 ^ 8).
  rewrite (bitor_low_bits 8 b0 b1) by lia.
  rewrite (bitor_low_bits 16 (b0 + 2 ^ 8 * b1) b2) by lia.
  rewrite (bitor_low_bits 24 (b0 + 2 ^ 8 * b1 + 2 ^ 16 * b2) (signed8 b3)) by lia.
  unfold JS.ushr0, JS.ToUint32.
  assert (Hmod : (b0 + 2 ^ 8 * b1 + 2 ^ 16 * b2 + 2 ^ 24 * signed8 b3) mod 2 ^ 32
                 = b0 + 2 ^ 8 * b1 + 2 ^ 16 * b2 + 2 ^ 24 * b3).
  { unfold signed8. destruct (b3 <? 2 ^ 7) eqn:E.
    - apply Z.mod_small. lia.
    - symmetry. apply Z.mod_unique with (q := -1); lia. }
  rewrite Hmod. split; [reflexivity | lia].
Qed.

(** X3.  [pitchCorrection], read as [(b << 24) >> 24], is the byte at
    offset 41 of the record as a signed 8-bit number, between -128 and
    127. *)
Theorem pitchCorrection_signed_byte (data : Uint8Array) (ip : Z) :
  pitchCorrection (Parser.rawSampleHeader data ip)
  = signed8 (byteAt data (ip + 41))
  ∧ -128 ≤ pitchCorrection (Parser.rawSampleHeader data ip) ≤ 127.
Proof.
  unfold byteAt. cbn [Parser.rawSampleHeader pitchCorrection].
  pose proof (at_range data (ip + 41)) as Hb.
  destruct (shl_byte_facts _ Hb) as (_ & _ & _ & E). rewrite E.
  split; [reflexivity | apply signed8_range, Hb].
Qed.

(** ** The record loops of the class [Parser] *)

Lemma recordCount_done (w ip size : Z) :
  0 < w → size ≤ ip → recordCount w ip size = O.
Proof.
  intros Hw Hle. unfold recordCount.
  assert ((size - ip + (w - 1)) / w < 1)
    by (apply Z.div_lt_upper_bound; lia).
  lia.
Qed.

Lemma recordCount_step (w ip size : Z) :
  0 < w → ip < size →
  recordCount w ip size = S (recordCount w (ip + w) size).
Proof.
  intros Hw Hlt. unfold recordCount.
  replace (size - ip + (w - 1)) with (size - (ip + w) + (w - 1) + 1 * w) by lia.
  rewrite Z.div_add by lia.
  assert (0 ≤ (size - (ip + w) + (w - 1)) / w)
    by (apply Z.div_pos; lia).
  lia.
Qed.

Lemma recordCount_from_0 (w size : Z) (offset : Z) :
  recordCount w offset (offset + size) = Z.to_nat ((size + (w - 1)) / w).
Proof. unfold recordCount. do 2 f_equal. lia. Qed.

(** The records a loop of fixed width pushes, from [ip]. *)
Lemma record_loop_run {T} (record : Uint8Array → Z → T * Z) (w : Z)
    (data : Uint8Array) (size : Z) :
  0 < w → (∀ d ip, (record d ip).2 = ip + w) →
  ∀ (n : nat) (ip : Z) (output : list T) (extra : nat),
    recordCount w ip size = n →
    Parser.record_loop record (S n + extra) data ip size output
    = Return (output
              ++ ((fun k : nat => (record data (ip + w * Z.of_nat k)).1)
                  <$> seq 0 n)).
Proof.
  intros Hw Hstep n. induction n as [|n IH]; intros ip output extra Hn.
  - simpl. destruct (ip <? size) eqn:E.
    + rewrite recordCount_step in Hn by lia. discriminate.
    + rewrite app_nil_r. reflexivity.
  - destruct (ip <? size) eqn:E.
    2: { rewrite recordCount_done in Hn by lia. discriminate. }
    rewrite recordCount_step in Hn by lia. injection Hn as Hn.
    change (S (S n) + extra)%nat with (S (S n + extra)).
    cbn [Parser.record_loop]. rewrite E.
    pose proof (Hstep data ip) as Hip.
    destruct (record data ip) as [r ip'] eqn:Er. simpl in Hip. subst ip'.
    rewrite (IH (ip + w) (output ++ [r]) extra Hn).
    rewrite <- app_assoc. do 2 f_equal.
    cbn [app seq fmap list_fmap]. rewrite <- fmap_S_seq, <- list_fmap_compose.
    f_equal.
    + replace (ip + w * Z.of_nat 0) with ip by lia. rewrite Er. reflexivity.
    + apply list_fmap_ext. intros i k _. simpl. do 2 f_equal. lia.
Qed.

Lemma parseGenerator_loop_record_loop (fuel : nat) :
  ∀ data ip size output,
    Parser.parseGenerator_loop fuel data ip size output
    = Parser.record_loop Parser.generatorRecord fuel data ip size output.
Proof.
  induction fuel as [|fuel IH]; intros data ip size output; [reflexivity|].
  simpl. destruct (ip <? size); [|reflexivity].
  destruct (Parser.generatorRecord data ip) as [r ip']. apply IH.
Qed.

Lemma parseModulator_loop_record_loop (fuel : nat) :
  ∀ data ip size output,
    Parser.parseModulator_loop fuel data ip size output
    = Parser.record_loop Parser.modulatorRecord fuel data ip size output.
Proof.
  induction fuel as [|fuel IH]; intros data ip size output; [reflexivity|].
  simpl. destruct (ip <? size); [|reflexivity].
  destruct (Parser.modulatorRecord data ip) as [r ip']. apply IH.
Qed.

(** The destination and amount of a modulator record are decoded as a
    generator record two bytes further on. *)
Lemma modulatorRecord_generatorRecord (data : Uint8Array) (ip : Z) :
  (Parser.modulatorRecord data ip).1 = (Parser.generatorRecord data (ip + 2)).1.
Proof.
  unfold Parser.modulatorRecord, Parser.generatorRecord. cbv zeta.
  destruct (Parser.tableAt _) as [k|]; [destruct (Parser.isRangeKey k)|];
    reflexivity.
Qed.

(** X4.  [parseGenerator] decodes one record per 4 bytes of the chunk, in
    order, the k-th from offset + 4k; the number of records is the chunk
    size divided by 4 and rounded up, so a chunk whose size is not a
    multiple of 4 gives a last record read past the end of the chunk.
    That many passes and one more test are all the loop needs. *)
Theorem parseGenerator_records (data : Uint8Array) (chunk : Chunk.t)
    (extra : nat) :
  let n := Z.to_nat ((Chunk.size chunk + 3) / 4) in
  Parser.parseGenerator (S n + extra) data chunk
  = Return ((fun k : nat =>
               (Parser.generatorRecord data
                  (Chunk.offset chunk + 4 * Z.of_nat k)).1) <$> seq 0 n).
Proof.
  intros n. unfold Parser.parseGenerator.
  rewrite parseGenerator_loop_record_loop.
  rewrite (record_loop_run _ 4 data _ ltac:(lia) generatorRecord_step n);
    [reflexivity|].
  apply (recordCount_from_0 4).
Qed.

(** X5.  [parseModulator] decodes one record per 10 bytes of the chunk
    (the count rounded up); of each record only bytes 2..5 are used, the
    destination and its amount, decoded exactly as [parseGenerator]
    decodes a record: the source operator, the amount source and the
    transform have no effect on the result. *)
Theorem parseModulator_records (data : Uint8Array) (chunk : Chunk.t)
    (extra : nat) :
  let n := Z.to_nat ((Chunk.size chunk + 9) / 10) in
  Parser.parseModulator (S n + extra) data chunk
  = Return ((fun k : nat =>
               (Parser.generatorRecord data
                  (Chunk.offset chunk + 10 * Z.of_nat k + 2)).1) <$> seq 0 n).
Proof.
  intros n. unfold Parser.parseModulator.
  rewrite parseModulator_loop_record_loop.
  rewrite (record_loop_run _ 10 data _ ltac:(lia) modulatorRecord_step n).
  - simpl. f_equal. apply list_fmap_ext. intros i k _.
    apply modulatorRecord_generatorRecord.
  - apply (recordCount_from_0 10).
Qed.

Lemma checked_loop_run {T} (expected : string)
    (record : Uint8Array → Z → T * Z) (w : Z) (data : Uint8Array)
    (chunk : Chunk.t) (extra : nat) :
  0 < w → (∀ d ip, (record d ip).2 = ip + w) →
  let n := Z.to_nat ((Chunk.size chunk + (w - 1)) / w) in
  Parser.checked_loop expected record (S n + extra) data chunk
  = if bool_decide (Chunk.type chunk = expected)
    then Return ((fun k : nat =>
                    (record data (Chunk.offset chunk + w * Z.of_nat k)).1)
                 <$> seq 0 n)
    else Throw ("invalid chunk type:" ++ Chunk.type chunk).
Proof.
  intros Hw Hstep n. unfold Parser.checked_loop.
  destruct (bool_decide (Chunk.type chunk = expected)); [|reflexivity].
  rewrite (record_loop_run record w data _ Hw Hstep n); [reflexivity|].
  apply (recordCount_from_0 w).
Qed.

(** X6.  [parsePhdr], [parsePbag], [parseInst] and [parseIbag] throw
    "invalid chunk type:" followed by the type when the chunk is not
    theirs; otherwise they return one object per 38, 4, 22 and 4 bytes of
    the chunk (rounded up), in order, the terminal record included. *)
Theorem Parser_header_loops (data : Uint8Array) (chunk : Chunk.t)
    (extra : nat) :
  let count (w : Z) := Z.to_nat ((Chunk.size chunk + (w - 1)) / w) in
  let at_stride {T} (record : Uint8Array → Z → T * Z) (w : Z) :=
    (fun k : nat => (record data (Chunk.offset chunk + w * Z.of_nat k)).1)
    <$> seq 0 (count w) in
  let wrong : string := ("invalid chunk type:" ++ Chunk.type chunk)%string in
  Parser.parsePhdr (S (count 38) + extra) data chunk
  = (if bool_decide (Chunk.type chunk = "phdr"%string)
     then Return (at_stride Parser.presetHeaderRecord 38) else Throw wrong)
  ∧ Parser.parsePbag (S (count 4) + extra) data chunk
    = (if bool_decide (Chunk.type chunk = "pbag"%string)
       then Return (at_stride Parser.presetBagRecord 4) else Throw wrong)
  ∧ Parser.parseInst (S (count 22) + extra) data chunk
    = (if bool_decide (Chunk.type chunk = "inst"%string)
       then Return (at_stride Parser.instrumentRecord 22) else Throw wrong)
  ∧ Parser.parseIbag (S (count 4) + extra) data chunk
    = (if bool_decide (Chunk.type chunk = "ibag"%string)
       then Return (at_stride Parser.instrumentBagRecord 4) else Throw wrong).
Proof.
  intros count at_stride wrong. repeat split.
  - apply (checked_loop_run "phdr" _ 38); [lia | reflexivity].
  - apply (checked_loop_run "pbag" _ 4); [lia | reflexivity].
  - apply (checked_loop_run "inst" _ 22); [lia | reflexivity].
  - apply (checked_loop_run "ibag" _ 4); [lia | reflexivity].
Qed.

(** ** The merge of [createBagModGen_] *)

Lemma lookupZ_Some {A} (l : list A) (i : Z) (x : A) :
  lookupZ l i = Some x ↔ 0 ≤ i ∧ l !! Z.to_nat i = Some x.
Proof.
  unfold lookupZ. destruct (i <? 0) eqn:E; split.
  - discriminate.
  - intros [Hi _]. lia.
  - intros H. split; [lia | exact H].
  - intros [_ H]. exact H.
Qed.

Lemma lookupZ_None {A} (l : list A) (i : Z) :
  lookupZ l i = None ↔ i < 0 ∨ Z.of_nat (length l) ≤ i.
Proof.
  unfold lookupZ. destruct (i <? 0) eqn:E.
  - split; [intros _; left; lia | reflexivity].
  - rewrite lookup_ge_None. lia.
Qed.

(** Inside the list, the loop is the merge of the slice it walks. *)
Lemma createBagModGen_loop_mergeList (n : nat) :
  ∀ (i : Z) (zoneModGen : list ModGenRecord) (modgen : ModGen)
    (modgenInfo : list ModGenRecord),
    0 ≤ i → i + Z.of_nat n ≤ Z.of_nat (length zoneModGen) →
    Parser.createBagModGen_loop n i zoneModGen modgen modgenInfo
    = (m ← mergeList modgen (take n (drop (Z.to_nat i) zoneModGen));
       Return (m, modgenInfo ++ take n (drop (Z.to_nat i) zoneModGen))).
Proof.
  induction n as [|n IH]; intros i zoneModGen modgen modgenInfo Hi Hn.
  - simpl. rewrite app_nil_r. reflexivity.
  - destruct (zoneModGen !! Z.to_nat i) as [info|] eqn:E.
    2: { apply lookup_ge_None in E. lia. }
    assert (Hz : lookupZ zoneModGen i = Some info)
      by (apply lookupZ_Some; split; [lia | exact E]).
    cbn [Parser.createBagModGen_loop]. rewrite Hz.
    rewrite (drop_S _ _ _ E). cbn [take mergeList].
    destruct (Parser.mergeInfo modgen info) as [modgen'| |];
      cbn [mbind outcome_bind]; try reflexivity.
    rewrite IH by lia.
    replace (Z.to_nat (i + 1)) with (S (Z.to_nat i)) by lia.
    destruct (mergeList modgen' _); cbn [mbind outcome_bind]; try reflexivity.
    rewrite <- app_assoc. reflexivity.
Qed.

(** What the merge of a list leaves in the map. *)
Lemma mergeList_result (records : list ModGenRecord) :
  ∀ (modgen : ModGen) (l0 : list GenValue),
    modgen !! "unknown"%string = Some (EList l0) →
    ∃ m : ModGen,
      mergeList modgen records = Return m
      ∧ m !! "unknown"%string = Some (EList (l0 ++ unknownValues records))
      ∧ ∀ key : string, key ≠ "unknown"%string →
          m !! key = match lastStored key records with
                     | Some r => Some (EValue (value r))
                     | None => modgen !! key
                     end.
Proof.
  induction records as [|r rest IH]; intros modgen l0 Hl0.
  - exists modgen. split; [reflexivity|]. split.
    + rewrite app_nil_r. exact Hl0.
    + intros key _. reflexivity.
  - cbn [mergeList].
    destruct (decide (type r = Some "unknown"%string)) as [Hty|Hty].
    + rewrite (mergeInfo_unknown_label _ _ l0 Hty Hl0). cbn [mbind outcome_bind].
      destruct (IH (<["unknown"%string := EList (l0 ++ [value r])]> modgen)
                   (l0 ++ [value r])) as (m & Hrun & Hu & Hk).
      { apply lookup_insert_eq. }
      exists m. split; [exact Hrun|]. split.
      * rewrite Hu. unfold unknownValues.
        rewrite filter_cons_True by exact Hty.
        rewrite fmap_cons, <- app_assoc. reflexivity.
      * intros key Hkey. rewrite (Hk key Hkey). unfold lastStored.
        rewrite filter_cons_False by tauto.
        rewrite lookup_insert_ne by congruence. reflexivity.
    + rewrite (mergeInfo_other _ _ Hty). cbn [mbind outcome_bind].
      pose proof (propertyKey_not_unknown _ Hty) as Hpk.
      destruct (IH (<[Parser.propertyKey (type r) := EValue (value r)]> modgen)
                   l0) as (m & Hrun & Hu & Hk).
      { rewrite lookup_insert_ne by exact Hpk. exact Hl0. }
      exists m. split; [exact Hrun|]. split.
      * rewrite Hu. unfold unknownValues.
        rewrite filter_cons_False by exact Hty. reflexivity.
      * intros key Hkey. rewrite (Hk key Hkey). unfold lastStored.
        destruct (decide (Parser.propertyKey (type r) = key)) as [Heq|Hne].
        -- rewrite filter_cons_True by tauto. rewrite last_cons.
           destruct (last (filter _ rest)); [reflexivity|].
           rewrite <- Heq, lookup_insert_eq. reflexivity.
        -- rewrite filter_cons_False by tauto.
           rewrite lookup_insert_ne by exact Hne. reflexivity.
Qed.

(** The merge over a range inside the flat list. *)
Lemma createBagModGen_inside (zone : list Bag) (s e : Z)
    (zoneModGen : list ModGenRecord) :
  0 ≤ s → e ≤ Z.of_nat (length zoneModGen) →
  ∃ m : ModGen,
    Parser.createBagModGen_ zone (Some s) (Some e) zoneModGen
    = Return (m, slice zoneModGen s e)
    ∧ m !! "unknown"%string
      = Some (EList (unknownValues (slice zoneModGen s e)))
    ∧ ∀ key : string, key ≠ "unknown"%string →
        m !! key = match lastStored key (slice zoneModGen s e) with
                   | Some r => Some (EValue (value r))
                   | None => if bool_decide (key = "keyRange"%string)
                             then Some (EValue (VRange (Some 0) (Some 127)))
                             else None
                   end.
Proof.
  intros Hs He. unfold Parser.createBagModGen_, Parser.passes, slice.
  change (JS.num (Some s)) with s.
  destruct (mergeList_result (take (Z.to_nat (e - s))
                                   (drop (Z.to_nat s) zoneModGen))
              Parser.modgenInit []) as (m & Hrun & Hu & Hk).
  { apply lookup_insert_eq. }
  exists m. split; [|split].
  - destruct (Z_le_gt_dec e s) as [Hle|Hgt].
    + replace (Z.to_nat (e - s)) with O in * by lia.
      cbn [take mergeList] in Hrun. injection Hrun as <-. reflexivity.
    + rewrite createBagModGen_loop_mergeList by lia.
      rewrite Hrun. reflexivity.
  - exact Hu.
  - intros key Hkey. rewrite (Hk key Hkey).
    destruct (lastStored key _); [reflexivity|].
    unfold Parser.modgenInit. rewrite lookup_insert_ne by congruence.
    case_bool_decide as Hkr.
    + subst key. apply lookup_singleton_eq.
    + apply lookup_singleton_ne. congruence.
Qed.

(** X7.  For an index range inside the flat list, [createBagModGen_]
    returns; the record sequence is the slice [s, e) of the list; the
    ['unknown'] list holds the values of the records of the slice whose
    type is "unknown", in order; and every other key holds the value of
    the last record of the slice stored under it (a record without a type
    is stored under "undefined"), or what the seed map holds there when
    there is none: the default key range, and nothing else. *)
Theorem createBagModGen_in_range (zone : list Bag) (s e : Z)
    (zoneModGen : list ModGenRecord) :
  0 ≤ s → e ≤ Z.of_nat (length zoneModGen) →
  ∃ m : ModGen,
    Parser.createBagModGen_ zone (Some s) (Some e) zoneModGen
    = Return (m, slice zoneModGen s e)
    ∧ m !! "unknown"%string
      = Some (EList (unknownValues (slice zoneModGen s e)))
    ∧ ∀ key : string, key ≠ "unknown"%string →
        m !! key = match lastStored key (slice zoneModGen s e) with
                   | Some r => Some (EValue (value r))
                   | None => if bool_decide (key = "keyRange"%string)
                             then Some (EValue (VRange (Some 0) (Some 127)))
                             else None
                   end.
Proof. exact (createBagModGen_inside zone s e zoneModGen). Qed.

Lemma createBagModGen_in_range_witness :
  let records := returned [] (Parser.parseIgen 8 demo_igen
                                (wholeChunk "igen" demo_igen)) in
  0 ≤ 0 ∧ 2 ≤ Z.of_nat (length records)
  ∧ (type <$> slice records 0 2) = [Some "keyRange"; Some "sampleID"]%string
  ∧ ∃ m : ModGen,
      Parser.createBagModGen_ [] (Some 0) (Some 2) records
      = Return (m, slice records 0 2)
      ∧ m !! "unknown"%string = Some (EList (unknownValues (slice records 0 2)))
      ∧ ∀ key : string, key ≠ "unknown"%string →
          m !! key = match lastStored key (slice records 0 2) with
                     | Some r => Some (EValue (value r))
                     | None => if bool_decide (key = "keyRange"%string)
                               then Some (EValue (VRange (Some 0) (Some 127)))
                               else None
                     end.
Proof.
  intros records.
  assert (H0 : 0 ≤ 0) by lia.
  assert (H2 : 2 ≤ Z.of_nat (length records)) by (vm_compute; discriminate).
  split; [exact H0|]. split; [exact H2|]. split; [vm_compute; reflexivity|].
  exact (createBagModGen_in_range [] 0 2 records H0 H2).
Defined.

Lemma mergeInfo_keeps_list (modgen : ModGen) (info : ModGenRecord)
    (l0 : list GenValue) :
  modgen !! "unknown"%string = Some (EList l0) →
  ∃ (m : ModGen) (l1 : list GenValue),
    Parser.mergeInfo modgen info = Return m
    ∧ m !! "unknown"%string = Some (EList l1).
Proof.
  intros Hl0. destruct (decide (type info = Some "unknown"%string)) as [Hty|Hty].
  - rewrite (mergeInfo_unknown_label _ _ l0 Hty Hl0).
    eexists _, _. split; [reflexivity | apply lookup_insert_eq].
  - rewrite (mergeInfo_other _ _ Hty).
    eexists _, l0. split; [reflexivity|].
    rewrite lookup_insert_ne by (apply propertyKey_not_unknown, Hty).
    exact Hl0.
Qed.

Lemma createBagModGen_loop_overrun (n : nat) :
  ∀ (i : Z) (zoneModGen : list ModGenRecord) (modgen : ModGen)
    (modgenInfo : list ModGenRecord) (l0 : list GenValue),
    modgen !! "unknown"%string = Some (EList l0) →
    (0 < n)%nat →
    i < 0 ∨ Z.of_nat (length zoneModGen) < i + Z.of_nat n →
    ∃ msg, Parser.createBagModGen_loop n i zoneModGen modgen modgenInfo
           = Throw msg.
Proof.
  induction n as [|n IH]; intros i zoneModGen modgen modgenInfo l0 Hl0 Hn Hout;
    [lia|].
  cbn [Parser.createBagModGen_loop].
  destruct (lookupZ zoneModGen i) as [info|] eqn:E; [|eauto].
  apply lookupZ_Some in E as [Hi E]. apply lookup_lt_Some in E.
  destruct (mergeInfo_keeps_list modgen info l0 Hl0) as (m & l1 & Hm & Hl1).
  rewrite Hm. cbn [mbind outcome_bind].
  eapply IH; [exact Hl1 | lia | lia].
Qed.

(** The merge over a range that leaves the flat list. *)
Lemma createBagModGen_outside (zone : list Bag) (s e : Z)
    (zoneModGen : list ModGenRecord) :
  s < e → s < 0 ∨ Z.of_nat (length zoneModGen) < e →
  ∃ msg, Parser.createBagModGen_ zone (Some s) (Some e) zoneModGen = Throw msg.
Proof.
  intros Hlt Hout. unfold Parser.createBagModGen_, Parser.passes.
  change (JS.num (Some s)) with s.
  eapply createBagModGen_loop_overrun;
    [apply lookup_insert_eq | lia | lia].
Qed.

(** X8.  A non-empty index range that starts below 0 or ends beyond the
    flat list makes [createBagModGen_] throw (the record read there is
    [undefined]); no partial map is returned. *)
Theorem createBagModGen_out_of_range (zone : list Bag) (s e : Z)
    (zoneModGen : list ModGenRecord) :
  s < e → s < 0 ∨ Z.of_nat (length zoneModGen) < e →
  ∃ msg, Parser.createBagModGen_ zone (Some s) (Some e) zoneModGen = Throw msg.
Proof. exact (createBagModGen_outside zone s e zoneModGen). Qed.

Lemma createBagModGen_out_of_range_witness :
  let records := returned [] (Parser.parseIgen 8 demo_igen
                                (wholeChunk "igen" demo_igen)) in
  1 < 4 ∧ (1 < 0 ∨ Z.of_nat (length records) < 4)
  ∧ ∃ msg, Parser.createBagModGen_ [] (Some 1) (Some 4) records = Throw msg.
Proof.
  intros records.
  assert (H1 : 1 < 4) by lia.
  assert (H2 : 1 < 0 ∨ Z.of_nat (length records) < 4)
    by (right; vm_compute; reflexivity).
  split; [exact H1|]. split; [exact H2|].
  exact (createBagModGen_out_of_range [] 1 4 records H1 H2).
Defined.

Lemma parsed_zone_unknown_list_empty_witness :
  let data := bytesOf [61; 0; 1; 2; 62; 0; 3; 4] in
  let chunk := wholeChunk "igen" data in
  let records := returned [] (Parser.parseGenerator 3 data chunk) in
  let r := returned (∅, []) (Parser.createBagModGen_ [] (Some 0) (Some 2) records) in
  Parser.parseGenerator 3 data chunk = Return records
  ∧ Parser.createBagModGen_ [] (Some 0) (Some 2) records = Return (r.1, r.2)
  ∧ (type <$> records) = [None; None]
  ∧ r.1 !! "unknown"%string = Some (EList []).
Proof.
  intros data chunk records r.
  assert (Hparse : Parser.parseGenerator 3 data chunk = Return records)
    by (vm_compute; reflexivity).
  assert (Hrun : Parser.createBagModGen_ [] (Some 0) (Some 2) records
                 = Return (r.1, r.2)).
  { rewrite <- surjective_pairing. apply returned_eq. vm_compute. reflexivity. }
  split; [exact Hparse|]. split; [exact Hrun|]. split; [vm_compute; reflexivity|].
  exact (parsed_zone_unknown_list_empty 3 data chunk records [] (Some 0)
           (Some 2) r.1 r.2 Hparse Hrun).
Defined.

(** ** Zones of instruments and presets *)

Lemma createBagModGen_returned_sequence (zone : list Bag) (s e : Z)
    (zoneModGen : list ModGenRecord) (m : ModGen) (seq : list ModGenRecord) :
  Parser.createBagModGen_ zone (Some s) (Some e) zoneModGen = Return (m, seq) →
  seq = slice zoneModGen s e.
Proof.
  intros Hrun. destruct (Z_le_gt_dec e s) as [Hle|Hgt].
  - unfold Parser.createBagModGen_, Parser.passes in Hrun. unfold slice.
    replace (Z.to_nat (e - s)) with O in * by lia.
    simpl in Hrun. injection Hrun as _ <-. reflexivity.
  - destruct (Z_lt_le_dec s 0) as [Hneg|Hpos].
    { destruct (createBagModGen_outside zone s e zoneModGen) as [msg H];
        [lia | left; lia | congruence]. }
    destruct (Z_lt_le_dec (Z.of_nat (length zoneModGen)) e) as [Hbig|Hin].
    { destruct (createBagModGen_outside zone s e zoneModGen) as [msg H];
        [lia | right; lia | congruence]. }
    destruct (createBagModGen_inside zone s e zoneModGen Hpos Hin)
      as (m' & H & _). congruence.
Qed.

(** X9.  The generator records of a zone are those of the flat list from
    the bag's own index up to the index of the next bag, or up to the end
    of the list for the last bag; the same holds for the generators and
    the modulators of a preset zone.  (Only instrument modulators read the
    start from a property the bag does not have.) *)
Theorem zone_record_ranges (this : Parser.state) (zone : list Bag) (j : Z)
    (bag : Bag) (m : ModGen) (seq : list ModGenRecord) :
  lookupZ zone j = Some bag →
  (∀ s, bag !! "instrumentGeneratorIndex"%string = Some s →
     Parser.createInstrumentGenerator_ this zone j = Return (m, seq) →
     seq = match rangeEnd "instrumentGeneratorIndex"
                   (Parser.instrumentZoneGenerator this) zone j with
           | Some e => slice (Parser.instrumentZoneGenerator this) s e
           | None => []
           end)
  ∧ (∀ s, bag !! "presetGeneratorIndex"%string = Some s →
     Parser.createPresetGenerator_ this zone j = Return (m, seq) →
     seq = match rangeEnd "presetGeneratorIndex"
                   (Parser.presetZoneGenerator this) zone j with
           | Some e => slice (Parser.presetZoneGenerator this) s e
           | None => []
           end)
  ∧ (∀ s, bag !! "presetModulatorIndex"%string = Some s →
     Parser.createPresetModulator_ this zone j = Return (m, seq) →
     seq = match rangeEnd "presetModulatorIndex"
                   (Parser.presetZoneModulator this) zone j with
           | Some e => slice (Parser.presetZoneModulator this) s e
           | None => []
           end).
Proof.
  intros Hbag.
  assert (Hgen : ∀ prop zoneModGen s,
            bag !! prop = Some s →
            Parser.createModGen prop prop zoneModGen zone j = Return (m, seq) →
            seq = match rangeEnd prop zoneModGen zone j with
                  | Some e => slice zoneModGen s e
                  | None => []
                  end).
  { intros prop zoneModGen s Hs Hrun. unfold Parser.createModGen in Hrun.
    rewrite Hbag, Hs in Hrun. unfold rangeEnd.
    destruct (match lookupZ zone (j + 1) with
              | Some next => next !! prop
              | None => Some (Z.of_nat (length zoneModGen))
              end) as [e|].
    - eapply createBagModGen_returned_sequence, Hrun.
    - unfold Parser.createBagModGen_, Parser.passes in Hrun.
      cbn [Parser.createBagModGen_loop] in Hrun. congruence. }
  split; [|split]; intros s Hs Hrun; eapply Hgen; eassumption.
Qed.

Lemma zone_record_ranges_witness :
  let bag : Bag := {[ "instrumentGeneratorIndex"%string := 0;
                      "instrumentModulatorIndex"%string := 0 ]} in
  let r := returned (∅, [])
             (Parser.createInstrumentGenerator_ demoParser
                (Parser.instrumentZone demoParser) 0) in
  lookupZ (Parser.instrumentZone demoParser) 0 = Some bag
  ∧ bag !! "instrumentGeneratorIndex"%string = Some 0
  ∧ Parser.createInstrumentGenerator_ demoParser
      (Parser.instrumentZone demoParser) 0 = Return (r.1, r.2)
  ∧ (type <$> r.2) = [Some "keyRange"%string]
  ∧ r.2 = match rangeEnd "instrumentGeneratorIndex"
                  (Parser.instrumentZoneGenerator demoParser)
                  (Parser.instrumentZone demoParser) 0 with
          | Some e => slice (Parser.instrumentZoneGenerator demoParser) 0 e
          | None => []
          end.
Proof.
  intros bag r.
  assert (Hbag : lookupZ (Parser.instrumentZone demoParser) 0 = Some bag)
    by reflexivity.
  assert (Hs : bag !! "instrumentGeneratorIndex"%string = Some 0)
    by reflexivity.
  assert (Hrun : Parser.createInstrumentGenerator_ demoParser
                   (Parser.instrumentZone demoParser) 0 = Return (r.1, r.2)).
  { rewrite <- surjective_pairing. apply returned_eq. vm_compute. reflexivity. }
  split; [exact Hbag|]. split; [exact Hs|]. split; [exact Hrun|].
  split; [vm_compute; reflexivity|].
  exact (proj1 (zone_record_ranges demoParser _ 0 bag r.1 r.2 Hbag) 0 Hs Hrun).
Defined.

Lemma instrumentBags_length (this : Parser.state) (zone : list Bag) (n : nat) :
  ∀ j zoneInfo out,
    Parser.instrumentBags this zone n j zoneInfo = Return out →
    length out = (length zoneInfo + n)%nat.
Proof.
  induction n as [|n IH]; intros j zoneInfo out Hrun;
    cbn [Parser.instrumentBags] in Hrun.
  - injection Hrun as <-. lia.
  - apply bind_Return in Hrun as (z & _ & Hrun).
    apply IH in Hrun. rewrite length_app in Hrun. simpl in Hrun. lia.
Qed.

Lemma createInstrument_loop_shape (this : Parser.state) (n : nat) :
  ∀ (i : nat) (output out : list InstrumentInfo.t),
    Parser.createInstrument_loop this n (Z.of_nat i) output = Return out →
    ∃ new, out = output ++ new ∧ length new = n
      ∧ ∀ (k : nat) o, new !! k = Some o →
          ∃ ins, Parser.instrument this !! (i + k)%nat = Some ins
            ∧ InstrumentInfo.name o = instrumentName ins
            ∧ length (InstrumentInfo.info o)
              = Z.to_nat (Parser.bagIndexEnd instrumentBagIndex
                            (Parser.instrument this)
                            (Parser.instrumentZone this) (Z.of_nat (i + k))
                          - instrumentBagIndex ins).
Proof.
  induction n as [|n IH]; intros i output out Hrun;
    cbn [Parser.createInstrument_loop] in Hrun.
  - injection Hrun as <-. exists []. rewrite app_nil_r.
    split; [reflexivity|]. split; [reflexivity|]. intros k o Hk. discriminate.
  - destruct (lookupZ (Parser.instrument this) (Z.of_nat i)) as [ins|] eqn:E;
      [|discriminate].
    apply lookupZ_Some in E as [_ E]. rewrite Nat2Z.id in E.
    apply bind_Return in Hrun as (zoneInfo & Hz & Hrun).
    apply instrumentBags_length in Hz. simpl in Hz.
    replace (Z.of_nat i + 1) with (Z.of_nat (S i)) in Hrun by lia.
    apply IH in Hrun as (new & -> & Hlen & Hnew).
    eexists (_ :: new). split; [rewrite <- app_assoc; reflexivity|].
    split; [simpl; lia|].
    intros [|k] o Hk.
    + injection Hk as <-. exists ins. rewrite Nat.add_0_r.
      split; [exact E|]. split; [reflexivity|]. exact Hz.
    + replace (i + S k)%nat with (S i + k)%nat by lia. apply Hnew, Hk.
Qed.

(** X10.  [createInstrument] returns one entry per instrument header, in
    order and with the terminal header included; entry i carries the name
    of header i and as many zones as there are bags from the header's bag
    index up to the bag index of the next header (up to the number of bags
    for the last header; none when that end is not larger). *)
Theorem createInstrument_shape (this : Parser.state)
    (out : list InstrumentInfo.t) :
  Parser.createInstrument this = Return out →
  length out = length (Parser.instrument this)
  ∧ ∀ (i : nat) o, out !! i = Some o →
      ∃ ins, Parser.instrument this !! i = Some ins
        ∧ InstrumentInfo.name o = instrumentName ins
        ∧ length (InstrumentInfo.info o)
          = Z.to_nat (Parser.bagIndexEnd instrumentBagIndex
                        (Parser.instrument this)
                        (Parser.instrumentZone this) (Z.of_nat i)
                      - instrumentBagIndex ins).
Proof.
  unfold Parser.createInstrument. intros Hrun.
  apply (createInstrument_loop_shape this _ 0) in Hrun
    as (new & -> & Hlen & Hnew).
  split; [exact Hlen|]. intros i o Hi. exact (Hnew i o Hi).
Qed.

Lemma createInstrument_shape_witness :
  let out := returned [] (Parser.createInstrument demoParser) in
  Parser.createInstrument demoParser = Return out
  ∧ (instrumentName <$> Parser.instrument demoParser)
    = [fromCharCode (nameField "Lead"); fromCharCode (nameField "EOI")]
  ∧ (fun o => length (InstrumentInfo.info o)) <$> out = [2%nat; 1%nat]
  ∧ length out = length (Parser.instrument demoParser)
  ∧ ∀ (i : nat) o, out !! i = Some o →
      ∃ ins, Parser.instrument demoParser !! i = Some ins
        ∧ InstrumentInfo.name o = instrumentName ins
        ∧ length (InstrumentInfo.info o)
          = Z.to_nat (Parser.bagIndexEnd instrumentBagIndex
                        (Parser.instrument demoParser)
                        (Parser.instrumentZone demoParser) (Z.of_nat i)
                      - instrumentBagIndex ins).
Proof.
  intros out.
  assert (Hrun : Parser.createInstrument demoParser = Return out)
    by reflexivity.
  split; [exact Hrun|]. split; [vm_compute; reflexivity|].
  split; [vm_compute; reflexivity|].
  exact (createInstrument_shape demoParser out Hrun).
Defined.

Lemma presetBags_result (this : Parser.state) (zone : list Bag) (n : nat) :
  ∀ j zoneInfo instrument zones instrument',
    Parser.presetBags this zone n j zoneInfo instrument
    = Return (zones, instrument') →
    ∃ new, zones = zoneInfo ++ new ∧ length new = n
      ∧ instrument' = presetInstrument instrument new.
Proof.
  induction n as [|n IH]; intros j zoneInfo instrument zones instrument' Hrun;
    cbn [Parser.presetBags] in Hrun.
  - injection Hrun as <- <-. exists []. rewrite app_nil_r. repeat split.
  - apply bind_Return in Hrun as (g & _ & Hrun).
    apply bind_Return in Hrun as (md & _ & Hrun).
    apply IH in Hrun as (new & -> & Hlen & ->).
    eexists (_ :: new). split; [rewrite <- app_assoc; reflexivity|].
    split; [simpl; lia|].
    unfold presetInstrument. rewrite last_cons.
    destruct (last new); reflexivity.
Qed.

Lemma createPreset_loop_chain (this : Parser.state) (n : nat) :
  ∀ (i : nat) (output out : list PresetInfo.t) (instrument : jsval),
    Parser.createPreset_loop this n (Z.of_nat i) output instrument = Return out →
    ∃ new, out = output ++ new ∧ length new = n
      ∧ presetChain this instrument i new.
Proof.
  induction n as [|n IH]; intros i output out instrument Hrun;
    cbn [Parser.createPreset_loop] in Hrun.
  - injection Hrun as <-. exists []. rewrite app_nil_r. repeat split.
  - destruct (lookupZ (Parser.presetHeader this) (Z.of_nat i)) as [p|] eqn:E;
      [|discriminate].
    apply lookupZ_Some in E as [_ E]. rewrite Nat2Z.id in E.
    apply bind_Return in Hrun as ([zones instrument'] & Hz & Hrun).
    cbv beta iota in Hrun.
    apply presetBags_result in Hz as (new & Hnew & _ & ->).
    simpl in Hnew. subst zones.
    replace (Z.of_nat i + 1) with (Z.of_nat (S i)) in Hrun by lia.
    apply IH in Hrun as (rest & -> & Hlen & Hchain).
    eexists (_ :: rest). split; [rewrite <- app_assoc; reflexivity|].
    split; [simpl; lia|].
    cbn [presetChain PresetInfo.header PresetInfo.name PresetInfo.instrument
         PresetInfo.info].
    repeat split; [exact E | exact Hchain].
Qed.

Lemma presetChain_lookup (this : Parser.state) (entries : list PresetInfo.t) :
  ∀ (prev : jsval) (i k : nat) (o : PresetInfo.t),
    presetChain this prev i entries → entries !! k = Some o →
    Parser.presetHeader this !! (i + k)%nat = Some (PresetInfo.header o)
    ∧ PresetInfo.name o = presetName (PresetInfo.header o)
    ∧ PresetInfo.instrument o
      = presetInstrument
          (match k with
           | O => prev
           | S k' => default prev (PresetInfo.instrument <$> entries !! k')
           end) (PresetInfo.info o).
Proof.
  induction entries as [|o0 rest IH]; intros prev i k o Hchain Hk;
    [discriminate|].
  destruct Hchain as (Hh & Hn & Hi & Hrest).
  destruct k as [|k].
  - injection Hk as <-. rewrite Nat.add_0_r. auto.
  - simpl in Hk. destruct (IH _ _ _ _ Hrest Hk) as (Hh' & Hn' & Hi').
    replace (i + S k)%nat with (S i + k)%nat by lia.
    split; [exact Hh'|]. split; [exact Hn'|]. rewrite Hi'. f_equal.
    destruct k as [|k]; [reflexivity|]. simpl.
    destruct (rest !! k) as [o1|] eqn:E; [reflexivity|].
    apply lookup_ge_None in E. apply lookup_lt_Some in Hk. lia.
Qed.

(** X11.  [createPreset] returns one entry per preset header, in order,
    with the header and its name.  The [instrument] of an entry is decided
    by the last zone of the preset alone: the amount of that zone's
    'instrument' generator, else of its 'instrument' modulator, else
    [null].  A preset without zones gets the [instrument] of the entry
    before it ([undefined] for the first preset), because the variable is
    not reset between presets. *)
Theorem createPreset_instrument (this : Parser.state)
    (out : list PresetInfo.t) :
  Parser.createPreset this = Return out →
  length out = length (Parser.presetHeader this)
  ∧ ∀ (k : nat) (o : PresetInfo.t), out !! k = Some o →
      Parser.presetHeader this !! k = Some (PresetInfo.header o)
      ∧ PresetInfo.name o = presetName (PresetInfo.header o)
      ∧ PresetInfo.instrument o
        = match last (PresetInfo.info o) with
          | Some z => Parser.linkedInstrument (generator z) (modulator z)
          | None => instrumentBefore out k
          end.
Proof.
  unfold Parser.createPreset. intros Hrun.
  apply (createPreset_loop_chain this _ 0) in Hrun
    as (new & -> & Hlen & Hchain).
  split; [exact Hlen|]. intros k o Hk. simpl in Hk |- *.
  destruct (presetChain_lookup this new JUndefined 0 k o Hchain Hk)
    as (Hh & Hn & Hi).
  split; [exact Hh|]. split; [exact Hn|]. rewrite Hi.
  unfold presetInstrument, instrumentBefore.
  destruct (last (PresetInfo.info o)); [reflexivity|].
  destruct k; reflexivity.
Qed.

Lemma createPreset_instrument_witness :
  let out := returned [] (Parser.createPreset demoPresetParser) in
  Parser.createPreset demoPresetParser = Return out
  ∧ (presetBagIndex <$> Parser.presetHeader demoPresetParser) = [0; 1; 1]
  ∧ (fun o => length (PresetInfo.info o)) <$> out = [1%nat; 0%nat; 1%nat]
  ∧ PresetInfo.instrument <$> out = [JNum 0; JNum 0; JNull]
  ∧ length out = length (Parser.presetHeader demoPresetParser)
  ∧ ∀ (k : nat) (o : PresetInfo.t), out !! k = Some o →
      Parser.presetHeader demoPresetParser !! k = Some (PresetInfo.header o)
      ∧ PresetInfo.name o = presetName (PresetInfo.header o)
      ∧ PresetInfo.instrument o
        = match last (PresetInfo.info o) with
          | Some z => Parser.linkedInstrument (generator z) (modulator z)
          | None => instrumentBefore out k
          end.
Proof.
  intros out.
  assert (Hrun : Parser.createPreset demoPresetParser = Return out)
    by reflexivity.
  split; [exact Hrun|]. do 3 (split; [vm_compute; reflexivity|]).
  exact (createPreset_instrument demoPresetParser out Hrun).
Defined.

(** ** Sample extraction and resampling in [loadSample] *)

Lemma duplicate_lookup_half (sample : Int16Array) :
  ∀ j : nat, duplicate sample !! j = sample !! (j / 2)%nat.
Proof.
  induction sample as [|x rest IH]; intros j; [destruct j; reflexivity|].
  destruct j as [|[|j]]; [reflexivity | reflexivity |].
  replace (S (S j)) with (j + 1 * 2)%nat by lia.
  rewrite Nat.div_add by lia. replace (j / 2 + 1)%nat with (S (j / 2)) by lia.
  replace (j + 1 * 2)%nat with (S (S j)) by lia. simpl. apply IH.
Qed.

Lemma stretch_S (k : nat) (sample : Int16Array) :
  stretch (S k) sample = duplicate (stretch k sample).
Proof. reflexivity. Qed.

Lemma stretch_S_r (k : nat) (sample : Int16Array) :
  stretch (S k) sample = stretch k (duplicate sample).
Proof. unfold stretch. apply Nat.iter_succ_r. Qed.

Lemma stretch_lookup (k : nat) (sample : Int16Array) :
  ∀ j : nat, stretch k sample !! j = sample !! (j / 2 ^ k)%nat.
Proof.
  induction k as [|k IH]; intros j.
  - change (2 ^ 0)%nat with 1%nat. rewrite Nat.div_1_r. reflexivity.
  - rewrite stretch_S, duplicate_lookup_half, IH.
    rewrite Nat.Div0.div_div. reflexivity.
Qed.

Lemma stretch_length (k : nat) (sample : Int16Array) :
  length (stretch k sample) = (2 ^ k * length sample)%nat.
Proof.
  induction k as [|k IH]; [simpl; lia|].
  rewrite stretch_S, duplicate_length, IH.
  rewrite Nat.pow_succ_r'. lia.
Qed.

Lemma adjustSampleData_loop_stretch (fuel : nat) :
  ∀ (sample : Int16Array) (rate multiply : Z) (sample' : Int16Array) (m : Z),
    Parse.adjustSampleData_loop fuel sample rate multiply = Return (sample', m) →
    ∃ k : nat,
      sample' = stretch k sample ∧ m = multiply * 2 ^ Z.of_nat k
      ∧ 22050 ≤ rate * 2 ^ Z.of_nat k
      ∧ (k = O ∨ rate * 2 ^ Z.of_nat k < 44100)
      ∧ (22050 ≤ rate → k = O).
Proof.
  induction fuel as [|fuel IH]; intros sample rate multiply sample' m Hrun;
    simpl in Hrun; [discriminate|].
  destruct (rate <? 22050) eqn:E.
  - apply IH in Hrun as (k & -> & -> & Hge & Hlt & _).
    exists (S k). rewrite Nat2Z.inj_succ, Z.pow_succ_r by lia.
    split; [symmetry; apply stretch_S_r|].
    split; [lia|]. split; [lia|]. split; [|lia].
    right. destruct Hlt as [->|Hlt]; simpl; lia.
  - injection Hrun as <- <-. exists O. simpl.
    repeat split; lia.
Qed.

(** What [adjustSampleData] returns. *)
Lemma adjustSampleData_stretch (fuel : nat) (sample sample' : Int16Array)
    (rate m : Z) :
  Parse.adjustSampleData fuel sample rate = Return (sample', m) →
  (∃ k : nat, m = 2 ^ Z.of_nat k)
  ∧ Z.of_nat (length sample') = m * Z.of_nat (length sample)
  ∧ (∀ j : nat, sample' !! j = sample !! (j / Z.to_nat m)%nat)
  ∧ 22050 ≤ rate * m
  ∧ (rate < 22050 → rate * m < 44100)
  ∧ (22050 ≤ rate → m = 1 ∧ sample' = sample).
Proof.
  unfold Parse.adjustSampleData. intros Hrun.
  apply adjustSampleData_loop_stretch in Hrun as (k & -> & -> & Hge & Hlt & H1).
  rewrite Z.mul_1_l in *.
  assert (Hpow : 2 ^ Z.of_nat k = Z.of_nat (2 ^ k))
    by (rewrite Nat2Z.inj_pow; reflexivity).
  split; [eauto|]. split; [rewrite stretch_length, Hpow; lia|].
  split; [intros j; rewrite stretch_lookup, Hpow, Nat2Z.id; reflexivity|].
  split; [exact Hge|]. split.
  - intros Hlow. destruct Hlt as [->|Hlt]; [simpl in Hge; lia | exact Hlt].
  - intros Hhigh. rewrite (H1 Hhigh). split; reflexivity.
Qed.

(** X12.  When [adjustSampleData] returns, the factor is a power of two,
    the new sample is that many times as long and its element j is
    element j / factor of the old one (every sample repeated in place); the
    rate times the factor is at least 22050, below 44100 when the rate was
    below 22050, and the factor is 1 when the rate was not below 22050. *)
Theorem adjustSampleData_upsamples (fuel : nat) (sample sample' : Int16Array)
    (rate m : Z) :
  Parse.adjustSampleData fuel sample rate = Return (sample', m) →
  (∃ k : nat, m = 2 ^ Z.of_nat k)
  ∧ Z.of_nat (length sample') = m * Z.of_nat (length sample)
  ∧ (∀ j : nat, sample' !! j = sample !! (j / Z.to_nat m)%nat)
  ∧ 22050 ≤ rate * m
  ∧ (rate < 22050 → rate * m < 44100)
  ∧ (22050 ≤ rate → m = 1 ∧ sample' = sample).
Proof. exact (adjustSampleData_stretch fuel sample sample' rate m). Qed.

Lemma adjustSampleData_upsamples_witness :
  Parse.adjustSampleData 8 [7; -3] 3000 = Return ([7; 7; 7; 7; 7; 7; 7; 7;
                                                   -3; -3; -3; -3; -3; -3; -3; -3], 8)
  ∧ (∃ k : nat, 8 = 2 ^ Z.of_nat k)
  ∧ 22050 ≤ 3000 * 8 ∧ (3000 < 22050 → 3000 * 8 < 44100).
Proof.
  assert (Hrun : Parse.adjustSampleData 8 [7; -3] 3000
                 = Return ([7; 7; 7; 7; 7; 7; 7; 7;
                            -3; -3; -3; -3; -3; -3; -3; -3], 8))
    by (vm_compute; reflexivity).
  destruct (adjustSampleData_upsamples 8 _ _ 3000 8 Hrun)
    as (Hk & _ & _ & Hge & Hlt & _).
  split; [exact Hrun|]. split; [exact Hk|]. split; [exact Hge | exact Hlt].
Defined.

Lemma int16View_lookup (i : nat) :
  ∀ (bytes : list byte) (lo hi : byte),
    bytes !! (2 * i)%nat = Some lo → bytes !! (2 * i + 1)%nat = Some hi →
    int16View bytes !! i = Some (signed16 (byteZ lo + 256 * byteZ hi)).
Proof.
  induction i as [|i IH]; intros bytes lo hi Hlo Hhi;
    destruct bytes as [|a [|b rest]]; try discriminate.
  - simpl in *. congruence.
  - replace (2 * S i)%nat with (S (S (2 * i))) in Hlo by lia.
    replace (2 * S i + 1)%nat with (S (S (2 * i + 1))) in Hhi by lia.
    simpl in *. apply IH; assumption.
Qed.

Lemma int16View_length (n : nat) :
  ∀ bytes : list byte, length bytes = (2 * n)%nat → length (int16View bytes) = n.
Proof.
  induction n as [|n IH]; intros bytes Hlen;
    destruct bytes as [|a [|b rest]]; simpl in *; try lia.
  f_equal. apply IH. lia.
Qed.

Lemma byteAt_lookup (data : Uint8Array) (ip : Z) (b : byte) :
  0 ≤ ip → data !! Z.to_nat ip = Some b → byteAt data ip = byteZ b.
Proof.
  intros Hip Hb. unfold byteAt, at_.
  destruct (ip <? 0) eqn:E; [lia|]. rewrite Hb. reflexivity.
Qed.

(** Inside the buffer [subarray] is the plain slice. *)
Lemma subarray_inside (data : Uint8Array) (a b : Z) :
  0 ≤ a ≤ b → b ≤ Z.of_nat (length data) →
  subarray data a b = take (Z.to_nat (b - a)) (drop (Z.to_nat a) data).
Proof.
  intros Hab Hb. unfold subarray, clampIndex.
  destruct (a <? 0) eqn:Ea; [lia|]. destruct (b <? 0) eqn:Eb; [lia|].
  rewrite !Z.min_l by lia. reflexivity.
Qed.

(** The frames cut out for a range that lies inside the buffer. *)
Lemma extraction_inside (data : Uint8Array) (off start stop : Z) :
  0 ≤ off + start * 2 → start ≤ stop →
  off + stop * 2 ≤ Z.of_nat (length data) →
  ∃ frames : Int16Array,
    newInt16Array (subarray data (off + start * 2) (off + stop * 2))
    = Return frames
    ∧ Z.of_nat (length frames) = stop - start
    ∧ ∀ i : nat, Z.of_nat i < stop - start →
        frames !! i = Some (frameAt data off (start + Z.of_nat i)).
Proof.
  intros Ha Hse Hb. rewrite subarray_inside by lia.
  set (n := Z.to_nat (stop - start)).
  replace (Z.to_nat (off + stop * 2 - (off + start * 2))) with (2 * n)%nat
    by lia.
  set (bytes := take (2 * n) (drop (Z.to_nat (off + start * 2)) data)).
  assert (Hlen : length bytes = (2 * n)%nat).
  { unfold bytes. rewrite length_take, length_drop. lia. }
  exists (int16View bytes). unfold newInt16Array. rewrite Hlen.
  replace (Z.odd (Z.of_nat (2 * n))) with false
    by (rewrite Nat2Z.inj_mul, Z.odd_mul; reflexivity).
  split; [reflexivity|]. split; [rewrite (int16View_length n _ Hlen); lia|].
  intros i Hi.
  assert (Hget : ∀ j : nat, (j < 2 * n)%nat →
            ∃ b, bytes !! j = Some b
                 ∧ byteAt data (off + start * 2 + Z.of_nat j) = byteZ b).
  { intros j Hj. unfold bytes. rewrite lookup_take_lt by lia.
    rewrite lookup_drop.
    destruct (data !! (Z.to_nat (off + start * 2) + j)%nat) as [b|] eqn:E.
    - exists b. split; [first [exact E | reflexivity]|].
      apply byteAt_lookup; [lia|].
      rewrite <- E. f_equal. lia.
    - apply lookup_ge_None in E. lia. }
  destruct (Hget (2 * i)%nat ltac:(lia)) as (lo & Hlo & Elo).
  destruct (Hget (2 * i + 1)%nat ltac:(lia)) as (hi & Hhi & Ehi).
  rewrite (int16View_lookup i bytes lo hi Hlo Hhi). unfold frameAt.
  replace (off + 2 * (start + Z.of_nat i))
    with (off + start * 2 + Z.of_nat (2 * i)) by lia.
  replace (off + start * 2 + Z.of_nat (2 * i) + 1)
    with (off + start * 2 + Z.of_nat (2 * i + 1)) by lia.
  rewrite Elo, Ehi. reflexivity.
Qed.

(** X13.  For a header whose frame range lies inside the buffer, the
    sample [loadSample] produces is the range [start, end) of the sample
    data, every frame read as a little-endian signed 16-bit number and
    repeated as many times as the factor says: element j is frame
    start + j / factor, and the header comes back with rate and loop
    points multiplied by that factor. *)
Theorem loadOne_frames (fuel : nat) (off : Z) (data : Uint8Array)
    (header header' : SampleHeader) (sample : Int16Array) :
  0 ≤ off + start header * 2 → start header ≤ end_ header →
  off + end_ header * 2 ≤ Z.of_nat (length data) →
  Parse.loadOne fuel off data header = Return (sample, header') →
  ∃ m : Z,
    1 ≤ m
    ∧ header' = scaledHeader header m
    ∧ Z.of_nat (length sample) = m * (end_ header - start header)
    ∧ ∀ j : nat, (j < length sample)%nat →
        sample !! j
        = Some (frameAt data off (start header + Z.of_nat (j / Z.to_nat m))).
Proof.
  intros Ha Hse Hb Hrun.
  destruct (extraction_inside data off (start header) (end_ header) Ha Hse Hb)
    as (frames & Hcut & Hlen & Hframes).
  unfold Parse.loadOne in Hrun. rewrite (bind_Return_eq _ _ _ Hcut) in Hrun.
  destruct (0 <? sampleRate header) eqn:E.
  - apply bind_Return in Hrun as ([s m] & Hadj & Hrun).
    cbn [fst snd] in Hrun. injection Hrun as <- <-.
    destruct (adjustSampleData_stretch _ _ _ _ _ Hadj)
      as ([k ->] & Hl & Hj & _).
    assert (Hpos : 0 < 2 ^ Z.of_nat k) by (apply Z.pow_pos_nonneg; lia).
    exists (2 ^ Z.of_nat k). split; [lia|]. split; [reflexivity|].
    split; [lia|]. intros j Hlt. rewrite Hj. apply Hframes.
    assert (Hdiv : (j / Z.to_nat (2 ^ Z.of_nat k) < length frames)%nat).
    { apply Nat.Div0.div_lt_upper_bound. nia. }
    lia.
  - injection Hrun as <- <-. exists 1. split; [lia|].
    split; [symmetry; apply scaledHeader_1|]. split; [lia|].
    intros j Hlt. change (Z.to_nat 1) with 1%nat. rewrite Nat.div_1_r.
    apply Hframes. lia.
Qed.

Lemma loadOne_frames_witness :
  let low := {| sampleName := "Tone"; start := 2; end_ := 6; startLoop := 1;
                endLoop := 3; sampleRate := 11025; originalPitch := Some 60;
                pitchCorrection := 0; sampleLink := 0; sampleType := 1 |} in
  0 ≤ 0 + start low * 2 ∧ start low ≤ end_ low
  ∧ 0 + end_ low * 2 ≤ Z.of_nat (length demo_samples)
  ∧ Parse.loadOne 2 0 demo_samples low
    = Return ([30; 30; 40; 40; -50; -50; 60; 60], scaledHeader low 2)
  ∧ ∃ m : Z,
      1 ≤ m
      ∧ scaledHeader low 2 = scaledHeader low m
      ∧ 8 = m * (end_ low - start low)
      ∧ ∀ j : nat, (j < 8)%nat →
          [30; 30; 40; 40; -50; -50; 60; 60] !! j
          = Some (frameAt demo_samples 0 (start low + Z.of_nat (j / Z.to_nat m))).
Proof.
  intros low.
  assert (H1 : 0 ≤ 0 + start low * 2) by (simpl; lia).
  assert (H2 : start low ≤ end_ low) by (simpl; lia).
  assert (H3 : 0 + end_ low * 2 ≤ Z.of_nat (length demo_samples))
    by (vm_compute; discriminate).
  assert (Hrun : Parse.loadOne 2 0 demo_samples low
                 = Return ([30; 30; 40; 40; -50; -50; 60; 60],
                           scaledHeader low 2)) by (vm_compute; reflexivity).
  split; [exact H1|]. split; [exact H2|]. split; [exact H3|].
  split; [exact Hrun|].
  exact (loadOne_frames 2 0 demo_samples low _ _ H1 H2 H3 Hrun).
Defined.





(** ** The guard of the doubling loop *)





(** ** The two copies of the sample code agree *)

Lemma adjustSampleData_loop_agree (fuel : nat) :
  ∀ (sample : Int16Array) (rate multiply : Z),
    Parser.adjustSampleData_loop fuel 22050 sample rate multiply
    = Parse.adjustSampleData_loop fuel sample rate multiply.
Proof.
  induction fuel as [|fuel IH]; intros sample rate multiply; [reflexivity|].
  simpl. destruct (rate <? 22050); [apply IH | reflexivity].
Qed.

(** X16.  With the threshold 22050 one pass of [parseShdr] of the class
    does what the callback of [loadSample] does on the header read from
    the same 46 bytes once its loop points are made relative to [start]:
    same sample, same header, same error, same need for fuel. *)
Theorem sampleRecord_agrees_with_loadOne (fuel : nat) (off : Z)
    (data : Uint8Array) (ip : Z) :
  Parser.sampleRecord fuel 22050 off data ip
  = (x ← Parse.loadOne fuel off data (rebased (Parser.rawSampleHeader data ip));
     Return (x.1, x.2, ip + 46)).
Proof.
  unfold Parser.sampleRecord.
  generalize (Parser.rawSampleHeader data ip). intros raw.
  unfold Parse.loadOne, rebased.
  unfold Parser.adjustSampleData, Parse.adjustSampleData.
  cbv zeta. cbn [start end_ sampleRate startLoop endLoop sampleName
                 originalPitch pitchCorrection sampleLink sampleType].
  destruct (newInt16Array
              (subarray data (off + start raw * 2) (off + end_ raw * 2)))
    as [sample| |]; cbn [mbind outcome_bind]; try reflexivity.
  destruct (0 <? sampleRate raw); cbn [mbind outcome_bind]; [|reflexivity].
  rewrite adjustSampleData_loop_agree.
  destruct (Parse.adjustSampleData_loop fuel sample (sampleRate raw) 1)
    as [[s m]| |]; reflexivity.
Qed.

(** ** The result of [parse] *)

Lemma loadOne_rate (fuel : nat) (off : Z) (data : Uint8Array)
    (header header' : SampleHeader) (sample : Int16Array) :
  Parse.loadOne fuel off data header = Return (sample, header') →
  sampleRate header' ≤ 0 ∨ 22050 ≤ sampleRate header'.
Proof.
  unfold Parse.loadOne. intros Hrun.
  apply bind_Return in Hrun as (s0 & _ & Hrun).
  destruct (0 <? sampleRate header) eqn:E.
  - apply bind_Return in Hrun as ([s m] & Hadj & Hrun).
    cbn [fst snd] in Hrun. injection Hrun as <- <-. right.
    cbn [sampleRate].
    apply (adjustSampleData_stretch _ _ _ _ _ Hadj).
  - injection Hrun as <- <-. left. lia.
Qed.

Lemma loadSample_aligned (fuel : nat) (off : Z) (data : Uint8Array) :
  ∀ (headers : list SampleHeader) (samples : list Int16Array)
    (headers' : list SampleHeader),
    Parse.loadSample fuel headers off data = Return (samples, headers') →
    length samples = length headers
    ∧ length headers' = length headers
    ∧ Forall (fun h => sampleRate h ≤ 0 ∨ 22050 ≤ sampleRate h) headers'.
Proof.
  induction headers as [|h rest IH]; intros samples headers' Hrun;
    simpl in Hrun.
  - injection Hrun as <- <-. split; [reflexivity|]. split; [reflexivity|].
    apply Forall_nil_2.
  - apply bind_Return in Hrun as ([s h'] & Hone & Hrun). cbv beta iota in Hrun.
    apply bind_Return in Hrun as ([ss hs'] & Hrest & Hrun).
    cbv beta iota in Hrun. injection Hrun as <- <-.
    destruct (IH _ _ Hrest) as (Hs & Hh & Hall).
    split; [simpl; lia|]. split; [simpl; lia|].
    apply Forall_cons. split; [eapply loadOne_rate, Hone | exact Hall].
Qed.

Section ParseResults.
Context `{Imports}.

(** X17.  In every result of [parse] the list of samples and the list of
    sample headers have the same length, so entry i of one goes with
    entry i of the other, and no header keeps a rate strictly between 0
    and 22050: a rate is 0 or less (left as it was read) or at least
    22050 (after the doubling). *)
Theorem parse_samples_aligned (fuel : nat) (input : Uint8Array)
    (option : RiffParserOptions) (r : Parse.ParseResult) :
  Parse.parse fuel input option = Return r →
  length (Parse.sample r) = length (Parse.sampleHeader r)
  ∧ ∀ h, h ∈ Parse.sampleHeader r →
         sampleRate h ≤ 0 ∨ 22050 ≤ sampleRate h.
Proof.
  unfold Parse.parse. intros Hrun.
  apply bind_Return in Hrun as (chunkList & _ & Hrun).
  destruct chunkList as [|chunk [|c1 rest]]; try discriminate Hrun.
  apply bind_Return in Hrun as ([[info samplingData] pdta] & _ & Hrun).
  cbv beta iota in Hrun.
  apply bind_Return in Hrun as ([samples headers] & Hload & Hrun).
  cbv beta iota in Hrun. injection Hrun as <-. simpl.
  apply loadSample_aligned in Hload as (Hs & Hh & Hall).
  split; [congruence|]. rewrite Forall_forall in Hall. exact Hall.
Qed.

Lemma info_fold_lookup (data : Uint8Array) (name : string) :
  ∀ (l : list Chunk.t) (info : gmap string string),
    foldl (fun (info : gmap string string) (p : Chunk.t) =>
             <[Parse.infoName (Chunk.type p) :=
                 readString data (Chunk.offset p)
                            (Chunk.offset p + Chunk.size p)]> info)
          info l !! name
    = match last (filter (fun p => Parse.infoName (Chunk.type p) = name) l) with
      | Some p => Some (readString data (Chunk.offset p)
                                   (Chunk.offset p + Chunk.size p))
      | None => info !! name
      end.
Proof.
  induction l as [|p l IH]; intros info; [reflexivity|].
  cbn [foldl]. rewrite IH. rewrite filter_cons.
  destruct (decide (Parse.infoName (Chunk.type p) = name)) as [E|E].
  - rewrite last_cons.
    destruct (last (filter _ l)); [reflexivity|].
    rewrite E, lookup_insert_eq. reflexivity.
  - destruct (last (filter _ l)); [reflexivity|].
    rewrite lookup_insert_ne by exact E. reflexivity.
Qed.

(** X18.  [parseInfoList] returns one entry per name: under a name stands
    the text of the last chunk of the INFO list that carries it (a later
    chunk with the same name overwrites an earlier one), a name no chunk
    carries is absent, and a tag the name table does not know is its own
    name. *)
Theorem parseInfoList_last_chunk_wins (chunk : Chunk.t) (data : Uint8Array)
    (l : list Chunk.t) :
  Parse.getChunkList chunk data "LIST" "INFO" = Return l →
  ∃ info : gmap string string,
    Parse.parseInfoList chunk data = Return info
    ∧ (∀ name : string,
         info !! name
         = (fun p => readString data (Chunk.offset p)
                                (Chunk.offset p + Chunk.size p))
           <$> last (filter (fun p => Parse.infoName (Chunk.type p) = name) l))
    ∧ (∀ p, p ∈ l → InfoNameTable (Chunk.type p) = None →
            is_Some (info !! Chunk.type p)).
Proof.
  intros Hlist. unfold Parse.parseInfoList. rewrite Hlist.
  eexists. split; [reflexivity|].
  assert (Hlook : ∀ name : string,
            foldl (fun (info : gmap string string) (p : Chunk.t) =>
                     <[Parse.infoName (Chunk.type p) :=
                         readString data (Chunk.offset p)
                                    (Chunk.offset p + Chunk.size p)]> info)
                  ∅ l !! name
            = (fun p => readString data (Chunk.offset p)
                                   (Chunk.offset p + Chunk.size p))
              <$> last (filter (fun p => Parse.infoName (Chunk.type p) = name) l)).
  { intros name. rewrite info_fold_lookup.
    destruct (last (filter _ l)); [reflexivity | apply lookup_empty]. }
  split; [exact Hlook|].
  intros p Hp Htable. rewrite Hlook.
  assert (Hin : p ∈ filter (fun q => Parse.infoName (Chunk.type q)
                                     = Chunk.type p) l).
  { apply list_elem_of_filter. split; [|exact Hp].
    unfold Parse.infoName. rewrite Htable. reflexivity. }
  destruct (filter _ l) as [|q qs] eqn:E using rev_ind.
  - apply elem_of_nil in Hin. contradiction.
  - rewrite last_snoc. simpl. eauto.
Qed.

(** X19.  Once the three lists under [sfbk] are found and the first two
    are read, the chunks of [pdta] are checked before any record is
    decoded: a number of chunks other than nine makes [parse] throw
    "invalid pdta chunk", and nine chunks of which the first is not [phdr]
    make it throw "invalid chunk type:" followed by that chunk's type;
    both whatever the fuel. *)
Theorem parse_pdta_structure (fuel : nat) (input : Uint8Array)
    (option : RiffParserOptions) (chunk c0 c1 c2 : Chunk.t)
    (info : gmap string string) (samplingData : Chunk.t) (l : list Chunk.t) :
  parseRiff input 0 (Z.of_nat (length input)) option = inr [chunk] →
  Parse.getChunkList chunk input "RIFF" "sfbk" = Return [c0; c1; c2] →
  Parse.parseInfoList c0 input = Return info →
  Parse.parseSdtaList c1 input = Return samplingData →
  Parse.getChunkList c2 input "LIST" "pdta" = Return l →
  (length l ≠ 9%nat →
   Parse.parse fuel input option = Throw "invalid pdta chunk")
  ∧ (∀ p rest, l = p :: rest → length l = 9%nat →
       Chunk.type p ≠ "phdr"%string →
       Parse.parse fuel input option
       = Throw ("invalid chunk type:" ++ Chunk.type p)).
Proof.
  intros Hriff Hlist Hinfo Hsd Hl. unfold Parse.parse. rewrite Hriff.
  change (lift (inr [chunk])) with (Return [chunk]).
  rewrite (bind_Return_eq _ _ [chunk] eq_refl).
  unfold Parse.parseRiffChunk. rewrite Hlist.
  rewrite (bind_Return_eq _ _ _ eq_refl).
  rewrite (bind_Return_eq _ _ _ Hinfo), (bind_Return_eq _ _ _ Hsd).
  unfold Parse.parsePdtaList. rewrite Hl.
  rewrite (bind_Return_eq _ _ l eq_refl).
  split.
  - intros Hlen.
    destruct l as [|a0 [|a1 [|a2 [|a3 [|a4 [|a5 [|a6 [|a7 [|a8 [|a9 rest]]]]]]]]]];
      try reflexivity.
    contradiction Hlen. reflexivity.
  - intros p rest -> Hlen Hty.
    destruct rest as [|a1 [|a2 [|a3 [|a4 [|a5 [|a6 [|a7 [|a8 [|a9 rest]]]]]]]]];
      try discriminate Hlen.
    unfold Parse.parsePhdr, Parse.parseChunk.
    rewrite (bool_decide_eq_true_2 _ Hty). reflexivity.
Qed.

End ParseResults.

Lemma parse_samples_aligned_witness :
  let r := returned
             {| Parse.presetHeader := []; Parse.presetZone := [];
                Parse.presetZoneModulator := []; Parse.presetZoneGenerator := [];
                Parse.instrument := []; Parse.instrumentZone := [];
                Parse.instrumentZoneModulator := [];
                Parse.instrumentZoneGenerator := []; Parse.sampleHeader := [];
                Parse.sample := [];
                Parse.samplingData := wholeChunk "" [];
                Parse.info := ∅ |}
             (@Parse.parse Reference.imports 8 demoFile tt) in
  @Parse.parse Reference.imports 8 demoFile tt = Return r
  ∧ length (Parse.sample r) = 1%nat
  ∧ length (Parse.sample r) = length (Parse.sampleHeader r)
  ∧ ∀ h, h ∈ Parse.sampleHeader r → sampleRate h ≤ 0 ∨ 22050 ≤ sampleRate h.
Proof.
  intros r.
  assert (Hrun : @Parse.parse Reference.imports 8 demoFile tt = Return r)
    by (apply returned_eq; vm_compute; reflexivity).
  split; [exact Hrun|]. split; [vm_compute; reflexivity|].
  exact (@parse_samples_aligned Reference.imports 8 demoFile tt r Hrun).
Defined.

Lemma parseInfoList_last_chunk_wins_witness :
  let chunk := {| Chunk.type := "LIST"; Chunk.size := 40; Chunk.offset := 8 |} in
  let l := [ {| Chunk.type := "INAM"; Chunk.size := 4; Chunk.offset := 20 |};
             {| Chunk.type := "ICRD"; Chunk.size := 4; Chunk.offset := 32 |};
             {| Chunk.type := "INAM"; Chunk.size := 4; Chunk.offset := 44 |} ] in
  @Parse.getChunkList Reference.imports chunk demo_info_twice "LIST" "INFO"
  = Return l
  ∧ ∃ info : gmap string string,
      @Parse.parseInfoList Reference.imports chunk demo_info_twice = Return info
      ∧ info !! "INAM"%string = Some "New"%string
      ∧ info !! "ICRD"%string = Some "2020"%string
      ∧ info !! "ISFT"%string = None.
Proof.
  intros chunk l.
  assert (Hlist : @Parse.getChunkList Reference.imports chunk demo_info_twice
                    "LIST" "INFO" = Return l) by (vm_compute; reflexivity).
  split; [exact Hlist|].
  destruct (@parseInfoList_last_chunk_wins Reference.imports chunk
              demo_info_twice l Hlist) as (info & Hrun & Hlook & _).
  exists info. split; [exact Hrun|].
  rewrite !Hlook. split; [vm_compute; reflexivity|].
  split; vm_compute; reflexivity.
Defined.

Lemma parse_pdta_structure_witness :
  let chunk8 := {| Chunk.type := "RIFF"; Chunk.size := 342; Chunk.offset := 8 |} in
  let chunk9 := {| Chunk.type := "RIFF"; Chunk.size := 442; Chunk.offset := 8 |} in
  let c0 := {| Chunk.type := "LIST"; Chunk.size := 18; Chunk.offset := 20 |} in
  let c1 := {| Chunk.type := "LIST"; Chunk.size := 28; Chunk.offset := 46 |} in
  let short := {| Chunk.type := "LIST"; Chunk.size := 268; Chunk.offset := 82 |} in
  let swapped := {| Chunk.type := "LIST"; Chunk.size := 368; Chunk.offset := 82 |} in
  @Parse.getChunkList Reference.imports chunk8 demoFile_pdta_of_8 "RIFF" "sfbk"
  = Return [c0; c1; short]
  ∧ @Parse.getChunkList Reference.imports chunk9 demoFile_pbag_first "RIFF" "sfbk"
    = Return [c0; c1; swapped]
  ∧ @Parse.parse Reference.imports 0 demoFile_pdta_of_8 tt
    = Throw "invalid pdta chunk"
  ∧ @Parse.parse Reference.imports 0 demoFile_pbag_first tt
    = Throw "invalid chunk type:pbag".
Proof.
  intros chunk8 chunk9 c0 c1 short swapped.
  set (none := wholeChunk "" []).
  set (info8 := returned ∅ (@Parse.parseInfoList Reference.imports c0
                              demoFile_pdta_of_8)).
  set (sd8 := returned none (@Parse.parseSdtaList Reference.imports c1
                               demoFile_pdta_of_8)).
  set (l8 := returned [] (@Parse.getChunkList Reference.imports short
                            demoFile_pdta_of_8 "LIST" "pdta")).
  set (info9 := returned ∅ (@Parse.parseInfoList Reference.imports c0
                              demoFile_pbag_first)).
  set (sd9 := returned none (@Parse.parseSdtaList Reference.imports c1
                               demoFile_pbag_first)).
  set (l9 := returned [] (@Parse.getChunkList Reference.imports swapped
                            demoFile_pbag_first "LIST" "pdta")).
  assert (Hlist8 : @Parse.getChunkList Reference.imports chunk8
                     demoFile_pdta_of_8 "RIFF" "sfbk" = Return [c0; c1; short])
    by (vm_compute; reflexivity).
  assert (Hlist9 : @Parse.getChunkList Reference.imports chunk9
                     demoFile_pbag_first "RIFF" "sfbk" = Return [c0; c1; swapped])
    by (vm_compute; reflexivity).
  split; [exact Hlist8|]. split; [exact Hlist9|]. split.
  - refine (proj1 (@parse_pdta_structure Reference.imports 0 demoFile_pdta_of_8
                     tt chunk8 c0 c1 short info8 sd8 l8 _ Hlist8 _ _ _) _).
    + vm_compute. reflexivity.
    + apply returned_eq. vm_compute. reflexivity.
    + apply returned_eq. vm_compute. reflexivity.
    + apply returned_eq. vm_compute. reflexivity.
    + vm_compute. discriminate.
  - refine (proj2 (@parse_pdta_structure Reference.imports 0 demoFile_pbag_first
                     tt chunk9 c0 c1 swapped info9 sd9 l9 _ Hlist9 _ _ _)
              {| Chunk.type := "pbag"; Chunk.size := 8; Chunk.offset := 94 |}
              (tail l9) _ _ _).
    + vm_compute. reflexivity.
    + apply returned_eq. vm_compute. reflexivity.
    + apply returned_eq. vm_compute. reflexivity.
    + apply returned_eq. vm_compute. reflexivity.
    + vm_compute. reflexivity.
    + vm_compute. reflexivity.
    + simpl. discriminate.
Defined.

(** ** Names in the class *)

Lemma string_of_list_byte_length (bytes : list byte) :
  String.length (string_of_list_byte bytes) = length bytes.
Proof.
  induction bytes as [|b bytes IH]; [reflexivity|].
  change (string_of_list_byte (b :: bytes))
    with (String (ascii_of_byte b) (string_of_list_byte bytes)).
  simpl. rewrite IH. reflexivity.
Qed.

(** X20.  The class reads a name as all the bytes of the 20-byte field
    that lie in the buffer, padding included: the name has
    min(20, bytes left) characters, so for a record whose name field lies
    inside the buffer the names of the records of [parsePhdr], [parseInst]
    and [parseShdr] have 20 characters and none equals the three-letter
    names "EOP", "EOI" or "EOS". *)
Theorem Parser_names_keep_padding (data : Uint8Array) (ip : Z) :
  0 ≤ ip ≤ Z.of_nat (length data) →
  String.length (Parser.readName data ip)
  = Z.to_nat (Z.min 20 (Z.of_nat (length data) - ip))
  ∧ (ip + 20 ≤ Z.of_nat (length data) →
     String.length (presetName (Parser.presetHeaderRecord data ip).1) = 20%nat
     ∧ presetName (Parser.presetHeaderRecord data ip).1 ≠ "EOP"%string
     ∧ instrumentName (Parser.instrumentRecord data ip).1 ≠ "EOI"%string
     ∧ sampleName (Parser.rawSampleHeader data ip) ≠ "EOS"%string).
Proof.
  intros Hip.
  assert (Hlen : String.length (Parser.readName data ip)
                 = Z.to_nat (Z.min 20 (Z.of_nat (length data) - ip))).
  { unfold Parser.readName, fromCharCode.
    rewrite string_of_list_byte_length. unfold subarray, clampIndex.
    destruct (ip <? 0) eqn:Ea; [lia|].
    destruct (ip + 20 <? 0) eqn:Eb; [lia|].
    rewrite length_take, length_drop. lia. }
  split; [exact Hlen|]. intros Hin.
  rewrite Z.min_l in Hlen by lia.
  change (presetName (Parser.presetHeaderRecord data ip).1)
    with (Parser.readName data ip).
  change (instrumentName (Parser.instrumentRecord data ip).1)
    with (Parser.readName data ip).
  change (sampleName (Parser.rawSampleHeader data ip))
    with (Parser.readName data ip).
  split; [exact Hlen|].
  split; [|split]; intros E; rewrite E in Hlen; discriminate Hlen.
Qed.

Lemma Parser_names_keep_padding_witness :
  let data := demo_inst in
  0 ≤ 22 ≤ Z.of_nat (length data)
  ∧ String.length (Parser.readName data 22) = 20%nat
  ∧ instrumentName (Parser.instrumentRecord data 22).1
    = fromCharCode (nameField "EOI")
  ∧ instrumentName (Parser.instrumentRecord data 22).1 ≠ "EOI"%string.
Proof.
  intros data.
  assert (Hip : 0 ≤ 22 ≤ Z.of_nat (length data)) by (vm_compute; split; discriminate).
  destruct (Parser_names_keep_padding data 22 Hip) as [Hlen Hnames].
  split; [exact Hip|]. split; [exact Hlen|]. split; [vm_compute; reflexivity|].
  apply Hnames. vm_compute. discriminate.
Defined.

(** ** The loop of [parseChunk] over records of one width *)

Lemma recordCount_end (w ip size : Z) :
  0 < w → size ≤ ip + w * Z.of_nat (recordCount w ip size).
Proof.
  intros Hw. unfold recordCount.
  pose proof (Z.div_mod (size - ip + (w - 1)) w ltac:(lia)) as Hdm.
  pose proof (Z.mod_pos_bound (size - ip + (w - 1)) w Hw) as Hr.
  destruct (Z_lt_le_dec ((size - ip + (w - 1)) / w) 0) as [Hneg|Hpos].
  - rewrite Z2Nat.nonpos by lia. nia.
  - rewrite Z2Nat.id by exact Hpos. nia.
Qed.

Lemma recordCount_inside (w ip size : Z) (j : nat) :
  0 < w → (j < recordCount w ip size)%nat → ip + w * Z.of_nat j < size.
Proof.
  intros Hw Hj. unfold recordCount in Hj.
  pose proof (Z.div_mod (size - ip + (w - 1)) w ltac:(lia)) as Hdm.
  pose proof (Z.mod_pos_bound (size - ip + (w - 1)) w Hw) as Hr.
  assert (Z.of_nat j < (size - ip + (w - 1)) / w) by lia.
  nia.
Qed.

Lemma parseChunk_loop_run {T} (factory : Factory T) (decode : Z → T) (w : Z)
    (data : Uint8Array) (size : Z) :
  0 < w →
  ∀ (j : nat) (ip : Z) (result : list T) (fuel : nat),
    (j ≤ recordCount w ip size)%nat →
    (∀ k : nat, (k < j)%nat →
       factory data (ip + w * Z.of_nat k)
       = inr (decode (ip + w * Z.of_nat k), ip + w * Z.of_nat (S k))) →
    Parse.parseChunk_loop factory (j + fuel) data ip size result
    = Parse.parseChunk_loop factory fuel data (ip + w * Z.of_nat j) size
        (result ++ ((fun k : nat => decode (ip + w * Z.of_nat k)) <$> seq 0 j)).
Proof.
  intros Hw j. induction j as [|j IH]; intros ip result fuel Hj Hok.
  - replace (ip + w * Z.of_nat 0) with ip by lia.
    simpl. rewrite app_nil_r. reflexivity.
  - assert (Hlt : ip < size).
    { pose proof (recordCount_inside w ip size 0 Hw ltac:(lia)). lia. }
    rewrite (recordCount_step w ip size Hw Hlt) in Hj.
    change (S j + fuel)%nat with (S (j + fuel)).
    cbn [Parse.parseChunk_loop].
    apply Z.ltb_lt in Hlt. rewrite Hlt.
    pose proof (Hok O ltac:(lia)) as H0.
    replace (ip + w * Z.of_nat 0) with ip in H0 by lia.
    replace (ip + w * Z.of_nat 1) with (ip + w) in H0 by lia.
    rewrite H0. cbn [lift mbind outcome_bind].
    rewrite (IH (ip + w) (result ++ [decode ip]) fuel ltac:(lia)).
    + replace (ip + w + w * Z.of_nat j) with (ip + w * Z.of_nat (S j)) by lia.
      f_equal. rewrite <- app_assoc. f_equal.
      cbn [app seq fmap list_fmap]. rewrite <- fmap_S_seq, <- list_fmap_compose.
      f_equal.
      * f_equal. lia.
      * apply list_fmap_ext. intros i k _. simpl. f_equal. lia.
    + intros k Hk. pose proof (Hok (S k) ltac:(lia)) as Hk'.
      replace (ip + w + w * Z.of_nat k) with (ip + w * Z.of_nat (S k)) by lia.
      replace (ip + w + w * Z.of_nat (S k))
        with (ip + w * Z.of_nat (S (S k))) by lia.
      exact Hk'.
Qed.

(** X21.  [parseChunk] over a decoder that takes [w] bytes per record:
    when the first j records decode, and j is the number of records that
    start inside the chunk (its size over [w], rounded up), the result is
    these j records in order, a last record that only starts inside the
    chunk included; when the decoder throws at record j, [parseChunk]
    throws that error and the records decoded so far are lost. *)
Theorem parseChunk_fixed_width {T} (factory : Factory T) (decode : Z → T)
    (w : Z) (chunk : Chunk.t) (data : Uint8Array) (type : string)
    (j extra : nat) :
  let n := Z.to_nat ((Chunk.size chunk + (w - 1)) / w) in
  let pos (k : nat) := Chunk.offset chunk + w * Z.of_nat k in
  0 < w → Chunk.type chunk = type → (j ≤ n)%nat →
  (∀ k : nat, (k < j)%nat →
     factory data (pos k) = inr (decode (pos k), pos (S k))) →
  (j = n →
   Parse.parseChunk (S n + extra) chunk data type factory
   = Return ((fun k => decode (pos k)) <$> seq 0 n))
  ∧ (∀ e : string, (j < n)%nat → factory data (pos j) = inl e →
       Parse.parseChunk (S j + extra) chunk data type factory = Throw e).
Proof.
  intros n pos Hw Hty Hj Hok.
  assert (Hn : recordCount w (Chunk.offset chunk)
                 (Chunk.offset chunk + Chunk.size chunk) = n)
    by apply recordCount_from_0.
  unfold Parse.parseChunk.
  rewrite (bool_decide_eq_false_2 _ (fun Hne => Hne Hty)).
  replace (S j + extra)%nat with (j + S extra)%nat by lia.
  split.
  - intros ->. replace (S n + extra)%nat with (n + S extra)%nat by lia.
    rewrite (parseChunk_loop_run factory decode w data _ Hw n _ [] (S extra)
               (eq_ind_r (fun c => (n ≤ c)%nat) (le_n n) Hn) Hok).
    cbn [Parse.parseChunk_loop].
    pose proof (recordCount_end w (Chunk.offset chunk)
                  (Chunk.offset chunk + Chunk.size chunk) Hw) as Hend.
    rewrite Hn in Hend.
    destruct (_ <? _) eqn:E; [lia | reflexivity].
  - intros e Hlt He.
    rewrite (parseChunk_loop_run factory decode w data _ Hw j _ [] (S extra)
               (eq_ind_r (fun c => (j ≤ c)%nat) Hj Hn) Hok).
    cbn [Parse.parseChunk_loop].
    pose proof (recordCount_inside w (Chunk.offset chunk)
                  (Chunk.offset chunk + Chunk.size chunk) j Hw ltac:(lia))
      as Hin.
    apply Z.ltb_lt in Hin. rewrite Hin.
    fold (pos j). rewrite He. reflexivity.
Qed.

Lemma parseChunk_fixed_width_witness :
  let factory := Reference.fixedRecord 4 Reference.decodeBag in
  let decode (p : Z) := Reference.decodeBag (subarray demo_pbag p (p + 4)) in
  let whole := wholeChunk "pbag" demo_pbag in
  let longer := {| Chunk.type := "pbag"; Chunk.size := 10; Chunk.offset := 0 |} in
  Parse.parseChunk 3 whole demo_pbag "pbag" factory = Return [(0, 0); (1, 0)]
  ∧ Parse.parseChunk 3 longer demo_pbag "pbag" factory = Throw "out of bounds".
Proof.
  intros factory decode whole longer.
  assert (Hok : ∀ k : nat, (k < 2)%nat →
            factory demo_pbag (0 + 4 * Z.of_nat k)
            = inr (decode (0 + 4 * Z.of_nat k), 0 + 4 * Z.of_nat (S k))).
  { intros k Hk. destruct k as [|[|k]]; [reflexivity | reflexivity | lia]. }
  split.
  - exact (proj1 (parseChunk_fixed_width factory decode 4 whole demo_pbag
                    "pbag" 2 0 ltac:(lia) eq_refl ltac:(vm_compute; lia) Hok)
             eq_refl).
  - exact (proj2 (parseChunk_fixed_width factory decode 4 longer demo_pbag
                    "pbag" 2 0 ltac:(lia) eq_refl ltac:(vm_compute; lia) Hok)
             "out of bounds"%string ltac:(vm_compute; lia) eq_refl).
Defined.

(** ** The two lists of [parseShdr] in the class *)

Lemma Parser_parseShdr_loop_aligned (threshold off : Z) (data : Uint8Array)
    (size : Z) (fuel : nat) :
  ∀ (ip : Z) (samples : list Int16Array) (headers : list SampleHeader)
    (samples' : list Int16Array) (headers' : list SampleHeader),
    Parser.parseShdr_loop fuel threshold off data ip size samples headers
    = Return (samples', headers') →
    length samples' = (length samples + recordCount 46 ip size)%nat
    ∧ length headers' = (length headers + recordCount 46 ip size)%nat.
Proof.
  induction fuel as [|fuel IH]; intros ip samples headers samples' headers' Hrun;
    [discriminate|].
  cbn [Parser.parseShdr_loop] in Hrun.
  destruct (ip <? size) eqn:E.
  - apply bind_Return in Hrun as ([[s h] ip'] & Hrec & Hrun).
    cbv beta iota in Hrun.
    apply sampleRecord_rebased in Hrec as [_ ->].
    apply IH in Hrun as [Hs Hh].
    rewrite length_app in Hs, Hh. simpl in Hs, Hh.
    rewrite (recordCount_step 46 ip size) by lia. lia.
  - injection Hrun as <- <-.
    rewrite (recordCount_done 46 ip size) by lia. lia.
Qed.

(** X22.  When [parseShdr] of the class returns, its list of samples and
    its list of sample headers have the same length, one entry per 46
    bytes of the chunk (rounded up), the terminal record included: entry
    i of one list goes with entry i of the other. *)
Theorem Parser_parseShdr_aligned (fuel : nat) (threshold off : Z)
    (data : Uint8Array) (chunk : Chunk.t) (samples : list Int16Array)
    (headers : list SampleHeader) :
  Parser.parseShdr fuel threshold off data chunk = Return (samples, headers) →
  length samples = length headers
  ∧ length headers = Z.to_nat ((Chunk.size chunk + 45) / 46).
Proof.
  unfold Parser.parseShdr. intros Hrun.
  destruct (bool_decide _); [|discriminate].
  apply Parser_parseShdr_loop_aligned in Hrun as [Hs Hh].
  rewrite (recordCount_from_0 46) in Hs, Hh. simpl in Hs, Hh.
  split; [congruence | exact Hh].
Qed.

Lemma Parser_parseShdr_aligned_witness :
  let r := returned ([], []) (Parser.parseShdr 8 22050 0 demo_sample_buffer
                                demo_shdr_chunk) in
  Parser.parseShdr 8 22050 0 demo_sample_buffer demo_shdr_chunk
  = Return (r.1, r.2)
  ∧ length r.1 = length r.2
  ∧ length r.2 = Z.to_nat ((Chunk.size demo_shdr_chunk + 45) / 46).
Proof.
  intros r.
  assert (Hrun : Parser.parseShdr 8 22050 0 demo_sample_buffer demo_shdr_chunk
                 = Return (r.1, r.2)).
  { rewrite <- surjective_pairing. apply returned_eq. vm_compute. reflexivity. }
  split; [exact Hrun|].
  exact (Parser_parseShdr_aligned 8 22050 0 demo_sample_buffer demo_shdr_chunk
           r.1 r.2 Hrun).
Defined.
